(** * A shallow embedding of [cxx::stack<K, V>] (stack.h)

    The container keeps two heap objects behind [std::shared_ptr]s:
    [main_stack], a [std::list] of (key handle, value) pairs, newest first,
    and [stacks_map], a [std::map] from key handles to a [std::stack] of list
    iterators.  Copies share both objects until one of them is about to be
    modified (copy on write); every modification is wrapped in scope guards
    that undo it when a later step throws.

    The embedding follows the header top-down:
    - the standard containers, as pure functions on lists;
    - the heap of reference-counted objects and a state/exception monad with
      an explicit schedule of injected allocation failures;
    - the guards and the member functions of [stack];
    - the invariants and the theorems. *)

From Stdlib Require Import Sorted.
From stdpp Require Import gmap list strings.

Set Default Proof Using "Type*".

(** ** Keys

    [K] only has to provide [operator<] (used through [KComp], which
    dereferences the two handles).  The order is taken strict and total, so
    that keys equivalent under [KComp] are equal. *)

Class KeyOrder (K : Type) := {
  key_lt : K → K → bool;
  key_lt_irrefl : ∀ a, key_lt a a = false;
  key_lt_trans : ∀ a b c, key_lt a b = true → key_lt b c = true → key_lt a c = true;
  key_lt_total : ∀ a b, key_lt a b = false → key_lt b a = false → a = b
}.

Section Containers.
Context {K V : Type} `{KeyOrder K}.

(** [shared_ptr<K>] handles are compared through the key they point to, and
    a key is never written after [make_shared<K>(k)]: a handle is modelled
    by its key. *)
Definition KComp (lhs rhs : K) : bool := key_lt lhs rhs.

(** Equivalence under the comparator, as [std::map] sees it. *)
Definition key_eqb (a b : K) : bool := negb (KComp a b) && negb (KComp b a).

(** *** [main_stack_t = std::list<std::pair<shared_ptr<K>, V>>]

    A list node has an identity of its own (its address): this is what a
    [main_stack_t::iterator] designates and what stays valid while other
    nodes are inserted or erased. *)
Record node := Node { nid : nat; nkey : K; nval : V }.
Definition main_stack_t := list node.

(** The address of a newly allocated node differs from every live one. *)
Definition fresh_id (ms : main_stack_t) : nat :=
  foldr (λ n acc, Nat.max (S (nid n)) acc) 0 ms.

Definition push_front (k : K) (v : V) (ms : main_stack_t) : main_stack_t :=
  Node (fresh_id ms) k v :: ms.

Definition pop_front (ms : main_stack_t) : option main_stack_t :=
  match ms with [] => None | _ :: r => Some r end.

(** [main_stack->begin()]. *)
Definition begin (ms : main_stack_t) : option node := head ms.

Fixpoint find_node (it : nat) (ms : main_stack_t) : option node :=
  match ms with
  | [] => None
  | n :: r => if Nat.eqb (nid n) it then Some n else find_node it r
  end.

(** [main_stack->erase(it)]. *)
Fixpoint list_erase (it : nat) (ms : main_stack_t) : main_stack_t :=
  match ms with
  | [] => []
  | n :: r => if Nat.eqb (nid n) it then r else n :: list_erase it r
  end.

(** Assignment through a [V&] that refers into the node [it]. *)
Fixpoint list_assign (it : nat) (v : V) (ms : main_stack_t) : main_stack_t :=
  match ms with
  | [] => []
  | n :: r => if Nat.eqb (nid n) it then Node (nid n) (nkey n) v :: r
              else n :: list_assign it v r
  end.

(** *** [key_stack_t = std::stack<main_stack_t::iterator>], top first *)
Definition key_stack_t := list nat.

(** *** [stacks_map_t = std::map<shared_ptr<K>, key_stack_t, KComp>]

    The map is its sequence of entries in iteration order.  All accesses go
    through the comparator only. *)
Definition stacks_map_t := list (K * key_stack_t).

(** [stacks_map->find(k)]: [None] is [end()]. *)
Fixpoint map_find (k : K) (sm : stacks_map_t) : option (K * key_stack_t) :=
  match sm with
  | [] => None
  | (k', st) :: r =>
      if KComp k' k then map_find k r
      else if KComp k k' then None
      else Some (k', st)
  end.

(** [stacks_map->insert({k, {}})]: no effect when an equivalent key is
    there. *)
Fixpoint map_insert (k : K) (sm : stacks_map_t) : stacks_map_t :=
  match sm with
  | [] => [(k, [])]
  | (k', st) :: r =>
      if KComp k' k then (k', st) :: map_insert k r
      else if KComp k k' then (k, []) :: (k', st) :: r
      else (k', st) :: r
  end.

(** [stacks_map->erase(it)], [it] designating the entry of key [k]. *)
Fixpoint map_erase (k : K) (sm : stacks_map_t) : stacks_map_t :=
  match sm with
  | [] => []
  | (k', st) :: r =>
      if KComp k' k then (k', st) :: map_erase k r
      else if KComp k k' then (k', st) :: r
      else r
  end.

(** Writing [it->second] for the entry of key [k]. *)
Fixpoint map_set (k : K) (st : key_stack_t) (sm : stacks_map_t) : stacks_map_t :=
  match sm with
  | [] => []
  | (k', st') :: r =>
      if KComp k' k then (k', st') :: map_set k st r
      else if KComp k k' then (k', st') :: r
      else (k', st) :: r
  end.

End Containers.

Arguments node : clear implicits.
Arguments main_stack_t : clear implicits.
Arguments stacks_map_t : clear implicits.

(** ** Outcomes of a call

    [Throw] is a C++ exception leaving the call; [Undefined] is undefined
    behaviour (a null or dangling handle dereferenced, an [end()] iterator
    dereferenced, [pop] on an empty container); [OutOfFuel] is the recursion
    budget of the embedding running out. *)

Inductive exn :=
  | bad_alloc
  | invalid_argument (what : string).

Inductive outcome (A : Type) :=
  | Ret (a : A)
  | Throw (e : exn)
  | Undefined
  | OutOfFuel.
Arguments Ret {A} a.
Arguments Throw {A} e.
Arguments Undefined {A}.
Arguments OutOfFuel {A}.

(** How a call on another object ended: normally, or by an exception that
    the caller sees. *)
Inductive completion (A : Type) := Normal (a : A) | Thrown (e : exn).
Arguments Normal {A} a.
Arguments Thrown {A} e.

Definition loc := positive.

Section Stack.
Context {K V : Type} `{KeyOrder K}.

(** *** The heap of [shared_ptr]-managed objects

    A cell is the control block ([refs] is what [use_count()] returns)
    together with the managed object. *)
Inductive obj :=
  | OList (ms : main_stack_t K V)
  | OMap (sm : stacks_map_t K).
Record cell := Cell { refs : nat; payload : obj }.

(** [faults] is the schedule of injected failures: every step that may
    allocate (or copy a key or a value) consumes one entry, and throws
    [std::bad_alloc] when the entry is [true].  The empty schedule injects
    nothing. *)
Record world := World { heap : gmap loc cell; faults : list bool }.

(** The data members of [stack<K, V>]; [None] is a null [shared_ptr]. *)
Record stack := Stack {
  main_stack : option loc;
  stacks_map : option loc;
  shareable : bool
}.

(** A member function runs on [this] and the heap. *)
Record config := Config { this : stack; mem : world }.
Definition M (A : Type) : Type := config → outcome A * config.

Definition ret {A} (a : A) : M A := λ c, (Ret a, c).
Definition bind {A B} (m : M A) (f : A → M B) : M B := λ c,
  match m c with
  | (Ret a, c') => f a c'
  | (Throw e, c') => (Throw e, c')
  | (Undefined, c') => (Undefined, c')
  | (OutOfFuel, c') => (OutOfFuel, c')
  end.
Definition throw {A} (e : exn) : M A := λ c, (Throw e, c).
Definition undefined {A} : M A := λ c, (Undefined, c).
Definition out_of_fuel {A} : M A := λ c, (OutOfFuel, c).

Notation "'let*' x := m 'in' f" := (bind m (λ x, f))
  (at level 10, x name, m at level 100, f at level 200, only parsing).
Notation "m >> f" := (bind m (λ _, f))
  (at level 100, f at level 200, right associativity, only parsing).

(** Leaving a scope runs the destructor of its guard; [roll_back] tells
    whether the guard is still armed, which is the case exactly when the
    scope is left by an exception (each [drop_roll_back()] is the last
    thing its scope does). *)
Definition scope_exit {A} (body : M A) (dtor : bool → M unit) : M A := λ c,
  match body c with
  | (Ret a, c') =>
      match dtor false c' with
      | (Ret _, c'') => (Ret a, c'')
      | (Throw e, c'') => (Throw e, c'')
      | (Undefined, c'') => (Undefined, c'')
      | (OutOfFuel, c'') => (OutOfFuel, c'')
      end
  | (Throw e, c') =>
      match dtor true c' with
      | (Ret _, c'') => (Throw e, c'')
      | (Throw e', c'') => (Undefined, c'')
      | (Undefined, c'') => (Undefined, c'')
      | (OutOfFuel, c'') => (OutOfFuel, c'')
      end
  | (Undefined, c') => (Undefined, c')
  | (OutOfFuel, c') => (OutOfFuel, c')
  end.

(** Cleanup that only runs when the scope is left by an exception. *)
Definition unwind {A} (body : M A) (cleanup : M unit) : M A :=
  scope_exit body (λ thrown, if thrown then cleanup else ret tt).

Definition get_this : M stack := λ c, (Ret (this c), c).
Definition set_this (s : stack) : M unit := λ c, (Ret tt, Config s (mem c)).

Definition get_cell (l : loc) : M cell := λ c,
  match heap (mem c) !! l with
  | Some x => (Ret x, c)
  | None => (Undefined, c)
  end.
Definition set_cell (l : loc) (x : cell) : M unit := λ c,
  (Ret tt, Config (this c) (World (<[l := x]> (heap (mem c))) (faults (mem c)))).
Definition free_cell (l : loc) : M unit := λ c,
  (Ret tt, Config (this c) (World (delete l (heap (mem c))) (faults (mem c)))).

(** A step that may throw [std::bad_alloc]. *)
Definition alloc_point : M unit := λ c,
  match faults (mem c) with
  | true :: fs => (Throw bad_alloc, Config (this c) (World (heap (mem c)) fs))
  | false :: fs => (Ret tt, Config (this c) (World (heap (mem c)) fs))
  | [] => (Ret tt, c)
  end.

(** *** [std::shared_ptr] *)

Definition use_count (p : option loc) : M nat :=
  match p with
  | None => ret 0
  | Some l => let* x := get_cell l in ret (refs x)
  end.

(** Copy construction of a [shared_ptr]. *)
Definition sp_acquire (p : option loc) : M unit :=
  match p with
  | None => ret tt
  | Some l => let* x := get_cell l in set_cell l (Cell (S (refs x)) (payload x))
  end.

(** Destruction of a [shared_ptr]; the last owner deletes the object. *)
Definition sp_release (p : option loc) : M unit :=
  match p with
  | None => ret tt
  | Some l =>
      let* x := get_cell l in
      match refs x with
      | 0 => undefined
      | 1 => free_cell l
      | S n => set_cell l (Cell n (payload x))
      end
  end.

Definition make_shared (o : obj) : M loc :=
  alloc_point >>
  λ c, let l := fresh (dom (heap (mem c))) in
       (Ret l, Config (this c)
                 (World (<[l := Cell 1 o]> (heap (mem c))) (faults (mem c)))).

Definition deref_list (p : option loc) : M (main_stack_t K V) :=
  match p with
  | None => undefined
  | Some l =>
      let* x := get_cell l in
      match payload x with OList ms => ret ms | OMap _ => undefined end
  end.

Definition deref_map (p : option loc) : M (stacks_map_t K) :=
  match p with
  | None => undefined
  | Some l =>
      let* x := get_cell l in
      match payload x with OMap sm => ret sm | OList _ => undefined end
  end.

(** Writing the managed object in place. *)
Definition store (p : option loc) (o : obj) : M unit :=
  match p with
  | None => undefined
  | Some l => let* x := get_cell l in set_cell l (Cell (refs x) o)
  end.

(** *** Assignments to the data members of [this] *)

Definition set_main_stack (p : option loc) : M unit :=
  let* s := get_this in set_this (Stack p (stacks_map s) (shareable s)).
Definition set_stacks_map (p : option loc) : M unit :=
  let* s := get_this in set_this (Stack (main_stack s) p (shareable s)).
Definition set_shareable (b : bool) : M unit :=
  let* s := get_this in set_this (Stack (main_stack s) (stacks_map s) b).

(** [main_stack = p] for an lvalue [p] (copy assignment). *)
Definition assign_main_stack (p : option loc) : M unit :=
  sp_acquire p >> let* s := get_this in set_main_stack p >> sp_release (main_stack s).
Definition assign_stacks_map (p : option loc) : M unit :=
  sp_acquire p >> let* s := get_this in set_stacks_map p >> sp_release (stacks_map s).

(** [main_stack = std::make_shared<main_stack_t>()] (move assignment of the
    temporary). *)
Definition reset_main_stack_fresh : M unit :=
  let* l := make_shared (OList []) in
  let* s := get_this in set_main_stack (Some l) >> sp_release (main_stack s).
Definition reset_stacks_map_fresh : M unit :=
  let* l := make_shared (OMap []) in
  let* s := get_this in set_stacks_map (Some l) >> sp_release (stacks_map s).

(** Destruction of the members of a [stack] object, last declared first. *)
Definition destroy_members (s : stack) : M unit :=
  sp_release (stacks_map s) >> sp_release (main_stack s).

(** Running a member function on another object [o] than [this]; the
    object comes back with the result, also when the call throws, for the
    caller to destroy it. *)
Definition call_on {A} (o : stack) (m : M A) : M (completion A * stack) := λ c,
  match m (Config o (mem c)) with
  | (Ret a, c') => (Ret (Normal a, this c'), Config (this c) (mem c'))
  | (Throw e, c') => (Ret (Thrown e, this c'), Config (this c) (mem c'))
  | (Undefined, c') => (Undefined, Config (this c) (mem c'))
  | (OutOfFuel, c') => (OutOfFuel, Config (this c) (mem c'))
  end.

(** [for (x : l) body(x)]. *)
Fixpoint for_each {A} (l : list A) (body : A → M unit) : M unit :=
  match l with
  | [] => ret tt
  | x :: r => body x >> for_each r body
  end.

(** *** The scope guards *)

Definition empty_stack_error : exn := invalid_argument "Error: Empty stack".
Definition empty_front_error : exn := invalid_argument "Error: empty stack".
Definition pop_key_error : exn :=
  invalid_argument "Error: Element with key k does not exist".
Definition front_key_error : exn :=
  invalid_argument "Error: stack does not contain given key".

(** [void swap(stack& other)]: the two objects exchange their members. *)
Definition swap (other : stack) : M stack :=
  let* s := get_this in set_this other >> ret s.

(** [void copy(const stack& other)]: replays the entries of [other], oldest
    first.  [other] is never the object being filled, so its list does not
    change while it is traversed. *)
Definition copy (push : K → V → M unit) (other : stack) : M unit :=
  let* c := use_count (main_stack other) in
  if Nat.eqb c 0 then ret tt
  else
    let* ms := deref_list (main_stack other) in
    for_each (rev ms) (λ n, push (nkey n) (nval n)).

(** [stack()]: the members are value-initialised, then both objects are
    allocated.  When the body of a constructor throws, the members are
    destroyed. *)
Definition stack_default : M unit :=
  set_this (Stack None None true) >>
  unwind (reset_main_stack_fresh >> reset_stacks_map_fresh)
         (let* s := get_this in destroy_members s).

(** The body of [about_to_modify]'s constructor. *)
Definition about_to_modify_body (push : K → V → M unit)
    (mark_shareable : bool) : M unit :=
  let* s := get_this in
  let* c := use_count (main_stack s) in
  (if Nat.eqb c 0 then
     reset_main_stack_fresh >> reset_stacks_map_fresh
   else if Nat.ltb 2 c then
     (* stack<K, V> new_stack; *)
     let* r := call_on (Stack None None true) stack_default in
     match r with
     | (Thrown e, _) => throw e
     | (Normal _, new_stack) =>
         (* new_stack.copy(s); *)
         let* r := call_on new_stack (copy push s) in
         match r with
         | (Thrown e, new_stack) => destroy_members new_stack >> throw e
         | (Normal _, new_stack) =>
             (* s.swap(new_stack); then new_stack goes out of scope *)
             let* new_stack := swap new_stack in
             destroy_members new_stack
         end
     end
   else ret tt) >>
  set_shareable mark_shareable.

(** [about_to_modify make_stack_copy(this, mark_shareable); body;
    make_stack_copy.drop_roll_back();] with the destructor at the end of
    the scope.  The members [old_main_stack] and [old_stacks_map] own a
    reference of their own from construction to destruction. *)
Definition about_to_modify {A} (push : K → V → M unit)
    (mark_shareable : bool) (body : M A) : M A :=
  let* s := get_this in
  let old_main_stack := main_stack s in
  let old_stacks_map := stacks_map s in
  let old_shareable := shareable s in
  let members_dtor := sp_release old_stacks_map >> sp_release old_main_stack in
  sp_acquire old_main_stack >>
  sp_acquire old_stacks_map >>
  unwind (about_to_modify_body push mark_shareable) members_dtor >>
  scope_exit body (λ roll_back,
    (if roll_back then
       assign_main_stack old_main_stack >>
       assign_stacks_map old_stacks_map >>
       set_shareable old_shareable
     else ret tt) >>
    members_dtor).

(** [main_stack_guard push_main_stack(main_stack, k, v); body;
    push_main_stack.drop_roll_back();] *)
Definition main_stack_guard {A} (k : K) (v : V) (body : M A) : M A :=
  let* s := get_this in
  let* ms := deref_list (main_stack s) in
  alloc_point >>
  store (main_stack s) (OList (push_front k v ms)) >>
  scope_exit body (λ roll_back,
    if roll_back then
      let* s := get_this in
      let* ms := deref_list (main_stack s) in
      match pop_front ms with
      | Some ms' => store (main_stack s) (OList ms')
      | None => undefined
      end
    else ret tt).

(** [stackmap_key_guard push_new_key(stacks_map, k); body(get_iter());
    push_new_key.drop_roll_back();]  The iterator is the key of the entry. *)
Definition stackmap_key_guard {A} (k : K) (body : K → M A) : M A :=
  let* s := get_this in
  let* sm := deref_map (stacks_map s) in
  alloc_point >>
  store (stacks_map s) (OMap (map_insert k sm)) >>
  let it := match map_find k (map_insert k sm) with
            | Some (k', _) => k'
            | None => k
            end in
  scope_exit (body it) (λ roll_back,
    if roll_back then
      let* s := get_this in
      let* sm := deref_map (stacks_map s) in
      store (stacks_map s) (OMap (map_erase it sm))
    else ret tt).

(** [stackmap_push_guard push_value(it->second, v); body;
    push_value.drop_roll_back();] where [it] is an iterator of
    [stacks_map]. *)
Definition stackmap_push_guard {A} (it : K) (v : nat) (body : M A) : M A :=
  let* s := get_this in
  let* sm := deref_map (stacks_map s) in
  match map_find it sm with
  | None => undefined
  | Some (_, st) =>
      alloc_point >>
      store (stacks_map s) (OMap (map_set it (v :: st) sm)) >>
      scope_exit body (λ roll_back,
        if roll_back then
          let* s := get_this in
          let* sm := deref_map (stacks_map s) in
          match map_find it sm with
          | Some (_, _ :: st') => store (stacks_map s) (OMap (map_set it st' sm))
          | _ => undefined
          end
        else ret tt)
  end.

(** *** The member functions *)

(** What [push] does inside the scope of its [about_to_modify]. *)
Definition push_body (k : K) (v : V) : M unit :=
  alloc_point >>                             (* make_shared<K>(k) *)
  let* s := get_this in
  let* sm := deref_map (stacks_map s) in
  let key_in_stack := map_find k sm in
  let temp_key := match key_in_stack with
                  | Some (k', _) => k'
                  | None => k
                  end in
  main_stack_guard temp_key v
    (let* s := get_this in
     let* ms := deref_list (main_stack s) in
     match begin ms with
     | None => undefined
     | Some top =>
         let it := nid top in
         match key_in_stack with
         | None =>
             stackmap_key_guard temp_key (λ new_key,
               stackmap_push_guard new_key it (ret tt))
         | Some (k', _) => stackmap_push_guard k' it (ret tt)
         end
     end).

(** [void push(const K& k, const V& v)].  [push] and [copy] call each
    other through [about_to_modify]; the fuel bounds the nesting. *)
Fixpoint push_fuel (fuel : nat) (k : K) (v : V) : M unit :=
  match fuel with
  | 0 => out_of_fuel
  | S fuel => about_to_modify (push_fuel fuel) true (push_body k v)
  end.

(** A [push] on freshly allocated storage never copies, and the copy made
    by [about_to_modify] is filled by such pushes: two levels are all the
    nesting there is ([push_spec] rules [OutOfFuel] out). *)
Definition push : K → V → M unit := push_fuel 2.

(** [throw std::invalid_argument(what)]: the exception object takes a copy
    of the message, which is an allocation. *)
Definition throw_invalid_argument {A} (e : exn) : M A :=
  alloc_point >> throw e.

(** [if (!main_stack.use_count() || main_stack->empty()) throw ...] *)
Definition check_not_empty (e : exn) : M unit :=
  let* s := get_this in
  let* c := use_count (main_stack s) in
  if Nat.eqb c 0 then throw_invalid_argument e
  else
    let* ms := deref_list (main_stack s) in
    match ms with [] => throw_invalid_argument e | _ :: _ => ret tt end.

Definition pop_body : M unit :=
  let* s := get_this in
  let* ms := deref_list (main_stack s) in
  match begin ms with
  | None => undefined
  | Some main_stack_top =>
      let* sm := deref_map (stacks_map s) in
      match map_find (nkey main_stack_top) sm with
      | None => undefined
      | Some (_, []) => undefined
      | Some (k_stack, _ :: st) =>
          store (stacks_map s) (OMap (map_set k_stack st sm)) >>
          (if Nat.eqb (length st) 0 then
             let* sm := deref_map (stacks_map s) in
             store (stacks_map s) (OMap (map_erase k_stack sm))
           else ret tt) >>
          let* ms := deref_list (main_stack s) in
          match pop_front ms with
          | Some ms' => store (main_stack s) (OList ms')
          | None => undefined
          end
      end
  end.

(** [void pop()] *)
Definition pop : M unit :=
  check_not_empty empty_stack_error >>
  about_to_modify push true pop_body.

Definition pop_key_body (k : K) : M unit :=
  alloc_point >>                             (* make_shared<K>(k) *)
  let* s := get_this in
  let* sm := deref_map (stacks_map s) in
  match map_find k sm with
  | None => throw_invalid_argument pop_key_error
  | Some (key_in_stack, st) =>
      if Nat.eqb (length st) 0 then throw_invalid_argument pop_key_error
      else
        match st with
        | [] => undefined
        | top :: st' =>
            let* ms := deref_list (main_stack s) in
            match find_node top ms with
            | None => undefined
            | Some _ =>
                store (main_stack s) (OList (list_erase top ms)) >>
                store (stacks_map s) (OMap (map_set key_in_stack st' sm)) >>
                if Nat.eqb (length st') 0 then
                  let* sm := deref_map (stacks_map s) in
                  store (stacks_map s) (OMap (map_erase key_in_stack sm))
                else ret tt
            end
        end
  end.

(** [void pop(const K& k)] *)
Definition pop_key (k : K) : M unit :=
  about_to_modify push true (pop_key_body k).

(** A [V&] into a list node: the list object and the node. *)
Definition vref : Type := loc * nat.

(** [std::pair<const K&, const V&> front() const] *)
Definition front_const : M (K * V) :=
  check_not_empty empty_front_error >>
  let* s := get_this in
  let* ms := deref_list (main_stack s) in
  match ms with
  | [] => undefined
  | n :: _ => ret (nkey n, nval n)
  end.

Definition front_body : M (K * vref) :=
  let* s := get_this in
  let* ms := deref_list (main_stack s) in
  match main_stack s, ms with
  | Some l, n :: _ => ret (nkey n, (l, nid n))
  | _, _ => undefined
  end.

(** [std::pair<const K&, V&> front()] *)
Definition front : M (K * vref) :=
  check_not_empty empty_front_error >>
  about_to_modify push false front_body.

Definition front_key_body (k : K) : M vref :=
  alloc_point >>                             (* make_shared<K>(k) *)
  let* s := get_this in
  let* sm := deref_map (stacks_map s) in
  match map_find k sm with
  | None => throw_invalid_argument front_key_error
  | Some (_, st) =>
      if Nat.eqb (length st) 0 then throw_invalid_argument front_key_error
      else
        match main_stack s, st with
        | Some l, top :: _ => ret (l, top)
        | _, _ => undefined
        end
  end.

(** [V& front(const K& k)] *)
Definition front_key (k : K) : M vref :=
  about_to_modify push false (front_key_body k).

(** Reading and writing through a [V&]. *)
Definition load (r : vref) : M V :=
  let* ms := deref_list (Some r.1) in
  match find_node r.2 ms with
  | Some n => ret (nval n)
  | None => undefined
  end.

Definition assign (r : vref) (v : V) : M unit :=
  let* ms := deref_list (Some r.1) in
  match find_node r.2 ms with
  | Some _ => store (Some r.1) (OList (list_assign r.2 v ms))
  | None => undefined
  end.

(** [const V& front(const K& k) const] *)
Definition front_key_const (k : K) : M V :=
  let* s := get_this in
  let* c := use_count (main_stack s) in
  if Nat.eqb c 0 then throw_invalid_argument front_key_error
  else
    alloc_point >>                           (* make_shared<K>(k) *)
    let* sm := deref_map (stacks_map s) in
    match map_find k sm with
    | None => throw_invalid_argument front_key_error
    | Some (_, st) =>
        if Nat.eqb (length st) 0 then throw_invalid_argument front_key_error
        else
          match main_stack s, st with
          | Some l, top :: _ => load (l, top)
          | _, _ => undefined
          end
    end.

(** [size_t size() const noexcept] *)
Definition size : M nat :=
  let* s := get_this in
  let* c := use_count (main_stack s) in
  if Nat.eqb c 0 then ret 0
  else let* ms := deref_list (main_stack s) in ret (length ms).

(** [size_t count(const K& k) const] *)
Definition count (k : K) : M nat :=
  let* s := get_this in
  let* c := use_count (main_stack s) in
  if Nat.eqb c 0 then ret 0
  else
    alloc_point >>                           (* make_shared<K>(k) *)
    let* sm := deref_map (stacks_map s) in
    match map_find k sm with
    | None => ret 0
    | Some (_, st) => ret (length st)
    end.

(** [void clear() noexcept] *)
Definition clear : M unit :=
  let* s := get_this in
  sp_release (main_stack s) >> set_main_stack None >>
  sp_release (stacks_map s) >> set_stacks_map None >>
  set_shareable true.

(** [stack(const stack& other)], run on the object under construction. *)
Definition stack_copy (other : stack) : M unit :=
  set_this (Stack None None true) >>
  unwind
    (if shareable other then
       assign_main_stack (main_stack other) >>
       assign_stacks_map (stacks_map other)
     else
       reset_main_stack_fresh >> reset_stacks_map_fresh >>
       copy push other)
    (let* s := get_this in destroy_members s).

(** [s.front().second = v;] and [s.front(k) = v;]: a write through the
    reference that the call has just returned. *)
Definition set_front (v : V) : M unit :=
  let* r := front in assign r.2 v.
Definition set_front_key (k : K) (v : V) : M unit :=
  let* r := front_key k in assign r v.

(** The calls that change a stack. *)
Inductive mutation :=
  | MPush (k : K) (v : V)
  | MPop
  | MPopKey (k : K)
  | MClear
  | MFront
  | MFrontKey (k : K)
  | MSetFront (v : V)
  | MSetFrontKey (k : K) (v : V).

Definition run_mutation (m : mutation) : M unit :=
  match m with
  | MPush k v => push k v
  | MPop => pop
  | MPopKey k => pop_key k
  | MClear => clear
  | MFront => front >> ret tt
  | MFrontKey k => front_key k >> ret tt
  | MSetFront v => set_front v
  | MSetFrontKey k v => set_front_key k v
  end.

(** *** [const_iterator]

    A [stacks_map_t::const_iterator] designates an entry of one map object
    (by its key) or the position past the last entry; a value-initialised
    iterator designates nothing. *)
Inductive map_pos := AtKey (k : K) | AtEnd.
Record const_iterator := ConstIterator { map_it : option (loc * map_pos) }.

Definition map_begin (sm : stacks_map_t K) : map_pos :=
  match sm with [] => AtEnd | (k, _) :: _ => AtKey k end.

(** The position after the entry of key [k]; [None] when there is no such
    entry. *)
Fixpoint map_next (k : K) (sm : stacks_map_t K) : option map_pos :=
  match sm with
  | [] => None
  | (k', _) :: r =>
      if KComp k' k then map_next k r
      else if KComp k k' then None
      else Some (map_begin r)
  end.

Definition cbegin : M const_iterator :=
  let* s := get_this in
  let* c := use_count (stacks_map s) in
  if Nat.eqb c 0 then ret (ConstIterator None)
  else
    let* sm := deref_map (stacks_map s) in
    match stacks_map s with
    | Some l => ret (ConstIterator (Some (l, map_begin sm)))
    | None => undefined
    end.

Definition cend : M const_iterator :=
  let* s := get_this in
  let* c := use_count (stacks_map s) in
  if Nat.eqb c 0 then ret (ConstIterator None)
  else
    match stacks_map s with
    | Some l => ret (ConstIterator (Some (l, AtEnd)))
    | None => undefined
    end.

(** [operator*] *)
Definition iter_deref (it : const_iterator) : M K :=
  match map_it it with
  | Some (_, AtKey k) => ret k
  | _ => undefined
  end.

(** [operator++] *)
Definition iter_incr (it : const_iterator) : M const_iterator :=
  match map_it it with
  | Some (l, AtKey k) =>
      let* sm := deref_map (Some l) in
      match map_next k sm with
      | Some p => ret (ConstIterator (Some (l, p)))
      | None => undefined
      end
  | _ => undefined
  end.

(** [operator==] *)
Definition iter_eqb (a b : const_iterator) : bool :=
  match map_it a, map_it b with
  | None, None => true
  | Some (l, p), Some (l', q) =>
      Pos.eqb l l' &&
      match p, q with
      | AtEnd, AtEnd => true
      | AtKey k, AtKey k' => key_eqb k k'
      | _, _ => false
      end
  | _, _ => false
  end.

(** [for (; it != last; ++it) out.push_back( *it );] *)
Fixpoint traverse (fuel : nat) (it last : const_iterator) : M (list K) :=
  match fuel with
  | 0 => out_of_fuel
  | S fuel =>
      if iter_eqb it last then ret []
      else
        let* k := iter_deref it in
        let* it' := iter_incr it in
        let* ks := traverse fuel it' last in
        ret (k :: ks)
  end.

(** Key iteration from [cbegin()] to [cend()].  There are no more keys
    than entries, so [size() + 1] comparisons with [cend()] are enough. *)
Definition keys : M (list K) :=
  let* first := cbegin in
  let* last := cend in
  let* n := size in
  traverse (S n) first last.

(** What a [const] member function returns in a state, when nothing is
    made to fail. *)
Definition observe {A} (m : M A) (c : config) : outcome A :=
  (m (Config (this c) (World (heap (mem c)) []))).1.

End Stack.

Arguments obj : clear implicits.
Arguments cell : clear implicits.
Arguments world : clear implicits.
Arguments config : clear implicits.
Arguments M : clear implicits.
Arguments map_pos : clear implicits.
Arguments mutation : clear implicits.
Arguments const_iterator : clear implicits.


(** ** What the two structures hold, and how they are tied together *)

Section Invariants.
Context {K V : Type} `{KeyOrder K}.

(** The entries of the main sequence, as (key, value) pairs, newest
    first. *)
Definition entries (ms : main_stack_t K V) : list (K * V) :=
  map (λ n, (nkey n, nval n)) ms.

Definition ids (ms : main_stack_t K V) : list nat := map nid ms.

(** The nodes of key [k], in the order of the main sequence. *)
Definition with_key (k : K) (ms : main_stack_t K V) : main_stack_t K V :=
  List.filter (λ n, key_eqb (nkey n) k) ms.

Definition above (k : K) (ks : list K) : Prop :=
  Forall (λ k', KComp k k' = true) ks.

(** The map is iterated in strictly ascending order of its keys. *)
Definition keys_sorted (sm : stacks_map_t K) : Prop :=
  StronglySorted (λ a b, KComp a b = true) (map fst sm).

(** The stack found for a key lists the nodes of that key, newest first;
    a key without nodes has no entry. *)
Definition index_ok (ms : main_stack_t K V) (sm : stacks_map_t K) : Prop :=
  ∀ k, map_find k sm =
       match ids (with_key k ms) with
       | [] => None
       | st => Some (k, st)
       end.

Definition storage_inv (ms : main_stack_t K V) (sm : stacks_map_t K) : Prop :=
  NoDup (ids ms) ∧ keys_sorted sm ∧ index_ok ms sm.

(** The cross-structure invariant in the words of the specification. *)
Definition cross_structure_inv (ms : main_stack_t K V) (sm : stacks_map_t K) : Prop :=
  concat (map snd sm) ≡ₚ ids ms ∧
  (∀ k, k ∈ map fst sm ↔ ∃ n, n ∈ ms ∧ nkey n = k) ∧
  (∀ k st, (k, st) ∈ sm →
     length st = length (with_key k ms) ∧ st = ids (with_key k ms)).

(** What the member functions do to the two structures when every step
    succeeds. *)
Definition pure_push (k : K) (v : V)
    (p : main_stack_t K V * stacks_map_t K) : main_stack_t K V * stacks_map_t K :=
  (push_front k v p.1,
   match map_find k p.2 with
   | None => map_set k [fresh_id p.1] (map_insert k p.2)
   | Some (_, st) => map_set k (fresh_id p.1 :: st) p.2
   end).

Definition drop_top (k : K) (st : key_stack_t) (sm : stacks_map_t K) : stacks_map_t K :=
  if Nat.eqb (length st) 0 then map_erase k (map_set k st sm) else map_set k st sm.

(** The storage a deep copy builds: the entries replayed oldest first. *)
Definition replay (ms : main_stack_t K V) : main_stack_t K V * stacks_map_t K :=
  foldr (λ n p, pure_push (nkey n) (nval n) p) ([], []) ms.

(** The first entry of key [k] removed. *)
Fixpoint remove_first (k : K) (es : list (K * V)) : list (K * V) :=
  match es with
  | [] => []
  | e :: r => if key_eqb e.1 k then r else e :: remove_first k r
  end.

Definition values_of (k : K) (es : list (K * V)) : list V :=
  map snd (List.filter (λ e, key_eqb e.1 k) es).

Definition others_of (k : K) (es : list (K * V)) : list (K * V) :=
  List.filter (λ e, negb (key_eqb e.1 k)) es.

End Invariants.

(** ** Facts about the containers *)

Section ContainerFacts.
Context {K V : Type} `{KeyOrder K}.
Implicit Types (k : K) (sm : stacks_map_t K) (ms : main_stack_t K V).

Lemma KComp_irrefl k : KComp k k = false.
Proof. apply key_lt_irrefl. Qed.

Lemma KComp_trans a b c : KComp a b = true → KComp b c = true → KComp a c = true.
Proof. apply key_lt_trans. Qed.

Lemma KComp_asym a b : KComp a b = true → KComp b a = false.
Proof.
  intros Hab. destruct (KComp b a) eqn:Hba; [|done].
  by rewrite <- (KComp_irrefl a), (KComp_trans a b a).
Qed.

Lemma key_trichotomy a b :
  (KComp a b = true ∧ KComp b a = false) ∨ a = b ∨
  (KComp a b = false ∧ KComp b a = true).
Proof.
  destruct (KComp a b) eqn:Hab.
  - left. split; [done|]. by apply KComp_asym.
  - destruct (KComp b a) eqn:Hba; [by right; right|].
    right; left. by apply key_lt_total.
Qed.

Lemma key_eqb_eq a b : key_eqb a b = true ↔ a = b.
Proof.
  unfold key_eqb. split.
  - intros [Hab Hba]%andb_true_iff.
    apply negb_true_iff in Hab, Hba. by apply key_lt_total.
  - intros ->. by rewrite KComp_irrefl.
Qed.

Lemma key_eqb_refl a : key_eqb a a = true.
Proof. by apply key_eqb_eq. Qed.

Lemma key_eqb_neq a b : key_eqb a b = false ↔ a ≠ b.
Proof.
  rewrite <- key_eqb_eq. destruct (key_eqb a b); split; congruence.
Qed.

Lemma key_eqb_sym a b : key_eqb a b = key_eqb b a.
Proof. unfold key_eqb. apply andb_comm. Qed.

#[local] Instance key_eq_dec : EqDecision K.
Proof.
  intros a b. destruct (key_eqb a b) eqn:E.
  - left. by apply key_eqb_eq.
  - right. by apply key_eqb_neq.
Defined.

End ContainerFacts.

(** Case analysis on how two keys compare, rewriting the comparisons. *)
Ltac key_cases a b :=
  let E1 := fresh "Hlt" in
  let E2 := fresh "Hgt" in
  destruct (key_trichotomy a b) as [[E1 E2] | [? | [E1 E2]]];
  [ rewrite ?E1, ?E2
  | subst; rewrite ?KComp_irrefl
  | rewrite ?E1, ?E2 ].

(** Closes a goal whose hypotheses contradict the laws of the order. *)
Ltac order_saturate :=
  repeat match goal with
  | H1 : KComp ?a ?b = true, H2 : KComp ?b ?c = true |- _ =>
      lazymatch goal with
      | _ : KComp a c = true |- _ => fail
      | _ => pose proof (KComp_trans a b c H1 H2)
      end
  end;
  repeat match goal with
  | H1 : KComp ?a ?b = true |- _ =>
      lazymatch goal with
      | _ : KComp b a = false |- _ => fail
      | _ => pose proof (KComp_asym a b H1)
      end
  end;
  repeat match goal with
  | H1 : KComp ?a ?a = true |- _ => rewrite KComp_irrefl in H1
  end.

Ltac order := order_saturate; congruence.

Section MapFacts.
Context {K V : Type} `{KeyOrder K}.
Implicit Types (k : K) (sm : stacks_map_t K) (ms : main_stack_t K V).

Lemma keys_sorted_cons a st sm :
  keys_sorted ((a, st) :: sm) ↔ above a (map fst sm) ∧ keys_sorted sm.
Proof.
  unfold keys_sorted, above. simpl. split.
  - intros Hs. apply StronglySorted_inv in Hs. tauto.
  - intros [? ?]. by constructor.
Qed.

Lemma keys_sorted_nil : keys_sorted ([] : stacks_map_t K).
Proof. constructor. Qed.

Lemma above_trans a b ks : KComp a b = true → above b ks → above a ks.
Proof.
  intros Hab Hb. eapply Forall_impl; [exact Hb|]. simpl. intros c Hbc. order.
Qed.

Lemma above_not_in a ks : above a ks → a ∉ ks.
Proof.
  unfold above. rewrite Forall_forall. intros Ha Hin.
  specialize (Ha _ Hin). order.
Qed.

Lemma map_find_key k sm k' st : map_find k sm = Some (k', st) → k' = k.
Proof.
  induction sm as [|[a sa] r IH]; simpl; [done|].
  key_cases a k; try done. congruence.
Qed.

Lemma map_find_above k sm : above k (map fst sm) → map_find k sm = None.
Proof.
  destruct sm as [|[a sa] r]; simpl; [done|].
  intros Ha. apply Forall_cons in Ha as [Ha _]. simpl in Ha.
  by rewrite (KComp_asym _ _ Ha), Ha.
Qed.

Lemma map_set_above k st sm : above k (map fst sm) → map_set k st sm = sm.
Proof.
  destruct sm as [|[a sa] r]; simpl; [done|].
  intros Ha. apply Forall_cons in Ha as [Ha _]. simpl in Ha.
  by rewrite (KComp_asym _ _ Ha), Ha.
Qed.

Lemma map_erase_above k sm : above k (map fst sm) → map_erase k sm = sm.
Proof.
  destruct sm as [|[a sa] r]; simpl; [done|].
  intros Ha. apply Forall_cons in Ha as [Ha _]. simpl in Ha.
  by rewrite (KComp_asym _ _ Ha), Ha.
Qed.

Lemma map_insert_above k sm :
  above k (map fst sm) → map_insert k sm = (k, []) :: sm.
Proof.
  destruct sm as [|[a sa] r]; simpl; [done|].
  intros Ha. apply Forall_cons in Ha as [Ha _]. simpl in Ha.
  by rewrite (KComp_asym _ _ Ha), Ha.
Qed.

Lemma map_find_set k k' st sm :
  keys_sorted sm →
  map_find k (map_set k' st sm) =
    if key_eqb k k' then
      match map_find k sm with Some (k0, _) => Some (k0, st) | None => None end
    else map_find k sm.
Proof.
  induction sm as [|[a sa] r IH]; simpl.
  - by destruct (key_eqb k k').
  - intros [Ha Hr]%keys_sorted_cons. specialize (IH Hr).
    key_cases a k'; simpl.
    + rewrite IH. key_cases a k; try done.
      * assert (key_eqb k k' = false) as -> by (apply key_eqb_neq; intros ->; order).
        done.
      * assert (key_eqb k k' = false) as -> by (apply key_eqb_neq; intros ->; order).
        done.
    + key_cases k' k; rewrite ?key_eqb_refl; try done.
      * assert (key_eqb k k' = false) as -> by (apply key_eqb_neq; intros ->; order).
        done.
      * assert (key_eqb k k' = false) as -> by (apply key_eqb_neq; intros ->; order).
        done.
    + destruct (key_eqb k k') eqn:E; [|done].
      apply key_eqb_eq in E as ->. by rewrite Hlt, Hgt.
Qed.

Lemma map_find_insert k k' sm :
  keys_sorted sm →
  map_find k (map_insert k' sm) =
    if key_eqb k k' then
      match map_find k sm with Some e => Some e | None => Some (k', []) end
    else map_find k sm.
Proof.
  induction sm as [|[a sa] r IH]; simpl.
  - key_cases k' k; rewrite ?key_eqb_refl; try done.
    + assert (key_eqb k k' = false) as -> by (apply key_eqb_neq; intros ->; order).
      done.
    + assert (key_eqb k k' = false) as -> by (apply key_eqb_neq; intros ->; order).
      done.
  - intros [Ha Hr]%keys_sorted_cons. specialize (IH Hr).
    key_cases a k'; simpl.
    + rewrite IH. key_cases a k; try done.
      * assert (key_eqb k k' = false) as -> by (apply key_eqb_neq; intros ->; order).
        done.
      * assert (key_eqb k k' = false) as -> by (apply key_eqb_neq; intros ->; order).
        done.
    + destruct (key_eqb k k') eqn:E; [|done].
      apply key_eqb_eq in E as ->. by rewrite !KComp_irrefl.
    + key_cases k' k; rewrite ?key_eqb_refl; simpl.
      * assert (key_eqb k k' = false) as -> by (apply key_eqb_neq; intros ->; order).
        done.
      * by rewrite Hlt, Hgt.
      * assert (key_eqb k k' = false) as -> by (apply key_eqb_neq; intros ->; order).
        assert (KComp a k = false) as -> by (destruct (KComp a k) eqn:?; [order|done]).
        assert (KComp k a = true) as -> by order.
        done.
Qed.

Lemma map_find_erase k k' sm :
  keys_sorted sm →
  map_find k (map_erase k' sm) = if key_eqb k k' then None else map_find k sm.
Proof.
  induction sm as [|[a sa] r IH]; simpl.
  - by destruct (key_eqb k k').
  - intros [Ha Hr]%keys_sorted_cons. specialize (IH Hr).
    key_cases a k'; simpl.
    + rewrite IH. key_cases a k; try done.
      * assert (key_eqb k k' = false) as -> by (apply key_eqb_neq; intros ->; order).
        done.
      * assert (key_eqb k k' = false) as -> by (apply key_eqb_neq; intros ->; order).
        done.
    + destruct (key_eqb k k') eqn:E.
      * apply key_eqb_eq in E as ->. by apply map_find_above.
      * apply key_eqb_neq in E. key_cases k' k; try done.
        apply map_find_above. by eapply above_trans.
    + destruct (key_eqb k k') eqn:E; [|done].
      apply key_eqb_eq in E as ->. by rewrite Hlt, Hgt.
Qed.

Lemma map_set_keys k st sm : map fst (map_set k st sm) = map fst sm.
Proof.
  induction sm as [|[a sa] r IH]; simpl; [done|].
  destruct (KComp a k); simpl; [by rewrite IH|]. by destruct (KComp k a).
Qed.

Lemma keys_sorted_set k st sm : keys_sorted sm → keys_sorted (map_set k st sm).
Proof. unfold keys_sorted. by rewrite map_set_keys. Qed.

Lemma above_insert a k sm :
  KComp a k = true → above a (map fst sm) → above a (map fst (map_insert k sm)).
Proof.
  intros Hak. unfold above. induction sm as [|[b sb] r IH]; simpl.
  - intros _. by repeat constructor.
  - intros [Hb Hr]%Forall_cons.
    destruct (KComp b k); simpl; [apply Forall_cons; auto|].
    destruct (KComp k b); simpl; repeat (apply Forall_cons; split); auto.
Qed.

Lemma keys_sorted_insert k sm : keys_sorted sm → keys_sorted (map_insert k sm).
Proof.
  induction sm as [|[a sa] r IH]; simpl.
  - intros _. apply keys_sorted_cons. split; [constructor|apply keys_sorted_nil].
  - intros [Ha Hr]%keys_sorted_cons. key_cases a k.
    + apply keys_sorted_cons. split; [by apply above_insert|auto].
    + by apply keys_sorted_cons.
    + apply keys_sorted_cons. split; [|by apply keys_sorted_cons].
      simpl. constructor; [done|]. by eapply above_trans.
Qed.

Lemma above_erase a k sm : above a (map fst sm) → above a (map fst (map_erase k sm)).
Proof.
  unfold above. induction sm as [|[b sb] r IH]; simpl; [done|].
  intros [Hb Hr]%Forall_cons.
  destruct (KComp b k); simpl; [apply Forall_cons; auto|].
  destruct (KComp k b); simpl; [apply Forall_cons; auto|done].
Qed.

Lemma keys_sorted_erase k sm : keys_sorted sm → keys_sorted (map_erase k sm).
Proof.
  induction sm as [|[a sa] r IH]; simpl; [done|].
  intros [Ha Hr]%keys_sorted_cons.
  destruct (KComp a k).
  - apply keys_sorted_cons. split; [by apply above_erase|auto].
  - destruct (KComp k a); [by apply keys_sorted_cons|done].
Qed.

Lemma map_set_set k st st' sm : map_set k st (map_set k st' sm) = map_set k st sm.
Proof.
  induction sm as [|[a sa] r IH]; simpl; [done|].
  destruct (KComp a k) eqn:E1; simpl; [by rewrite E1, IH|].
  destruct (KComp k a) eqn:E2; simpl; by rewrite E1, E2.
Qed.

Lemma map_set_id k k' st sm : map_find k sm = Some (k', st) → map_set k st sm = sm.
Proof.
  induction sm as [|[a sa] r IH]; simpl; [done|].
  destruct (KComp a k); [intros; f_equal; auto|].
  destruct (KComp k a); [done|]. congruence.
Qed.

Lemma map_erase_insert k sm :
  map_find k sm = None → map_erase k (map_insert k sm) = sm.
Proof.
  induction sm as [|[a sa] r IH]; simpl.
  - by rewrite KComp_irrefl.
  - destruct (KComp a k) eqn:E1; simpl; [rewrite E1; intros; f_equal; auto|].
    destruct (KComp k a) eqn:E2; simpl; [|done].
    by rewrite KComp_irrefl.
Qed.

(** Membership through [map_find]. *)
Lemma map_find_elem k st sm :
  keys_sorted sm → (map_find k sm = Some (k, st) ↔ (k, st) ∈ sm).
Proof.
  induction sm as [|[a sa] r IH]; simpl.
  - intros _. split; [done|]. by intros ?%elem_of_nil.
  - intros [Ha Hr]%keys_sorted_cons. specialize (IH Hr).
    rewrite elem_of_cons. key_cases a k.
    + rewrite IH. split; [auto|]. intros [[= -> ->]|?]; [order|done].
    + split; [intros [= ->]; by left|].
      intros [[= ->]|Hin]; [done|].
      apply above_not_in in Ha. destruct Ha.
      apply list_elem_of_fmap. by exists (k, st).
    + split; [done|]. intros [[= -> ->]|Hin]; [order|].
      assert (above k (map fst r)) as Hk by (by eapply above_trans).
      apply above_not_in in Hk. destruct Hk.
      apply list_elem_of_fmap. by exists (k, st).
Qed.

Lemma map_find_is_Some k sm :
  keys_sorted sm → (is_Some (map_find k sm) ↔ k ∈ map fst sm).
Proof.
  intros Hs. split.
  - intros [[k' st] Hf]. pose proof (map_find_key _ _ _ _ Hf) as ->.
    apply map_find_elem in Hf; [|done].
    apply list_elem_of_fmap. by exists (k, st).
  - intros [[k' st] [-> Hin]]%list_elem_of_fmap. simpl.
    exists (k', st). by apply map_find_elem.
Qed.

(** Two sorted maps that answer every [find] alike are the same map. *)
Lemma sorted_keys_ext (l1 l2 : list K) :
  StronglySorted (λ a b, KComp a b = true) l1 →
  StronglySorted (λ a b, KComp a b = true) l2 →
  (∀ k, k ∈ l1 ↔ k ∈ l2) → l1 = l2.
Proof.
  revert l2. induction l1 as [|a l1 IH]; intros [|b l2] H1 H2 Heq.
  - done.
  - exfalso. eapply not_elem_of_nil, (proj2 (Heq b)). by left.
  - exfalso. eapply not_elem_of_nil, (proj1 (Heq a)). by left.
  - apply StronglySorted_inv in H1 as [H1 Ha], H2 as [H2 Hb].
    assert (a = b) as ->.
    { pose proof (proj1 (Heq a) ltac:(by left)) as Hin1.
      pose proof (proj2 (Heq b) ltac:(by left)) as Hin2.
      apply elem_of_cons in Hin1 as [?|Hin1]; [done|].
      apply elem_of_cons in Hin2 as [?|Hin2]; [done|].
      rewrite Forall_forall in Ha, Hb.
      specialize (Ha _ Hin2). specialize (Hb _ Hin1). order. }
    f_equal. apply IH; [done..|].
    intros k. split; intros Hin.
    + pose proof (proj1 (Heq k) ltac:(by right)) as Hk.
      apply elem_of_cons in Hk as [->|?]; [|done].
      rewrite Forall_forall in Ha. specialize (Ha _ Hin). order.
    + pose proof (proj2 (Heq k) ltac:(by right)) as Hk.
      apply elem_of_cons in Hk as [->|?]; [|done].
      rewrite Forall_forall in Hb. specialize (Hb _ Hin). order.
Qed.

Lemma map_ext sm1 sm2 :
  keys_sorted sm1 → keys_sorted sm2 →
  (∀ k, map_find k sm1 = map_find k sm2) → sm1 = sm2.
Proof.
  revert sm2. induction sm1 as [|[a sa] r1 IH]; intros [|[b sb] r2] H1 H2 Heq.
  - done.
  - specialize (Heq b). simpl in Heq. by rewrite KComp_irrefl in Heq.
  - specialize (Heq a). simpl in Heq. by rewrite KComp_irrefl in Heq.
  - apply keys_sorted_cons in H1 as [Ha H1], H2 as [Hb H2].
    assert (a = b ∧ sa = sb) as [-> ->].
    { pose proof (Heq a) as Ea. pose proof (Heq b) as Eb. simpl in Ea, Eb.
      rewrite !KComp_irrefl in Ea, Eb.
      destruct (key_trichotomy a b) as [[Hlt Hgt]|[->|[Hlt Hgt]]].
      - by rewrite Hlt, Hgt in Ea.
      - rewrite !KComp_irrefl in Ea. by simplify_eq.
      - by rewrite Hlt, Hgt in Eb. }
    f_equal. apply IH; [done..|]. intros k.
    generalize (Heq k). simpl. key_cases b k; [done| |]; intros _.
    + rewrite !map_find_above; [done|done|done].
    + rewrite !map_find_above; [done|by eapply above_trans..].
Qed.

End MapFacts.

Section ListFacts.
Context {K V : Type} `{KeyOrder K}.
Implicit Types (k : K) (sm : stacks_map_t K) (ms : main_stack_t K V) (n : node K V).

Lemma fresh_id_gt n ms : n ∈ ms → nid n < fresh_id ms.
Proof.
  induction ms as [|m r IH]; simpl; [by intros ?%elem_of_nil|].
  intros [->|Hin]%elem_of_cons; [lia|]. specialize (IH Hin). lia.
Qed.

Lemma fresh_id_notin ms : fresh_id ms ∉ ids ms.
Proof.
  intros [n [Heq Hin]]%list_elem_of_fmap.
  apply fresh_id_gt in Hin. lia.
Qed.

Lemma with_key_cons k n ms :
  with_key k (n :: ms) =
    if key_eqb (nkey n) k then n :: with_key k ms else with_key k ms.
Proof. done. Qed.

Lemma with_key_elem k n ms : n ∈ with_key k ms ↔ n ∈ ms ∧ nkey n = k.
Proof.
  unfold with_key. rewrite !list_elem_of_In, filter_In, key_eqb_eq. done.
Qed.

Lemma with_key_nil k ms : with_key k ms = [] ↔ ∀ n, n ∈ ms → nkey n ≠ k.
Proof.
  split.
  - intros Hnil n Hin Hk.
    assert (n ∈ with_key k ms) as Hn by (by apply with_key_elem).
    rewrite Hnil in Hn. by apply elem_of_nil in Hn.
  - intros Hall. destruct (with_key k ms) as [|n r] eqn:E; [done|].
    assert (n ∈ with_key k ms) as [Hin Hk]%with_key_elem by (rewrite E; by left).
    by destruct (Hall n Hin).
Qed.

Lemma ids_with_key_sub k ms : ids (with_key k ms) ⊆ ids ms.
Proof.
  intros i [n [-> [Hin _]%with_key_elem]]%list_elem_of_fmap.
  apply list_elem_of_fmap. eauto.
Qed.

Lemma ids_cons n ms : ids (n :: ms) = nid n :: ids ms.
Proof. done. Qed.

Lemma NoDup_ids_with_key k ms : NoDup (ids ms) → NoDup (ids (with_key k ms)).
Proof.
  induction ms as [|m r IH]; [done|]. rewrite ids_cons, with_key_cons.
  intros [Hm Hr]%NoDup_cons.
  destruct (key_eqb (nkey m) k); [|auto]. rewrite ids_cons.
  apply NoDup_cons. split; [|auto].
  intros Hin. apply Hm. by apply (ids_with_key_sub k).
Qed.

Lemma NoDup_ids_inj n1 n2 ms :
  NoDup (ids ms) → n1 ∈ ms → n2 ∈ ms → nid n1 = nid n2 → n1 = n2.
Proof.
  induction ms as [|m r IH]; simpl; [by intros _ ?%elem_of_nil|].
  intros [Hm Hr]%NoDup_cons [->|H1]%elem_of_cons [->|H2]%elem_of_cons Heq; auto.
  - destruct Hm. rewrite Heq. apply list_elem_of_fmap. eauto.
  - destruct Hm. rewrite <- Heq. apply list_elem_of_fmap. eauto.
Qed.

Lemma find_node_Some i n ms : find_node i ms = Some n → n ∈ ms ∧ nid n = i.
Proof.
  induction ms as [|m r IH]; simpl; [done|].
  destruct (Nat.eqb (nid m) i) eqn:E.
  - intros [= ->]. apply Nat.eqb_eq in E. split; [by left|done].
  - intros [? ?]%IH. split; [by right|done].
Qed.

Lemma find_node_elem n ms :
  NoDup (ids ms) → n ∈ ms → find_node (nid n) ms = Some n.
Proof.
  induction ms as [|m r IH]; simpl; [by intros _ ?%elem_of_nil|].
  intros [Hm Hr]%NoDup_cons [->|Hin]%elem_of_cons.
  - by rewrite Nat.eqb_refl.
  - destruct (Nat.eqb (nid m) (nid n)) eqn:E; [|auto].
    apply Nat.eqb_eq in E. destruct Hm. rewrite E.
    apply list_elem_of_fmap. eauto.
Qed.

(** Erasing the newest node of key [k] through its iterator. *)
Lemma list_erase_first k n0 rest ms :
  NoDup (ids ms) → with_key k ms = n0 :: rest →
  NoDup (ids (list_erase (nid n0) ms)) ∧
  entries (list_erase (nid n0) ms) = remove_first k (entries ms) ∧
  ∀ k', with_key k' (list_erase (nid n0) ms) =
          if key_eqb k' k then rest else with_key k' ms.
Proof.
  induction ms as [|m r IH]; [done|]. rewrite ids_cons, with_key_cons.
  intros [Hm Hr]%NoDup_cons. cbn [list_erase].
  destruct (key_eqb (nkey m) k) eqn:Ek.
  - intros [= -> <-]. rewrite Nat.eqb_refl. split; [done|].
    split; [simpl; by rewrite Ek|].
    intros k'. rewrite with_key_cons. apply key_eqb_eq in Ek as <-.
    rewrite (key_eqb_sym k'). destruct (key_eqb (nkey n0) k') eqn:E; [|done].
    by apply key_eqb_eq in E as <-.
  - intros Hw. specialize (IH Hr Hw) as (IH1 & IH2 & IH3).
    assert (n0 ∈ r ∧ nkey n0 = k) as [Hin Hk].
    { apply with_key_elem. rewrite Hw. by left. }
    assert (Nat.eqb (nid m) (nid n0) = false) as ->.
    { apply Nat.eqb_neq. intros E. destruct Hm. rewrite E.
      apply list_elem_of_fmap. eauto. }
    split; [|split].
    + rewrite ids_cons. apply NoDup_cons. split; [|done].
      intros [n [Hn Hin']]%list_elem_of_fmap. destruct Hm.
      apply list_elem_of_fmap. exists n. split; [done|].
      clear -Hin'. induction r as [|x r IHr]; simpl in *; [done|].
      destruct (Nat.eqb (nid x) (nid n0)); [by right|].
      apply elem_of_cons in Hin' as [->|?]; [by left|right; auto].
    + simpl. by rewrite Ek, IH2.
    + intros k'. rewrite !with_key_cons, IH3.
      destruct (key_eqb k' k) eqn:E; [|done].
      apply key_eqb_eq in E as ->. by rewrite Ek.
Qed.

Lemma entries_values_of k ms :
  values_of k (entries ms) = map nval (with_key k ms).
Proof.
  unfold values_of, entries, with_key.
  induction ms as [|m r IH]; simpl; [done|].
  destruct (key_eqb (nkey m) k); simpl; by rewrite IH.
Qed.

Lemma length_entries ms : length (entries ms) = length ms.
Proof. apply length_map. Qed.

End ListFacts.

Section StorageFacts.
Context {K V : Type} `{KeyOrder K}.
Implicit Types (k : K) (sm : stacks_map_t K) (ms : main_stack_t K V) (n : node K V).

Lemma storage_inv_nil : storage_inv ([] : main_stack_t K V) [].
Proof.
  split; [constructor|]. split; [apply keys_sorted_nil|]. by intros k.
Qed.

Lemma index_ok_None k ms sm :
  index_ok ms sm → (map_find k sm = None ↔ with_key k ms = []).
Proof.
  intros Hi. rewrite (Hi k).
  destruct (with_key k ms); simpl; split; done.
Qed.

Lemma index_ok_Some k k' st ms sm :
  index_ok ms sm → map_find k sm = Some (k', st) →
  k' = k ∧ st = ids (with_key k ms) ∧ st ≠ [].
Proof.
  intros Hi. rewrite (Hi k).
  destruct (ids (with_key k ms)) eqn:E; [done|]. by intros [= <- <-].
Qed.

Lemma pure_push_entries k (v : V) p :
  entries (pure_push k v p).1 = (k, v) :: entries p.1.
Proof. done. Qed.

Lemma pure_push_inv k v ms sm :
  storage_inv ms sm →
  storage_inv (pure_push k v (ms, sm)).1 (pure_push k v (ms, sm)).2.
Proof.
  intros (Hnd & Hs & Hi). unfold pure_push, push_front. cbn [fst snd].
  split; [|split].
  - rewrite ids_cons. apply NoDup_cons. split; [apply fresh_id_notin|done].
  - destruct (map_find k sm) as [[k' st]|];
      auto using keys_sorted_set, keys_sorted_insert.
  - intros k0. rewrite with_key_cons. cbn [nkey].
    destruct (map_find k sm) as [[k' st]|] eqn:Ef.
    + destruct (index_ok_Some _ _ _ _ _ Hi Ef) as (-> & -> & Hne).
      rewrite map_find_set by done. rewrite (key_eqb_sym k0).
      destruct (key_eqb k k0) eqn:E.
      * apply key_eqb_eq in E as <-. by rewrite Ef.
      * apply Hi.
    + rewrite map_find_set by (by apply keys_sorted_insert).
      rewrite map_find_insert by done. rewrite (key_eqb_sym k0).
      destruct (key_eqb k k0) eqn:E.
      * apply key_eqb_eq in E as <-. rewrite Ef.
        apply (index_ok_None _ _ _ Hi) in Ef. by rewrite Ef.
      * apply Hi.
Qed.

Lemma replay_cons n ms :
  replay (n :: ms) = pure_push (nkey n) (nval n) (replay ms).
Proof. done. Qed.

Lemma replay_entries ms : entries (replay ms).1 = entries ms.
Proof.
  induction ms as [|n r IH]; [done|].
  rewrite replay_cons, pure_push_entries, IH. done.
Qed.

Lemma replay_inv ms : storage_inv (replay ms).1 (replay ms).2.
Proof.
  induction ms as [|n r IH]; [apply storage_inv_nil|].
  rewrite replay_cons. destruct (replay r) as [ms' sm'].
  by apply pure_push_inv.
Qed.

Lemma drop_top_inv k i st ms ms' sm :
  keys_sorted sm → index_ok ms sm →
  map_find k sm = Some (k, i :: st) →
  (∀ k', with_key k' ms' =
         if key_eqb k' k then tail (with_key k ms) else with_key k' ms) →
  keys_sorted (drop_top k st sm) ∧ index_ok ms' (drop_top k st sm).
Proof.
  intros Hs Hi Hf Hw.
  destruct (index_ok_Some _ _ _ _ _ Hi Hf) as (_ & Hst & _).
  assert (ids (with_key k ms') = st) as Hst'.
  { rewrite Hw, key_eqb_refl. destruct (with_key k ms); [done|].
    rewrite ids_cons in Hst. by simplify_eq. }
  unfold drop_top. split.
  - destruct (Nat.eqb (length st) 0);
      auto using keys_sorted_set, keys_sorted_erase.
  - intros k0. destruct (Nat.eqb (length st) 0) eqn:El.
    + apply Nat.eqb_eq in El. destruct st; [|done].
      rewrite map_find_erase by (by apply keys_sorted_set).
      rewrite map_find_set by done.
      destruct (key_eqb k0 k) eqn:E.
      * apply key_eqb_eq in E as ->. by rewrite Hst'.
      * by rewrite Hw, E.
    + apply Nat.eqb_neq in El. rewrite map_find_set by done.
      destruct (key_eqb k0 k) eqn:E.
      * apply key_eqb_eq in E as ->. rewrite Hf, Hst'. by destruct st.
      * by rewrite Hw, E.
Qed.

(** [pop()]: the newest node is on top of the stack of its key. *)
Lemma pop_inv n ms sm :
  storage_inv (n :: ms) sm →
  ∃ st, map_find (nkey n) sm = Some (nkey n, nid n :: st) ∧
        storage_inv ms (drop_top (nkey n) st sm).
Proof.
  intros (Hnd & Hs & Hi).
  pose proof (Hi (nkey n)) as Hf. rewrite with_key_cons, key_eqb_refl in Hf.
  rewrite ids_cons in Hf. eexists. split; [exact Hf|].
  rewrite ids_cons in Hnd. apply NoDup_cons in Hnd as [_ Hnd].
  split; [done|].
  eapply drop_top_inv; [done..|].
  intros k'. rewrite !with_key_cons, key_eqb_refl. simpl.
  rewrite (key_eqb_sym k'). destruct (key_eqb (nkey n) k') eqn:E; [|done].
  by apply key_eqb_eq in E as ->.
Qed.

(** [pop(k)] and [front(k)]: the top of the stack of [k] is the newest
    node of key [k]. *)
Lemma top_of_key k k' top st ms sm :
  storage_inv ms sm → map_find k sm = Some (k', top :: st) →
  ∃ n rest, k' = k ∧ with_key k ms = n :: rest ∧ nid n = top ∧
            st = ids rest ∧ nkey n = k ∧ find_node top ms = Some n.
Proof.
  intros (Hnd & Hs & Hi) Hf.
  destruct (index_ok_Some _ _ _ _ _ Hi Hf) as (-> & Hst & _).
  destruct (with_key k ms) as [|n rest] eqn:Ew; [done|].
  rewrite ids_cons in Hst. injection Hst as -> ->.
  assert (n ∈ ms ∧ nkey n = k) as [Hin Hk].
  { apply with_key_elem. rewrite Ew. by left. }
  exists n, rest. repeat split; try done. by apply find_node_elem.
Qed.

Lemma pop_key_inv k k' top st ms sm :
  storage_inv ms sm → map_find k sm = Some (k', top :: st) →
  storage_inv (list_erase top ms) (drop_top k' st sm) ∧
  entries (list_erase top ms) = remove_first k (entries ms).
Proof.
  intros Hinv Hf.
  destruct (top_of_key _ _ _ _ _ _ Hinv Hf) as (n & rest & -> & Hw & <- & -> & Hk & Hn).
  destruct Hinv as (Hnd & Hs & Hi).
  destruct (list_erase_first _ _ _ _ Hnd Hw) as (E1 & E2 & E3).
  split; [|done]. split; [done|].
  eapply drop_top_inv; [done..|]. intros k'. rewrite E3, Hw. done.
Qed.

End StorageFacts.

(** ** A weakest-precondition reading of the monad *)

Section Wp.
Context {K V : Type} `{KeyOrder K}.
Abbreviation M := (M K V).
Abbreviation config := (config K V).
Abbreviation cell := (cell K V).
Abbreviation obj := (obj K V).
Implicit Types (s : stack) (h : gmap loc cell) (f : list bool) (c : config).

Definition wp {A} (m : M A) (c : config) (Q : outcome A → config → Prop) : Prop :=
  Q (m c).1 (m c).2.

(** How a postcondition is passed through a [bind]. *)
Definition bind_post {A B} (k : A → M B) (Q : outcome B → config → Prop) :
    outcome A → config → Prop :=
  λ o c', match o with
          | Ret a => wp (k a) c' Q
          | Throw e => Q (Throw e) c'
          | Undefined => Q Undefined c'
          | OutOfFuel => Q OutOfFuel c'
          end.

Definition exit_post {A} (dtor : bool → M unit) (Q : outcome A → config → Prop) :
    outcome A → config → Prop :=
  λ o c', match o with
          | Ret a => wp (dtor false) c'
                       (λ o2 c'', match o2 with
                                  | Ret _ => Q (Ret a) c''
                                  | Throw e => Q (Throw e) c''
                                  | Undefined => Q Undefined c''
                                  | OutOfFuel => Q OutOfFuel c''
                                  end)
          | Throw e => wp (dtor true) c'
                         (λ o2 c'', match o2 with
                                    | Ret _ => Q (Throw e) c''
                                    | Throw _ => Q Undefined c''
                                    | Undefined => Q Undefined c''
                                    | OutOfFuel => Q OutOfFuel c''
                                    end)
          | Undefined => Q Undefined c'
          | OutOfFuel => Q OutOfFuel c'
          end.

Lemma wp_eq {A} (m : M A) c Q o c' : m c = (o, c') → Q o c' → wp m c Q.
Proof. intros Hm. unfold wp. by rewrite Hm. Qed.

Lemma wp_inv {A} (m : M A) c Q o c' : wp m c Q → m c = (o, c') → Q o c'.
Proof. unfold wp. intros HQ Hm. by rewrite Hm in HQ. Qed.

Lemma wp_mono {A} (m : M A) c (Q Q' : outcome A → config → Prop) :
  wp m c Q → (∀ o c', Q o c' → Q' o c') → wp m c Q'.
Proof. unfold wp. auto. Qed.

Lemma wp_ret {A} (a : A) c Q : Q (Ret a) c → wp (ret a) c Q.
Proof. done. Qed.

Lemma wp_throw {A} e c (Q : outcome A → config → Prop) :
  Q (Throw e) c → wp (throw e) c Q.
Proof. done. Qed.

Lemma wp_undefined {A} c (Q : outcome A → config → Prop) :
  Q Undefined c → wp undefined c Q.
Proof. done. Qed.

Lemma wp_out_of_fuel {A} c (Q : outcome A → config → Prop) :
  Q OutOfFuel c → wp out_of_fuel c Q.
Proof. done. Qed.

Lemma wp_bind {A B} (m : M A) (k : A → M B) c Q :
  wp m c (bind_post k Q) → wp (bind m k) c Q.
Proof.
  unfold wp, bind_post, bind. destruct (m c) as [[a|e| |] c']; cbn [fst snd]; auto.
Qed.

Lemma wp_scope_exit {A} (body : M A) dtor c Q :
  wp body c (exit_post dtor Q) → wp (scope_exit body dtor) c Q.
Proof.
  unfold wp, exit_post, scope_exit.
  destruct (body c) as [[a|e| |] c']; cbn [fst snd]; try done.
  - unfold wp. destruct (dtor false c') as [[?|?| |] ?]; cbn [fst snd]; auto.
  - unfold wp. destruct (dtor true c') as [[?|?| |] ?]; cbn [fst snd]; auto.
Qed.

Lemma wp_unwind {A} (body : M A) cleanup c Q :
  wp body c (exit_post (λ thrown : bool, if thrown then cleanup else ret tt) Q) →
  wp (unwind body cleanup) c Q.
Proof. apply wp_scope_exit. Qed.

Lemma wp_get_this c Q : Q (Ret (this c)) c → wp get_this c Q.
Proof. done. Qed.

Lemma wp_set_this s' s w Q :
  Q (Ret tt) (Config s' w) → wp (set_this s') (Config s w) Q.
Proof. done. Qed.

Lemma wp_set_main_stack p s w Q :
  Q (Ret tt) (Config (Stack p (stacks_map s) (shareable s)) w) →
  wp (set_main_stack p) (Config s w) Q.
Proof. done. Qed.

Lemma wp_set_stacks_map p s w Q :
  Q (Ret tt) (Config (Stack (main_stack s) p (shareable s)) w) →
  wp (set_stacks_map p) (Config s w) Q.
Proof. done. Qed.

Lemma wp_set_shareable b s w Q :
  Q (Ret tt) (Config (Stack (main_stack s) (stacks_map s) b) w) →
  wp (set_shareable b) (Config s w) Q.
Proof. done. Qed.

(** An allocation either fails, which takes an injected fault, or goes
    on with the rest of the schedule. *)
Lemma wp_alloc_point f0 s h f Q :
  f `suffix_of` f0 →
  (∀ f', f' `suffix_of` f0 → true ∈ f0 → Q (Throw bad_alloc) (Config s (World h f'))) →
  (∀ f', f' `suffix_of` f0 → Q (Ret tt) (Config s (World h f'))) →
  wp alloc_point (Config s (World h f)) Q.
Proof.
  intros Hf Ht Hr. unfold wp, alloc_point. cbn [mem faults this heap].
  destruct f as [|[] fs]; cbn [fst snd].
  - by apply Hr.
  - apply Ht.
    + etrans; [|exact Hf]. by apply suffix_cons_r.
    + eapply elem_of_suffix; [|exact Hf]. by left.
  - apply Hr. etrans; [|exact Hf]. by apply suffix_cons_r.
Qed.

Lemma wp_throw_invalid_argument {A} f0 e s h f (Q : outcome A → config → Prop) :
  f `suffix_of` f0 →
  (∀ f', f' `suffix_of` f0 → true ∈ f0 → Q (Throw bad_alloc) (Config s (World h f'))) →
  (∀ f', f' `suffix_of` f0 → Q (Throw e) (Config s (World h f'))) →
  wp (throw_invalid_argument e) (Config s (World h f)) Q.
Proof.
  intros Hf Ht Hr. unfold throw_invalid_argument. apply wp_bind.
  apply (wp_alloc_point f0); [done|..].
  - intros f' Hf' Hin. by apply Ht.
  - intros f' Hf'. cbn [bind_post]. apply wp_throw. by apply Hr.
Qed.

Lemma wp_quiet_throw {A} e s h (Q : outcome A → config → Prop) :
  Q (Throw e) (Config s (World h [])) →
  wp (throw_invalid_argument e) (Config s (World h [])) Q.
Proof. done. Qed.

Lemma wp_use_count_null s w Q :
  Q (Ret 0) (Config s w) → wp (use_count None) (Config s w) Q.
Proof. done. Qed.

Lemma wp_use_count l x s h f Q :
  h !! l = Some x →
  Q (Ret (refs x)) (Config s (World h f)) →
  wp (use_count (Some l)) (Config s (World h f)) Q.
Proof.
  intros Hl HQ. unfold wp, use_count, bind, get_cell, ret.
  cbn [mem heap]. by rewrite Hl.
Qed.

Lemma wp_sp_acquire_null s w Q :
  Q (Ret tt) (Config s w) → wp (sp_acquire None) (Config s w) Q.
Proof. done. Qed.

Lemma wp_sp_acquire l x s h f Q :
  h !! l = Some x →
  Q (Ret tt) (Config s (World (<[l := Cell (S (refs x)) (payload x)]> h) f)) →
  wp (sp_acquire (Some l)) (Config s (World h f)) Q.
Proof.
  intros Hl HQ. unfold wp, sp_acquire, bind, get_cell, set_cell.
  cbn [mem heap]. by rewrite Hl.
Qed.

Lemma wp_sp_release_null s w Q :
  Q (Ret tt) (Config s w) → wp (sp_release None) (Config s w) Q.
Proof. done. Qed.

Lemma wp_sp_release_shared l r o s h f Q :
  h !! l = Some (Cell (S (S r)) o) →
  Q (Ret tt) (Config s (World (<[l := Cell (S r) o]> h) f)) →
  wp (sp_release (Some l)) (Config s (World h f)) Q.
Proof.
  intros Hl HQ. unfold wp, sp_release, bind, get_cell, set_cell.
  cbn [mem heap]. by rewrite Hl.
Qed.

Lemma wp_sp_release_last l o s h f Q :
  h !! l = Some (Cell 1 o) →
  Q (Ret tt) (Config s (World (delete l h) f)) →
  wp (sp_release (Some l)) (Config s (World h f)) Q.
Proof.
  intros Hl HQ. unfold wp, sp_release, bind, get_cell, free_cell.
  cbn [mem heap]. by rewrite Hl.
Qed.

Lemma wp_make_shared f0 o s h f Q :
  f `suffix_of` f0 →
  (∀ f', f' `suffix_of` f0 → true ∈ f0 → Q (Throw bad_alloc) (Config s (World h f'))) →
  (∀ f' l, f' `suffix_of` f0 → h !! l = None →
     Q (Ret l) (Config s (World (<[l := Cell 1 o]> h) f'))) →
  wp (make_shared o) (Config s (World h f)) Q.
Proof.
  intros Hf Ht Hr. unfold make_shared. apply wp_bind, (wp_alloc_point f0); [done|..].
  - intros f' Hf' Hin. by apply Ht.
  - intros f' Hf'. unfold bind_post, wp. cbn [fst snd mem heap this faults].
    apply Hr; [done|]. apply not_elem_of_dom, is_fresh.
Qed.

Lemma wp_deref_list l r ms s h f Q :
  h !! l = Some (Cell r (OList ms)) →
  Q (Ret ms) (Config s (World h f)) →
  wp (deref_list (Some l)) (Config s (World h f)) Q.
Proof.
  intros Hl HQ. unfold wp, deref_list, bind, get_cell.
  cbn [mem heap]. by rewrite Hl.
Qed.

Lemma wp_deref_map l r sm s h f Q :
  h !! l = Some (Cell r (OMap sm)) →
  Q (Ret sm) (Config s (World h f)) →
  wp (deref_map (Some l)) (Config s (World h f)) Q.
Proof.
  intros Hl HQ. unfold wp, deref_map, bind, get_cell.
  cbn [mem heap]. by rewrite Hl.
Qed.

Lemma wp_store l r o o' s h f Q :
  h !! l = Some (Cell r o) →
  Q (Ret tt) (Config s (World (<[l := Cell r o']> h) f)) →
  wp (store (Some l) o') (Config s (World h f)) Q.
Proof.
  intros Hl HQ. unfold wp, store, bind, get_cell, set_cell.
  cbn [mem heap]. by rewrite Hl.
Qed.

Lemma wp_call_on {A} (o : stack) (m : M A) s w Q :
  wp m (Config o w)
    (λ r c', match r with
             | Ret a => Q (Ret (Normal a, this c')) (Config s (mem c'))
             | Throw e => Q (Ret (Thrown e, this c')) (Config s (mem c'))
             | Undefined => Q Undefined (Config s (mem c'))
             | OutOfFuel => Q OutOfFuel (Config s (mem c'))
             end) →
  wp (call_on o m) (Config s w) Q.
Proof.
  unfold wp, call_on. cbn [mem this].
  destruct (m (Config o w)) as [[a|e| |] c']; cbn [fst snd]; auto.
Qed.

End Wp.

(** One step of symbolic execution. *)
Ltac wp_simpl :=
  cbn beta iota delta [bind_post exit_post this mem heap faults main_stack
                       stacks_map shareable refs payload fst snd
                       Nat.eqb Nat.ltb Nat.leb].

(** Looking a cell up in a heap written as updates of a heap with known
    cells. *)
Ltac heap_lookup :=
  repeat first
    [ rewrite lookup_insert_eq
    | rewrite lookup_insert_ne by congruence
    | rewrite lookup_delete_ne by congruence
    | rewrite lookup_delete_eq ];
  first [ reflexivity | eassumption ].

(** Two heaps written as updates of the same heap are equal. *)
Ltac heap_eq :=
  apply map_eq; intros ?i;
  repeat first [rewrite lookup_insert | rewrite lookup_delete];
  repeat case_decide; simplify_eq; try congruence; try done.

Ltac wp_pure_step :=
  lazymatch goal with
  | |- wp (bind _ _) _ _ => apply wp_bind
  | |- wp (ret _) _ _ => apply wp_ret
  | |- wp (throw _) _ _ => apply wp_throw
  | |- wp undefined _ _ => apply wp_undefined
  | |- wp out_of_fuel _ _ => apply wp_out_of_fuel
  | |- wp get_this _ _ => apply wp_get_this
  | |- wp (set_this _) _ _ => apply wp_set_this
  | |- wp (set_main_stack _) _ _ => apply wp_set_main_stack
  | |- wp (set_stacks_map _) _ _ => apply wp_set_stacks_map
  | |- wp (set_shareable _) _ _ => apply wp_set_shareable
  | |- wp (scope_exit _ _) _ _ => apply wp_scope_exit
  | |- wp (unwind _ _) _ _ => apply wp_unwind
  | |- wp (use_count None) _ _ => apply wp_use_count_null
  | |- wp (sp_acquire None) _ _ => apply wp_sp_acquire_null
  | |- wp (sp_release None) _ _ => apply wp_sp_release_null
  | |- wp (use_count (Some _)) _ _ => eapply wp_use_count; [heap_lookup|]
  | |- wp (sp_acquire (Some _)) _ _ => eapply wp_sp_acquire; [heap_lookup|]
  | |- wp (deref_list (Some _)) _ _ => eapply wp_deref_list; [heap_lookup|]
  | |- wp (deref_map (Some _)) _ _ => eapply wp_deref_map; [heap_lookup|]
  | |- wp (store (Some _) _) _ _ => eapply wp_store; [heap_lookup|]
  | |- wp (sp_release (Some _)) _ _ =>
      first [ eapply wp_sp_release_shared; [heap_lookup|]
            | eapply wp_sp_release_last; [heap_lookup|] ]
  end.

Ltac wp_pure := repeat (first [wp_pure_step | progress wp_simpl]).

Section Guards.
Context {K V : Type} `{KeyOrder K}.
Abbreviation M' := (M K V).
Implicit Types (s : stack) (h : gmap loc (cell K V)) (f : list bool).
Implicit Types (ms : main_stack_t K V) (sm : stacks_map_t K).

(** The contract of a scope body that works on the storage of [this]
    in place: it leaves [this] alone and touches the two objects only;
    by an exception it leaves them as they were. *)
Definition body_spec {A} (body : M' A) (f0 : list bool)
    (P : main_stack_t K V → stacks_map_t K → Prop)
    (R : loc → main_stack_t K V → stacks_map_t K → A →
         main_stack_t K V → stacks_map_t K → Prop)
    (E : main_stack_t K V → stacks_map_t K → exn → Prop) : Prop :=
  ∀ s1 l1 l2 r1 r2 ms1 sm1 h1 f1,
    main_stack s1 = Some l1 → stacks_map s1 = Some l2 → l1 ≠ l2 →
    h1 !! l1 = Some (Cell r1 (OList ms1)) →
    h1 !! l2 = Some (Cell r2 (OMap sm1)) →
    P ms1 sm1 →
    f1 `suffix_of` f0 →
    wp body (Config s1 (World h1 f1)) (λ o c',
      faults (mem c') `suffix_of` f0 ∧ this c' = s1 ∧
      match o with
      | Ret a => ∃ ms' sm', R l1 ms1 sm1 a ms' sm' ∧
          heap (mem c') =
            <[l1 := Cell r1 (OList ms')]> (<[l2 := Cell r2 (OMap sm')]> h1)
      | Throw e => E ms1 sm1 e ∧ (e = bad_alloc → true ∈ f0) ∧ heap (mem c') = h1
      | _ => False
      end).

Lemma push_body_spec k v f0 :
  body_spec (push_body k v) f0 storage_inv
    (λ _ ms sm _ ms' sm', (ms', sm') = pure_push k v (ms, sm))
    (λ _ _ e, e = bad_alloc).
Proof.
  intros s1 l1 l2 r1 r2 ms1 sm1 h1 f1 Hl1 Hl2 Hne Hh1 Hh2 Hinv Hf.
  destruct s1 as [p1 p2 sh]. simpl in Hl1, Hl2. subst p1 p2.
  unfold push_body. wp_pure. apply (wp_alloc_point f0); [done|..].
  { intros f' Hf' Hin. wp_simpl. done. }
  intros f2 Hf2. wp_pure.
  unfold main_stack_guard. wp_pure.
  apply (wp_alloc_point f0); [done|..].
  { intros f' Hf' Hin. wp_simpl. done. }
  intros f3 Hf3. wp_pure. unfold begin, push_front. cbn [head nid].
  destruct (map_find k sm1) as [[k' st]|] eqn:Ef.
  - pose proof (map_find_key _ _ _ _ Ef) as ->.
    unfold stackmap_push_guard. wp_pure. rewrite Ef.
    wp_pure. apply (wp_alloc_point f0); [done|..].
    { intros f' Hf' Hin. wp_pure. cbn [pop_front]. wp_pure.
      repeat split; try done. heap_eq. }
    intros f4 Hf4. wp_pure. split; [done|]. split; [done|].
    eexists _, _. split.
    { unfold pure_push. cbn [fst snd]. rewrite Ef. reflexivity. }
    unfold push_front. heap_eq.
  - unfold stackmap_key_guard. wp_pure.
    apply (wp_alloc_point f0); [done|..].
    { intros f' Hf' Hin. wp_pure. cbn [pop_front]. wp_pure.
      repeat split; try done. heap_eq. }
    intros f4 Hf4. wp_pure.
    assert (∃ st0, map_find k (map_insert k sm1) = Some (k, st0)) as [st0 Ei].
    { rewrite map_find_insert by apply Hinv. rewrite key_eqb_refl, Ef. eauto. }
    rewrite Ei. unfold stackmap_push_guard. wp_pure. rewrite Ei.
    wp_pure. apply (wp_alloc_point f0); [done|..].
    { intros f' Hf' Hin. wp_pure. cbn [pop_front]. wp_pure.
      repeat split; try done. rewrite map_erase_insert by done. heap_eq. }
    intros f5 Hf5. wp_pure. split; [done|]. split; [done|].
    eexists _, _. split.
    { unfold pure_push. cbn [fst snd]. rewrite Ef. reflexivity. }
    assert (st0 = []) as ->.
    { rewrite map_find_insert in Ei by apply Hinv.
      rewrite key_eqb_refl, Ef in Ei. congruence. }
    unfold push_front. heap_eq.
Qed.

Lemma about_to_modify_inplace {A} push mark (body : M' A) P R E s l1 l2 ms sm h f :
  body_spec body f P R E →
  main_stack s = Some l1 → stacks_map s = Some l2 → l1 ≠ l2 →
  h !! l1 = Some (Cell 1 (OList ms)) →
  h !! l2 = Some (Cell 1 (OMap sm)) →
  P ms sm →
  wp (about_to_modify push mark body) (Config s (World h f)) (λ o c',
    faults (mem c') `suffix_of` f ∧
    match o with
    | Ret a => ∃ ms' sm', R l1 ms sm a ms' sm' ∧
        this c' = Stack (Some l1) (Some l2) mark ∧
        heap (mem c') =
          <[l1 := Cell 1 (OList ms')]> (<[l2 := Cell 1 (OMap sm')]> h)
    | Throw e => E ms sm e ∧ (e = bad_alloc → true ∈ f) ∧
        this c' = s ∧ heap (mem c') = h
    | _ => False
    end).
Proof.
  intros Hbody Hl1 Hl2 Hne Hh1 Hh2 Hinv.
  destruct s as [p1 p2 sh]. simpl in Hl1, Hl2. subst p1 p2.
  unfold about_to_modify. wp_pure.
  unfold about_to_modify_body. wp_pure. cbn [Nat.eqb Nat.ltb Nat.leb]. wp_pure.
  eapply wp_mono.
  { eapply (Hbody _ l1 l2); [done|done|done|heap_lookup|heap_lookup|done|done]. }
  intros o [s' [h' f']]. wp_simpl. intros (Hf & -> & Hpost).
  destruct o as [a|e| |]; [| |done..].
  - destruct Hpost as (ms' & sm' & HR & ->). wp_pure.
    split; [done|]. exists ms', sm'. split; [done|]. split; [done|]. heap_eq.
  - destruct Hpost as (HE & Hin & ->).
    unfold assign_main_stack, assign_stacks_map. wp_pure.
    repeat split; try done. heap_eq.
Qed.
End Guards.

Section CopyOnWrite.
Context {K V : Type} `{KeyOrder K}.
Abbreviation M'' := (M K V).
Implicit Types (s : stack) (h : gmap loc (cell K V)) (f : list bool).
Implicit Types (ms : main_stack_t K V) (sm : stacks_map_t K).

(** What [push] does on storage that nobody else holds. *)
Definition push_inplace_spec (push : K → V → M'' unit) : Prop :=
  ∀ k v s l1 l2 ms sm h f0 f,
    main_stack s = Some l1 → stacks_map s = Some l2 → l1 ≠ l2 →
    h !! l1 = Some (Cell 1 (OList ms)) →
    h !! l2 = Some (Cell 1 (OMap sm)) →
    storage_inv ms sm →
    f `suffix_of` f0 →
    wp (push k v) (Config s (World h f)) (λ o c',
      faults (mem c') `suffix_of` f0 ∧
      match o with
      | Ret _ =>
          this c' = Stack (Some l1) (Some l2) true ∧
          heap (mem c') =
            <[l1 := Cell 1 (OList (pure_push k v (ms, sm)).1)]>
              (<[l2 := Cell 1 (OMap (pure_push k v (ms, sm)).2)]> h)
      | Throw e => e = bad_alloc ∧ true ∈ f0 ∧ this c' = s ∧ heap (mem c') = h
      | _ => False
      end).

Lemma push_fuel_inplace fuel : push_inplace_spec (push_fuel (S fuel)).
Proof.
  intros k v s l1 l2 ms sm h f0 f Hl1 Hl2 Hne Hh1 Hh2 Hinv Hf.
  cbn [push_fuel]. eapply wp_mono.
  { eapply about_to_modify_inplace; [apply (push_body_spec k v f)|done..]. }
  intros o [s' [h' f']]. wp_simpl. intros [Hf' Hpost].
  split; [by etrans|].
  destruct o as [a|e| |]; [| |done..].
  - destruct Hpost as (ms' & sm' & HR & -> & ->). split; [done|].
    by rewrite <- HR.
  - destruct Hpost as (-> & Hin & -> & ->). repeat split; try done.
    eapply elem_of_suffix; [by apply Hin|done].
Qed.

(** The loop of [copy], run on an object that owns its storage alone. *)
Lemma copy_loop push (l : list (node K V)) l1 l2 ms sm h f0 f :
  push_inplace_spec push →
  l1 ≠ l2 →
  h !! l1 = Some (Cell 1 (OList ms)) →
  h !! l2 = Some (Cell 1 (OMap sm)) →
  storage_inv ms sm →
  f `suffix_of` f0 →
  wp (for_each l (λ n, push (nkey n) (nval n)))
     (Config (Stack (Some l1) (Some l2) true) (World h f)) (λ o c',
    faults (mem c') `suffix_of` f0 ∧
    this c' = Stack (Some l1) (Some l2) true ∧
    match o with
    | Ret _ =>
        let p := foldl (λ p n, pure_push (nkey n) (nval n) p) (ms, sm) l in
        heap (mem c') = <[l1 := Cell 1 (OList p.1)]> (<[l2 := Cell 1 (OMap p.2)]> h)
    | Throw e => e = bad_alloc ∧ true ∈ f0 ∧
        ∃ ms' sm', heap (mem c') =
          <[l1 := Cell 1 (OList ms')]> (<[l2 := Cell 1 (OMap sm')]> h)
    | _ => False
    end).
Proof.
  intros Hpush Hne. revert ms sm h f.
  induction l as [|n l IH]; intros ms sm h f Hh1 Hh2 Hinv Hf; cbn [for_each foldl].
  - wp_pure. repeat split; try done. heap_eq.
  - wp_pure. eapply wp_mono.
    { eapply (Hpush _ _ _ l1 l2); [done|done|done|done|done|done|exact Hf]. }
    intros o [s' [h' f']]. wp_simpl. intros [Hf' Hpost].
    destruct o as [a|e| |]; [| |done..].
    + destruct Hpost as [-> ->]. wp_simpl.
      destruct (pure_push (nkey n) (nval n) (ms, sm)) as [ms1 sm1] eqn:Ep.
      eapply wp_mono.
      { eapply (IH ms1 sm1); [heap_lookup|heap_lookup| |done].
        pose proof (pure_push_inv (nkey n) (nval n) ms sm Hinv) as Hi.
        by rewrite Ep in Hi. }
      intros o [s' [h' f'']]. wp_simpl. intros (Hf'' & -> & Hpost).
      split; [done|]. split; [done|]. cbn [fst snd] in *.
      destruct o as [a'|e| |]; [| |done..].
      * rewrite Hpost. heap_eq.
      * destruct Hpost as (-> & Hin & ms' & sm' & ->).
        repeat split; try done. exists ms', sm'. heap_eq.
    + destruct Hpost as (-> & Hin & -> & ->).
      repeat split; try done. exists ms, sm. heap_eq.
Qed.

Lemma foldl_replay ms :
  foldl (λ p n, pure_push (nkey n) (nval n) p) ([], []) (rev ms) = replay ms.
Proof.
  induction ms as [|n r IH]; [done|].
  cbn [rev]. rewrite foldl_app. cbn [foldl]. by rewrite IH.
Qed.

(** [copy], run on a freshly constructed object. *)
Lemma copy_fresh push other l1 l2 ms sm h f0 f :
  push_inplace_spec push →
  l1 ≠ l2 →
  h !! l1 = Some (Cell 1 (OList [])) →
  h !! l2 = Some (Cell 1 (OMap [])) →
  match main_stack other with
  | None => ms = []
  | Some lo => ∃ r, h !! lo = Some (Cell (S r) (OList ms))
  end →
  f `suffix_of` f0 →
  wp (copy push other)
     (Config (Stack (Some l1) (Some l2) true) (World h f)) (λ o c',
    faults (mem c') `suffix_of` f0 ∧
    this c' = Stack (Some l1) (Some l2) true ∧
    match o with
    | Ret _ =>
        heap (mem c') = <[l1 := Cell 1 (OList (replay ms).1)]>
                          (<[l2 := Cell 1 (OMap (replay ms).2)]> h)
    | Throw e => e = bad_alloc ∧ true ∈ f0 ∧
        ∃ ms' sm', heap (mem c') =
          <[l1 := Cell 1 (OList ms')]> (<[l2 := Cell 1 (OMap sm')]> h)
    | _ => False
    end).
Proof.
  intros Hpush Hne Hh1 Hh2 Hother Hf. unfold copy.
  destruct (main_stack other) as [lo|].
  - destruct Hother as [r Hlo]. wp_pure. cbn [Nat.eqb]. wp_pure.
    eapply wp_mono.
    { eapply (copy_loop push (rev ms) l1 l2); [done..|apply storage_inv_nil|done]. }
    intros o [s' [h' f']]. wp_simpl. intros (Hf' & -> & Hpost).
    split; [done|]. split; [done|].
    destruct o as [a|e| |]; [| |done..]; [|done].
    by rewrite foldl_replay in Hpost.
  - subst ms. wp_pure. cbn [Nat.eqb]. wp_pure.
    repeat split; try done. cbn. heap_eq.
Qed.

(** The default constructor. *)
Lemma stack_default_spec s0 h f0 f :
  f `suffix_of` f0 →
  wp stack_default (Config s0 (World h f)) (λ o c',
    faults (mem c') `suffix_of` f0 ∧
    match o with
    | Ret _ => ∃ l1 l2, h !! l1 = None ∧ h !! l2 = None ∧ l1 ≠ l2 ∧
        this c' = Stack (Some l1) (Some l2) true ∧
        heap (mem c') =
          <[l1 := Cell 1 (OList [])]> (<[l2 := Cell 1 (OMap [])]> h)
    | Throw e => e = bad_alloc ∧ true ∈ f0 ∧ heap (mem c') = h
    | _ => False
    end).
Proof.
  intros Hf. unfold stack_default, reset_main_stack_fresh, reset_stacks_map_fresh.
  wp_pure. apply (wp_make_shared f0); [done|..].
  { intros f' Hf' Hin. unfold destroy_members. wp_pure. done. }
  intros f1 l1 Hf1 Hl1. wp_pure.
  apply (wp_make_shared f0); [done|..].
  { intros f' Hf' Hin. unfold destroy_members. wp_pure.
    repeat split; try done. heap_eq. }
  intros f2 l2 Hf2 Hl2. wp_pure.
  apply lookup_insert_None in Hl2 as [Hl2 Hne].
  split; [done|]. exists l1, l2. repeat split; try done. heap_eq.
Qed.

(** [about_to_modify] on an object without storage. *)
Lemma about_to_modify_fresh {A} push mark (body : M'' A) P R E sh h f :
  body_spec body f P R E →
  P [] [] →
  wp (about_to_modify push mark body) (Config (Stack None None sh) (World h f))
    (λ o c',
      faults (mem c') `suffix_of` f ∧
      match o with
      | Ret a => ∃ l1 l2 ms' sm',
          h !! l1 = None ∧ h !! l2 = None ∧ l1 ≠ l2 ∧
          R l1 [] [] a ms' sm' ∧
          this c' = Stack (Some l1) (Some l2) mark ∧
          heap (mem c') =
            <[l1 := Cell 1 (OList ms')]> (<[l2 := Cell 1 (OMap sm')]> h)
      | Throw e => (e = bad_alloc → true ∈ f) ∧
          ((this c' = Stack None None sh ∧ heap (mem c') = h ∧
            (e = bad_alloc ∨ E [] [] e)) ∨
           (e = bad_alloc ∧ ∃ l1, h !! l1 = None ∧
              this c' = Stack (Some l1) None sh ∧
              heap (mem c') = <[l1 := Cell 1 (OList [])]> h))
      | _ => False
      end).
Proof.
  intros Hbody HP. unfold about_to_modify. wp_pure.
  unfold about_to_modify_body. wp_pure. cbn [Nat.eqb]. wp_pure.
  unfold reset_main_stack_fresh, reset_stacks_map_fresh. wp_pure.
  apply (wp_make_shared f); [done|..].
  { intros f' Hf' Hin. wp_pure. split; [done|]. split; [done|]. left. auto. }
  intros f1 l1 Hf1 Hl1. wp_pure.
  apply (wp_make_shared f); [done|..].
  { intros f' Hf' Hin. wp_pure. split; [done|]. split; [done|]. right.
    split; [done|]. by exists l1. }
  intros f2 l2 Hf2 Hl2. wp_pure.
  apply lookup_insert_None in Hl2 as [Hl2 Hne].
  eapply wp_mono.
  { eapply (Hbody _ l1 l2 1 1 [] []);
      [done|done|done|heap_lookup|heap_lookup|done|done]. }
  intros o [s' [h' f']]. wp_simpl. intros (Hf & -> & Hpost).
  destruct o as [a|e| |]; [| |done..].
  - destruct Hpost as (ms' & sm' & HR & ->). wp_pure.
    split; [done|]. exists l1, l2, ms', sm'. repeat split; try done. heap_eq.
  - destruct Hpost as (HE & Hin & ->).
    unfold assign_main_stack, assign_stacks_map. wp_pure.
    split; [done|]. split; [done|]. left. repeat split; auto. heap_eq.
Qed.

(** [about_to_modify] on an object whose storage other objects hold too. *)
Lemma about_to_modify_shared {A} push mark (body : M'' A) P R E s l1 l2 r ms sm h f :
  push_inplace_spec push →
  body_spec body f P R E →
  P (replay ms).1 (replay ms).2 →
  main_stack s = Some l1 → stacks_map s = Some l2 → l1 ≠ l2 →
  h !! l1 = Some (Cell (S (S r)) (OList ms)) →
  h !! l2 = Some (Cell (S (S r)) (OMap sm)) →
  wp (about_to_modify push mark body) (Config s (World h f)) (λ o c',
    faults (mem c') `suffix_of` f ∧
    match o with
    | Ret a => ∃ l1' l2' ms' sm',
        h !! l1' = None ∧ h !! l2' = None ∧ l1' ≠ l2' ∧
        R l1' (replay ms).1 (replay ms).2 a ms' sm' ∧
        this c' = Stack (Some l1') (Some l2') mark ∧
        heap (mem c') =
          <[l1' := Cell 1 (OList ms')]> (<[l2' := Cell 1 (OMap sm')]>
            (<[l1 := Cell (S r) (OList ms)]>
               (<[l2 := Cell (S r) (OMap sm)]> h)))
    | Throw e => (e = bad_alloc → true ∈ f) ∧
        this c' = s ∧ heap (mem c') = h ∧
        (e = bad_alloc ∨ E (replay ms).1 (replay ms).2 e)
    | _ => False
    end).
Proof.
  intros Hpush Hbody HP Hl1 Hl2 Hne Hh1 Hh2.
  destruct s as [p1 p2 sh]. simpl in Hl1, Hl2. subst p1 p2.
  unfold about_to_modify. wp_pure.
  unfold about_to_modify_body. wp_pure. cbn [Nat.eqb Nat.ltb Nat.leb]. wp_pure.
  apply wp_call_on. eapply wp_mono; [by apply (stack_default_spec _ _ f)|].
  intros o [s' [h' f']]. wp_simpl. intros (Hf & Hpost).
  destruct o as [a|e| |]; [| |done..].
  2:{ destruct Hpost as (-> & Hin & ->). wp_pure.
      repeat split; auto. heap_eq. }
  destruct Hpost as (l1' & l2' & Hn1 & Hn2 & Hne' & -> & ->).
  apply lookup_insert_None in Hn1 as [Hn1 Hne1].
  apply lookup_insert_None in Hn1 as [Hn1 Hne2].
  apply lookup_insert_None in Hn2 as [Hn2 Hne3].
  apply lookup_insert_None in Hn2 as [Hn2 Hne4].
  wp_pure. apply wp_call_on. eapply wp_mono.
  { eapply (copy_fresh push _ l1' l2' ms); first
      [ exact Hpush | exact Hne' | exact Hf | heap_lookup
      | cbn [main_stack]; eexists; heap_lookup ]. }
  intros o [s' [h' f'']]. wp_simpl. intros (Hf' & -> & Hpost).
  destruct o as [a'|e| |]; [| |done..].
  2:{ destruct Hpost as (-> & Hin & ms' & sm' & ->).
      unfold destroy_members. wp_pure. repeat split; auto. heap_eq. }
  subst h'. unfold swap, destroy_members. wp_pure.
  eapply wp_mono.
  { eapply (Hbody _ l1' l2' 1 1 (replay ms).1 (replay ms).2);
      [done|done|done|heap_lookup|heap_lookup|done|done]. }
  intros o [s' [h' f3]]. wp_simpl. intros (Hf3 & -> & Hpost).
  destruct o as [a''|e| |]; [| |done..].
  - destruct Hpost as (ms' & sm' & HR & ->). wp_pure.
    split; [done|]. exists l1', l2', ms', sm'. repeat split; try done. heap_eq.
  - destruct Hpost as (HE & Hin & ->).
    unfold assign_main_stack, assign_stacks_map. wp_pure.
    repeat split; auto. heap_eq.
Qed.

(** The object [s] holds the contents [ms], [sm] in the heap [h]. *)
Definition owns h s ms sm : Prop :=
  match main_stack s, stacks_map s with
  | None, None => ms = [] ∧ sm = []
  | Some l1, Some l2 =>
      l1 ≠ l2 ∧ ∃ r, h !! l1 = Some (Cell (S r) (OList ms)) ∧
                     h !! l2 = Some (Cell (S r) (OMap sm))
  | _, _ => False
  end.

(** A well-formed object: both handles null or both live, the two objects
    shared by the same owners, and the invariant between them. *)
Definition wf h s : Prop := ∃ ms sm, owns h s ms sm ∧ storage_inv ms sm.

(** The three ways [about_to_modify] gets private storage for a scope that
    ends normally: [ms1], [sm1] is what the scope starts from, [ms'], [sm']
    what it leaves. *)
Inductive cow h s (mark : bool) ms sm :
    loc → main_stack_t K V → stacks_map_t K →
    main_stack_t K V → stacks_map_t K → stack → gmap loc (cell K V) → Prop :=
  | cow_inplace l1 l2 ms' sm' :
      main_stack s = Some l1 → stacks_map s = Some l2 → l1 ≠ l2 →
      h !! l1 = Some (Cell 1 (OList ms)) →
      h !! l2 = Some (Cell 1 (OMap sm)) →
      cow h s mark ms sm l1 ms sm ms' sm' (Stack (Some l1) (Some l2) mark)
        (<[l1 := Cell 1 (OList ms')]> (<[l2 := Cell 1 (OMap sm')]> h))
  | cow_fresh l1 l2 ms' sm' :
      main_stack s = None → stacks_map s = None → ms = [] → sm = [] →
      h !! l1 = None → h !! l2 = None → l1 ≠ l2 →
      cow h s mark ms sm l1 [] [] ms' sm' (Stack (Some l1) (Some l2) mark)
        (<[l1 := Cell 1 (OList ms')]> (<[l2 := Cell 1 (OMap sm')]> h))
  | cow_copied l1 l2 r l1' l2' ms' sm' :
      main_stack s = Some l1 → stacks_map s = Some l2 → l1 ≠ l2 →
      h !! l1 = Some (Cell (S (S r)) (OList ms)) →
      h !! l2 = Some (Cell (S (S r)) (OMap sm)) →
      h !! l1' = None → h !! l2' = None → l1' ≠ l2' →
      cow h s mark ms sm l1' (replay ms).1 (replay ms).2 ms' sm'
        (Stack (Some l1') (Some l2') mark)
        (<[l1' := Cell 1 (OList ms')]> (<[l2' := Cell 1 (OMap sm')]>
           (<[l1 := Cell (S r) (OList ms)]>
              (<[l2 := Cell (S r) (OMap sm)]> h)))).

(** The storage a scope starts from holds the entries of the object. *)
Definition prepared ms sm ms1 sm1 : Prop :=
  (ms1 = ms ∧ sm1 = sm) ∨ (ms1 = (replay ms).1 ∧ sm1 = (replay ms).2).

Lemma prepared_entries ms sm ms1 sm1 :
  prepared ms sm ms1 sm1 → entries ms1 = entries ms.
Proof. intros [[-> _]|[-> _]]; [done|apply replay_entries]. Qed.

Lemma prepared_inv ms sm ms1 sm1 :
  storage_inv ms sm → prepared ms sm ms1 sm1 → storage_inv ms1 sm1.
Proof. intros ? [[-> ->]|[-> ->]]; [done|apply replay_inv]. Qed.

Lemma cow_prepared h s mark ms sm l ms1 sm1 ms' sm' s' h' :
  cow h s mark ms sm l ms1 sm1 ms' sm' s' h' → prepared ms sm ms1 sm1.
Proof.
  destruct 1; [by left| |by right]. subst. by left.
Qed.

Lemma cow_owns h s mark ms sm l ms1 sm1 ms' sm' s' h' :
  cow h s mark ms sm l ms1 sm1 ms' sm' s' h' → owns h' s' ms' sm'.
Proof.
  destruct 1; unfold owns; cbn [main_stack stacks_map];
    (split; [done|]); exists 0; split; heap_lookup.
Qed.

Lemma cow_shareable h s mark ms sm l ms1 sm1 ms' sm' s' h' :
  cow h s mark ms sm l ms1 sm1 ms' sm' s' h' →
  shareable s' = mark ∧ main_stack s' = Some l.
Proof. by destruct 1. Qed.

(** The state a failed second allocation leaves an object without storage
    in: a list and no map. *)
Definition half_built h s s' h' : Prop :=
  main_stack s = None ∧
  ∃ l1, h !! l1 = None ∧ s' = Stack (Some l1) None (shareable s) ∧
        h' = <[l1 := Cell 1 (OList [])]> h.

Theorem about_to_modify_spec {A} push mark (body : M'' A) P R E s ms sm h f :
  push_inplace_spec push →
  body_spec body f P R E →
  owns h s ms sm →
  (∀ ms1 sm1, prepared ms sm ms1 sm1 → P ms1 sm1) →
  wp (about_to_modify push mark body) (Config s (World h f)) (λ o c',
    faults (mem c') `suffix_of` f ∧
    match o with
    | Ret a => ∃ l ms1 sm1 ms' sm',
        cow h s mark ms sm l ms1 sm1 ms' sm' (this c') (heap (mem c')) ∧
        R l ms1 sm1 a ms' sm'
    | Throw e => (e = bad_alloc → true ∈ f) ∧
        ((this c' = s ∧ heap (mem c') = h ∧
          (e = bad_alloc ∨ ∃ ms1 sm1, prepared ms sm ms1 sm1 ∧ E ms1 sm1 e)) ∨
         (e = bad_alloc ∧ half_built h s (this c') (heap (mem c'))))
    | _ => False
    end).
Proof.
  intros Hpush Hbody Hown HP. unfold owns in Hown.
  destruct s as [[l1|] [l2|] sh]; cbn [main_stack stacks_map] in Hown; try done.
  - destruct Hown as (Hne & [|r] & Hh1 & Hh2).
    + eapply wp_mono.
      { eapply (about_to_modify_inplace push mark body P R E _ l1 l2); try done.
        apply HP. by left. }
      intros o [s' [h' f']]. wp_simpl. intros [Hf Hpost].
      split; [done|]. destruct o as [a|e| |]; [| |done..].
      * destruct Hpost as (ms' & sm' & HR & -> & ->).
        exists l1, ms, sm, ms', sm'. split; [|done]. by constructor.
      * destruct Hpost as (HE & Hin & -> & ->). split; [done|]. left.
        repeat split; try done. right. exists ms, sm. split; [by left|done].
    + eapply wp_mono.
      { eapply (about_to_modify_shared push mark body P R E _ l1 l2 r); try done.
        apply HP. by right. }
      intros o [s' [h' f']]. wp_simpl. intros [Hf Hpost].
      split; [done|]. destruct o as [a|e| |]; [| |done..].
      * destruct Hpost as (l1' & l2' & ms' & sm' & ? & ? & ? & HR & -> & ->).
        exists l1', (replay ms).1, (replay ms).2, ms', sm'.
        split; [|done]. by eapply cow_copied.
      * destruct Hpost as (Hin & -> & -> & HE). split; [done|]. left.
        repeat split; try done. destruct HE as [?|HE]; [by left|right].
        eexists _, _. split; [by right|done].
  - destruct Hown as [-> ->]. eapply wp_mono.
    { eapply (about_to_modify_fresh push mark body P R E); try done.
      apply HP. by left. }
    intros o [s' [h' f']]. wp_simpl. intros [Hf Hpost].
    split; [done|]. destruct o as [a|e| |]; [| |done..].
    + destruct Hpost as (l1 & l2 & ms' & sm' & ? & ? & ? & HR & -> & ->).
      exists l1, [], [], ms', sm'. split; [|done]. by constructor.
    + destruct Hpost as (Hin & [(-> & -> & HE)|(-> & l1 & ? & -> & ->)]).
      * split; [done|]. left. repeat split; try done.
        destruct HE as [?|HE]; [by left|right].
        exists [], []. split; [by left|done].
      * split; [done|]. right. split; [done|]. split; [done|]. by exists l1.
Qed.

End CopyOnWrite.
Section Bodies.
Context {K V : Type} `{KeyOrder K}.
Implicit Types (s : stack) (h : gmap loc (cell K V)) (f : list bool).
Implicit Types (ms : main_stack_t K V) (sm : stacks_map_t K).

Lemma pop_body_spec f0 :
  body_spec (pop_body (K:=K) (V:=V)) f0
    (λ ms sm, storage_inv ms sm ∧ ms ≠ [])
    (λ _ ms sm _ ms' sm', ∃ n st,
       ms = n :: ms' ∧ map_find (nkey n) sm = Some (nkey n, nid n :: st) ∧
       sm' = drop_top (nkey n) st sm)
    (λ _ _ _, False).
Proof.
  intros s1 l1 l2 r1 r2 ms1 sm1 h1 f1 Hl1 Hl2 Hne Hh1 Hh2 [Hinv Hnil] Hf.
  destruct s1 as [p1 p2 sh]. simpl in Hl1, Hl2. subst p1 p2.
  destruct ms1 as [|n ms']; [done|].
  destruct (pop_inv _ _ _ Hinv) as (st & Hfind & _).
  unfold pop_body. wp_pure. cbn [begin head]. wp_pure. rewrite Hfind.
  wp_pure. destruct (Nat.eqb (length st) 0) eqn:El; wp_pure.
  - cbn [pop_front]. wp_pure. split; [done|]. split; [done|].
    exists ms', (drop_top (nkey n) st sm1). split; [by exists n, st|].
    unfold drop_top. rewrite El. heap_eq.
  - cbn [pop_front]. wp_pure. split; [done|]. split; [done|].
    exists ms', (drop_top (nkey n) st sm1). split; [by exists n, st|].
    unfold drop_top. rewrite El. heap_eq.
Qed.

Lemma pop_key_body_spec k f0 :
  body_spec (pop_key_body (V:=V) k) f0 storage_inv
    (λ _ ms sm _ ms' sm', ∃ top st,
       map_find k sm = Some (k, top :: st) ∧
       ms' = list_erase top ms ∧ sm' = drop_top k st sm)
    (λ _ sm e, e = bad_alloc ∨ (e = pop_key_error ∧ map_find k sm = None)).
Proof.
  intros s1 l1 l2 r1 r2 ms1 sm1 h1 f1 Hl1 Hl2 Hne Hh1 Hh2 Hinv Hf.
  destruct s1 as [p1 p2 sh]. simpl in Hl1, Hl2. subst p1 p2.
  unfold pop_key_body. wp_pure. apply (wp_alloc_point f0); [done|..].
  { intros f' Hf' Hin. wp_simpl. repeat split; auto. }
  intros f2 Hf2. wp_pure.
  destruct (map_find k sm1) as [[k' [|top st]]|] eqn:Ef.
  - destruct Hinv as (_ & _ & Hi).
    by destruct (index_ok_Some _ _ _ _ _ Hi Ef) as (_ & _ & ?).
  - destruct (top_of_key _ _ _ _ _ _ Hinv Ef) as (n & rest & -> & _ & _ & _ & _ & Hn).
    cbn [length Nat.eqb]. wp_pure. rewrite Hn. wp_pure.
    destruct (Nat.eqb (length st) 0) eqn:El; wp_pure.
    + split; [done|]. split; [done|].
      exists (list_erase top ms1), (drop_top k st sm1).
      split; [by exists top, st|]. unfold drop_top. rewrite El. heap_eq.
    + split; [done|]. split; [done|].
      exists (list_erase top ms1), (drop_top k st sm1).
      split; [by exists top, st|]. unfold drop_top. rewrite El. heap_eq.
  - wp_pure. apply (wp_throw_invalid_argument f0); [done|..].
    + intros f' Hf' Hin. repeat split; auto.
    + intros f' Hf'. repeat split; auto. done.
Qed.

Lemma front_body_spec f0 :
  body_spec (front_body (K:=K) (V:=V)) f0
    (λ ms sm, storage_inv ms sm ∧ ms ≠ [])
    (λ l ms sm a ms' sm', ms' = ms ∧ sm' = sm ∧
       ∃ n r, ms = n :: r ∧ a = (nkey n, (l, nid n)))
    (λ _ _ _, False).
Proof.
  intros s1 l1 l2 r1 r2 ms1 sm1 h1 f1 Hl1 Hl2 Hne Hh1 Hh2 [Hinv Hnil] Hf.
  destruct s1 as [p1 p2 sh]. simpl in Hl1, Hl2. subst p1 p2.
  destruct ms1 as [|n ms']; [done|].
  unfold front_body. wp_pure. split; [done|]. split; [done|].
  exists (n :: ms'), sm1. split; [|heap_eq].
  split; [done|]. split; [done|]. by exists n, ms'.
Qed.

Lemma front_key_body_spec k f0 :
  body_spec (front_key_body (V:=V) k) f0 storage_inv
    (λ l ms sm a ms' sm', ms' = ms ∧ sm' = sm ∧
       ∃ top st, map_find k sm = Some (k, top :: st) ∧ a = (l, top))
    (λ _ sm e, e = bad_alloc ∨ (e = front_key_error ∧ map_find k sm = None)).
Proof.
  intros s1 l1 l2 r1 r2 ms1 sm1 h1 f1 Hl1 Hl2 Hne Hh1 Hh2 Hinv Hf.
  destruct s1 as [p1 p2 sh]. simpl in Hl1, Hl2. subst p1 p2.
  unfold front_key_body. wp_pure. apply (wp_alloc_point f0); [done|..].
  { intros f' Hf' Hin. wp_simpl. repeat split; auto. }
  intros f2 Hf2. wp_pure.
  destruct (map_find k sm1) as [[k' [|top st]]|] eqn:Ef.
  - destruct Hinv as (_ & _ & Hi).
    by destruct (index_ok_Some _ _ _ _ _ Hi Ef) as (_ & _ & ?).
  - pose proof (map_find_key _ _ _ _ Ef) as ->.
    cbn [length Nat.eqb]. wp_pure. split; [done|]. split; [done|].
    exists ms1, sm1. split; [|heap_eq].
    split; [done|]. split; [done|]. by exists top, st.
  - wp_pure. apply (wp_throw_invalid_argument f0); [done|..].
    + intros f' Hf' Hin. repeat split; auto.
    + intros f' Hf'. repeat split; auto. done.
Qed.

Lemma check_not_empty_spec e f0 s ms sm h f Q :
  owns h s ms sm → f `suffix_of` f0 →
  (ms = [] → ∀ f', f' `suffix_of` f0 → Q (Throw e) (Config s (World h f'))) →
  (ms = [] → ∀ f', f' `suffix_of` f0 → true ∈ f0 →
     Q (Throw bad_alloc) (Config s (World h f'))) →
  (ms ≠ [] → Q (Ret tt) (Config s (World h f))) →
  wp (check_not_empty e) (Config s (World h f)) Q.
Proof.
  intros Hown Hf Hnil Hmem Hcons. unfold owns in Hown. unfold check_not_empty.
  destruct s as [[l1|] [l2|] sh]; cbn [main_stack stacks_map] in Hown; try done.
  - destruct Hown as (Hne & r & Hh1 & Hh2). wp_pure. cbn [Nat.eqb]. wp_pure.
    destruct ms; wp_pure; [|auto].
    apply (wp_throw_invalid_argument f0); auto.
  - destruct Hown as [-> ->]. wp_pure. cbn [Nat.eqb]. wp_pure.
    apply (wp_throw_invalid_argument f0); auto.
Qed.

End Bodies.

Section Operations.
Context {K V : Type} `{KeyOrder K}.
Implicit Types (s : stack) (h : gmap loc (cell K V)) (f : list bool).
Implicit Types (ms : main_stack_t K V) (sm : stacks_map_t K).
Implicit Types (c : config K V) (es : list (K * V)).

(** The object of [c] is well formed and holds the entries [es]. *)
Definition holds c es : Prop :=
  ∃ ms sm, owns (heap (mem c)) (this c) ms sm ∧ storage_inv ms sm ∧
           entries ms = es.

Definition unchanged c c' : Prop :=
  this c' = this c ∧ heap (mem c') = heap (mem c).

Definition half_built_from c c' : Prop :=
  half_built (heap (mem c)) (this c) (this c') (heap (mem c')).

Lemma cow_holds h s mark ms sm l ms1 sm1 ms' sm' s' h' f' es :
  cow h s mark ms sm l ms1 sm1 ms' sm' s' h' →
  storage_inv ms' sm' → entries ms' = es →
  holds (Config s' (World h' f')) es.
Proof.
  intros Hcow Hinv He. exists ms', sm'. split; [|done].
  by eapply cow_owns.
Qed.

Lemma push_spec k v s ms sm h f :
  owns h s ms sm → storage_inv ms sm →
  wp (push k v) (Config s (World h f)) (λ o c',
    faults (mem c') `suffix_of` f ∧
    match o with
    | Ret _ => ∃ l ms1 sm1 ms' sm',
        cow h s true ms sm l ms1 sm1 ms' sm' (this c') (heap (mem c')) ∧
        (ms', sm') = pure_push k v (ms1, sm1)
    | Throw e => e = bad_alloc ∧ true ∈ f ∧
        ((this c' = s ∧ heap (mem c') = h) ∨
         half_built h s (this c') (heap (mem c')))
    | _ => False
    end).
Proof.
  intros Hown Hinv.
  change (push k v) with (about_to_modify (push_fuel 1) true (push_body k v)).
  eapply wp_mono.
  { eapply (about_to_modify_spec (push_fuel 1) true (push_body k v));
      [apply push_fuel_inplace|apply (push_body_spec k v f)|done|].
    intros. by eapply prepared_inv. }
  intros o c' [Hf Hpost]. split; [done|].
  destruct o as [a|e| |]; [done| |done..].
  destruct Hpost as (Hin & [(-> & -> & [->|(? & ? & _ & ->)])|(-> & Hb)]); auto.
Qed.

Lemma push_holds k v c es :
  holds c es →
  wp (push k v) c (λ o c',
    faults (mem c') `suffix_of` faults (mem c) ∧
    match o with
    | Ret _ => holds c' ((k, v) :: es) ∧ shareable (this c') = true
    | Throw e => e = bad_alloc ∧ true ∈ faults (mem c) ∧
        (unchanged c c' ∨ half_built_from c c')
    | _ => False
    end).
Proof.
  destruct c as [s [h f]]. intros (ms & sm & Hown & Hinv & <-).
  eapply wp_mono; [by apply push_spec|].
  intros o [s' [h' f']]. wp_simpl. intros [Hf Hpost]. split; [done|].
  destruct o as [a|e| |]; [|done..].
  destruct Hpost as (l & ms1 & sm1 & ms' & sm' & Hcow & Hp).
  pose proof (cow_prepared _ _ _ _ _ _ _ _ _ _ _ _ Hcow) as Hprep.
  pose proof (prepared_inv _ _ _ _ Hinv Hprep) as Hinv1.
  pose proof (pure_push_inv k v ms1 sm1 Hinv1) as Hinv'.
  rewrite <- Hp in Hinv'. cbn [fst snd] in Hinv'.
  split; [|by destruct (cow_shareable _ _ _ _ _ _ _ _ _ _ _ _ Hcow)].
  eapply cow_holds; [done..|].
  replace ms' with (pure_push k v (ms1, sm1)).1 by (by rewrite <- Hp).
  rewrite pure_push_entries. cbn [fst]. f_equal.
  by eapply prepared_entries.
Qed.

Lemma pop_spec s ms sm h f :
  owns h s ms sm → storage_inv ms sm →
  wp pop (Config s (World h f)) (λ o c',
    faults (mem c') `suffix_of` f ∧
    match o with
    | Ret _ => ∃ l ms1 sm1 ms' sm',
        cow h s true ms sm l ms1 sm1 ms' sm' (this c') (heap (mem c')) ∧
        ∃ n st, ms1 = n :: ms' ∧
          map_find (nkey n) sm1 = Some (nkey n, nid n :: st) ∧
          sm' = drop_top (nkey n) st sm1
    | Throw e => this c' = s ∧ heap (mem c') = h ∧
        ((e = empty_stack_error ∧ ms = []) ∨ (e = bad_alloc ∧ true ∈ f))
    | _ => False
    end).
Proof.
  intros Hown Hinv. unfold pop. wp_pure.
  eapply (check_not_empty_spec _ f); [done|done|..]; intros Hms; wp_simpl.
  { intros f' Hf'. repeat split; auto. }
  { intros f' Hf' Hin. repeat split; auto. }
  eapply wp_mono.
  { eapply (about_to_modify_spec push true pop_body);
      [apply push_fuel_inplace|apply (pop_body_spec f)|done|].
    intros ms1 sm1 Hprep. split; [by eapply prepared_inv|].
    apply prepared_entries in Hprep. intros ->. by destruct ms. }
  intros o c' [Hf Hpost]. split; [done|].
  destruct o as [a|e| |]; [done| |done..].
  destruct Hpost as (Hin & [(-> & -> & [->|(? & ? & _ & [])])|(-> & Hb)]); auto.
  - repeat split; auto.
  - destruct Hb as (Hnull & _). unfold owns in Hown. rewrite Hnull in Hown.
    destruct (stacks_map s); [done|]. by destruct Hown.
Qed.

Lemma pop_holds c es :
  holds c es →
  wp pop c (λ o c',
    faults (mem c') `suffix_of` faults (mem c) ∧
    match o with
    | Ret _ => ∃ e es', es = e :: es' ∧ holds c' es' ∧ shareable (this c') = true
    | Throw e => unchanged c c' ∧
        ((e = empty_stack_error ∧ es = []) ∨
         (e = bad_alloc ∧ true ∈ faults (mem c)))
    | _ => False
    end).
Proof.
  destruct c as [s [h f]]. intros (ms & sm & Hown & Hinv & <-).
  eapply wp_mono; [by apply pop_spec|].
  intros o [s' [h' f']]. wp_simpl. intros [Hf Hpost]. split; [done|].
  destruct o as [a|e| |]; [| |done..].
  - destruct Hpost as (l & ms1 & sm1 & ms' & sm' & Hcow & n & st & -> & Hfind & ->).
    pose proof (cow_prepared _ _ _ _ _ _ _ _ _ _ _ _ Hcow) as Hprep.
    pose proof (prepared_inv _ _ _ _ Hinv Hprep) as Hinv1.
    destruct (pop_inv _ _ _ Hinv1) as (st' & Hfind' & Hinv').
    rewrite Hfind in Hfind'. injection Hfind' as <-.
    exists (nkey n, nval n), (entries ms'). split.
    { by rewrite <- (prepared_entries _ _ _ _ Hprep). }
    split; [by eapply cow_holds|].
    by destruct (cow_shareable _ _ _ _ _ _ _ _ _ _ _ _ Hcow).
  - destruct Hpost as (-> & -> & Hcase). split; [done|].
    destruct Hcase as [[-> ->]|(-> & ?)]; [by left|by right].
Qed.

End Operations.

Section CrossStructure.
Context {K V : Type} `{KeyOrder K}.
Implicit Types (k : K) (ms : main_stack_t K V) (sm : stacks_map_t K).

Lemma storage_inv_elem k st ms sm :
  storage_inv ms sm → (k, st) ∈ sm → st = ids (with_key k ms) ∧ st ≠ [].
Proof.
  intros (_ & Hs & Hi) Hin. apply map_find_elem in Hin; [|done].
  by destruct (index_ok_Some _ _ _ _ _ Hi Hin) as (_ & ? & ?).
Qed.

Lemma NoDup_concat_stacks ms sm :
  NoDup (ids ms) → keys_sorted sm →
  (∀ k st, (k, st) ∈ sm → st = ids (with_key k ms)) →
  NoDup (concat (map snd sm)).
Proof.
  intros Hnd. induction sm as [|[a sa] r IH]; [constructor|].
  intros [Ha Hr]%keys_sorted_cons Hall. cbn [map concat snd].
  apply NoDup_app. split; [|split].
  - rewrite (Hall a sa) by (by left). by apply NoDup_ids_with_key.
  - intros i Hi Hi'. rewrite (Hall a sa) in Hi by (by left).
    apply list_elem_of_fmap in Hi as (n & -> & [Hn Hk]%with_key_elem).
    apply list_elem_of_In, in_concat in Hi' as (sb & Hsb & Hi').
    apply list_elem_of_In, list_elem_of_fmap in Hsb as ([b sb'] & -> & Hb).
    apply list_elem_of_In in Hi'. cbn [snd] in Hi'.
    rewrite (Hall b sb') in Hi' by (by right).
    apply list_elem_of_fmap in Hi' as (n' & Heq & [Hn' Hk']%with_key_elem).
    assert (n = n') as <- by (by eapply NoDup_ids_inj).
    unfold above in Ha. rewrite Forall_forall in Ha.
    assert (KComp a b = true) as Hab.
    { apply Ha. apply list_elem_of_fmap. by exists (b, sb'). }
    subst. by rewrite KComp_irrefl in Hab.
  - apply IH; [done|]. intros k st Hin. apply Hall. by right.
Qed.

Lemma length_concat_stacks (sm : stacks_map_t K) :
  (∀ k st, (k, st) ∈ sm → st ≠ []) →
  length sm ≤ length (concat (map snd sm)).
Proof.
  induction sm as [|[a sa] r IH]; [done|].
  intros Hall. cbn [map concat snd length]. rewrite length_app.
  assert (sa ≠ []) as Hsa by (apply (Hall a); by left).
  assert (length r ≤ length (concat (map snd r))).
  { apply IH. intros k st Hin. apply (Hall k). by right. }
  destruct sa; [done|]. cbn [length]. lia.
Qed.

(** The invariant kept by the member functions gives the cross-structure
    invariant of the specification. *)
Lemma storage_inv_cross ms sm : storage_inv ms sm → cross_structure_inv ms sm.
Proof.
  intros Hinv. pose proof Hinv as (Hnd & Hs & Hi). split; [|split].
  - apply NoDup_Permutation; [|done|].
    + apply (NoDup_concat_stacks ms); [done..|].
      intros k st Hin. by destruct (storage_inv_elem _ _ _ _ Hinv Hin).
    + intros i. split.
      * intros (st & Hst & Hin)%list_elem_of_In%in_concat.
        apply list_elem_of_In, list_elem_of_fmap in Hst as ([k st'] & -> & Hk).
        apply list_elem_of_In in Hin. cbn [snd] in Hin.
        destruct (storage_inv_elem _ _ _ _ Hinv Hk) as [-> _].
        by apply (ids_with_key_sub k).
      * intros (n & -> & Hn)%list_elem_of_fmap.
        apply list_elem_of_In, in_concat.
        exists (ids (with_key (nkey n) ms)). split.
        -- apply list_elem_of_In, list_elem_of_fmap.
           exists (nkey n, ids (with_key (nkey n) ms)). split; [done|].
           apply map_find_elem; [done|]. rewrite (Hi (nkey n)).
           assert (n ∈ with_key (nkey n) ms) as Hw by (by apply with_key_elem).
           destruct (with_key (nkey n) ms); [by apply elem_of_nil in Hw|done].
        -- apply list_elem_of_In, list_elem_of_fmap. exists n.
           split; [done|]. by apply with_key_elem.
  - intros k. rewrite <- map_find_is_Some by done. rewrite (Hi k). split.
    + intros Hsome. destruct (with_key k ms) as [|n r] eqn:E.
      { by destruct Hsome. }
      exists n. apply with_key_elem. rewrite E. by left.
    + intros (n & Hn & Hk).
      assert (n ∈ with_key k ms) as Hw by (by apply with_key_elem).
      destruct (with_key k ms); [by apply elem_of_nil in Hw|by eexists].
  - intros k st Hin. destruct (storage_inv_elem _ _ _ _ Hinv Hin) as [-> _].
    split; [|done]. unfold ids. by rewrite length_map.
Qed.

Lemma storage_inv_keys_le ms sm : storage_inv ms sm → length sm ≤ length ms.
Proof.
  intros Hinv. destruct (storage_inv_cross _ _ Hinv) as (Hp & _ & _).
  assert (length ms = length (concat (map snd sm))) as ->.
  { rewrite Hp. unfold ids. by rewrite length_map. }
  apply length_concat_stacks. intros k st Hin.
  by destruct (storage_inv_elem _ _ _ _ Hinv Hin).
Qed.

(** The observations depend on the entries only. *)
Lemma storage_inv_find k ms sm :
  storage_inv ms sm →
  map_find k sm = match ids (with_key k ms) with
                  | [] => None
                  | st => Some (k, st)
                  end.
Proof. intros (_ & _ & Hi). apply Hi. Qed.

Lemma with_key_values k ms :
  length (with_key k ms) = length (values_of k (entries ms)).
Proof. rewrite entries_values_of. by rewrite length_map. Qed.

Lemma storage_inv_keys_entries ms sm ms' sm' :
  storage_inv ms sm → storage_inv ms' sm' → entries ms = entries ms' →
  map fst sm = map fst sm'.
Proof.
  intros Hinv Hinv' He.
  apply sorted_keys_ext; [apply Hinv|apply Hinv'|].
  intros k. destruct (storage_inv_cross _ _ Hinv) as (_ & Hk & _).
  destruct (storage_inv_cross _ _ Hinv') as (_ & Hk' & _).
  rewrite Hk, Hk'.
  assert (∀ ms0 : main_stack_t K V,
            (∃ n, n ∈ ms0 ∧ nkey n = k) ↔ k ∈ map fst (entries ms0)) as Hiff.
  { intros ms0. unfold entries. rewrite map_map. cbn [fst].
    rewrite list_elem_of_fmap. split; intros (n & ? & ?); eauto. }
  by rewrite !Hiff, He.
Qed.

End CrossStructure.

Section Observers.
Context {K V : Type} `{KeyOrder K}.
Implicit Types (s : stack) (h : gmap loc (cell K V)) (f : list bool).
Implicit Types (ms : main_stack_t K V) (sm : stacks_map_t K).
Implicit Types (c : config K V) (es : list (K * V)).

Lemma observe_wp {A} (m : M K V A) c o :
  wp m (Config (this c) (World (heap (mem c)) [])) (λ o' _, o' = o) →
  observe m c = o.
Proof. done. Qed.

Lemma wp_quiet_alloc_point s h Q :
  Q (Ret tt) (Config s (World h [])) →
  wp alloc_point (Config s (World h [])) Q.
Proof. done. Qed.

Lemma observe_size s ms sm h f :
  owns h s ms sm → observe size (Config s (World h f)) = Ret (length ms).
Proof.
  intros Hown. apply observe_wp. unfold owns in Hown. unfold size. wp_simpl.
  destruct s as [[l1|] [l2|] sh]; cbn [main_stack stacks_map] in Hown; try done.
  - destruct Hown as (Hne & r & Hh1 & Hh2). wp_pure. cbn [Nat.eqb]. by wp_pure.
  - destruct Hown as [-> ->]. wp_pure. cbn [Nat.eqb]. by wp_pure.
Qed.

Lemma observe_front_const s ms sm h f :
  owns h s ms sm →
  observe front_const (Config s (World h f)) =
    match ms with
    | [] => Throw empty_front_error
    | n :: _ => Ret (nkey n, nval n)
    end.
Proof.
  intros Hown. apply observe_wp. unfold front_const. wp_simpl. wp_pure.
  eapply (check_not_empty_spec _ []); [done|done|..]; intros Hms; wp_simpl.
  { intros f' ->%suffix_nil_inv. by subst. }
  { intros f' _ Hin. by apply elem_of_nil in Hin. }
  unfold owns in Hown.
  destruct s as [[l1|] [l2|] sh]; cbn [main_stack stacks_map] in Hown; try done.
  - destruct Hown as (Hne & r & Hh1 & Hh2). wp_pure. by destruct ms.
  - by destruct Hown as [-> ->].
Qed.

Lemma observe_count k s ms sm h f :
  owns h s ms sm → storage_inv ms sm →
  observe (count k) (Config s (World h f)) =
    Ret (length (values_of k (entries ms))).
Proof.
  intros Hown Hinv. apply observe_wp. unfold owns in Hown. unfold count. wp_simpl.
  destruct s as [[l1|] [l2|] sh]; cbn [main_stack stacks_map] in Hown; try done.
  - destruct Hown as (Hne & r & Hh1 & Hh2). wp_pure. cbn [Nat.eqb]. wp_pure.
    apply wp_quiet_alloc_point. wp_pure.
    rewrite (storage_inv_find k ms sm Hinv), <- with_key_values.
    destruct (with_key k ms) eqn:E; wp_pure; [done|].
    cbn [ids map length]. by rewrite length_map.
  - destruct Hown as [-> ->]. wp_pure. cbn [Nat.eqb]. by wp_pure.
Qed.

Lemma map_next_middle k st (pre suf : stacks_map_t K) :
  keys_sorted (pre ++ (k, st) :: suf) →
  map_next k (pre ++ (k, st) :: suf) = Some (map_begin suf).
Proof.
  induction pre as [|[a sa] pre IH]; cbn [app map_next].
  - intros _. by rewrite KComp_irrefl.
  - intros [Ha Hs]%keys_sorted_cons.
    assert (KComp a k = true) as ->; [|by apply IH].
    unfold above in Ha. rewrite Forall_forall in Ha. apply Ha.
    rewrite map_app. apply elem_of_app. right. by left.
Qed.

Lemma wp_traverse l r (pre suf : stacks_map_t K) fuel s h f Q :
  h !! l = Some (Cell r (OMap (pre ++ suf))) →
  keys_sorted (pre ++ suf) →
  length suf < fuel →
  Q (Ret (map fst suf)) (Config s (World h f)) →
  wp (traverse fuel (ConstIterator (Some (l, map_begin suf)))
                    (ConstIterator (Some (l, AtEnd))))
     (Config s (World h f)) Q.
Proof.
  intros Hl. revert pre fuel Q Hl.
  induction suf as [|[k st] suf IH]; intros pre fuel Q Hl Hs Hfuel HQ;
    (destruct fuel as [|fuel]; [cbn [length] in Hfuel; lia|]); cbn [traverse].
  - unfold iter_eqb. cbn [map_it map_begin]. rewrite Pos.eqb_refl. by wp_pure.
  - unfold iter_eqb. cbn [map_it map_begin]. rewrite Pos.eqb_refl.
    cbn [andb]. unfold iter_deref, iter_incr. cbn [map_it]. wp_pure.
    rewrite map_next_middle by done. wp_pure.
    eapply (IH (pre ++ [(k, st)])).
    + by rewrite <- app_assoc.
    + by rewrite <- app_assoc.
    + cbn [length] in Hfuel. lia.
    + by wp_pure.
Qed.

Lemma observe_keys s ms sm h f :
  owns h s ms sm → storage_inv ms sm →
  observe keys (Config s (World h f)) = Ret (map fst sm).
Proof.
  intros Hown Hinv. apply observe_wp. unfold keys. wp_simpl.
  pose proof (observe_size s ms sm h [] Hown) as Hsize.
  unfold owns in Hown. unfold cbegin, cend.
  destruct s as [[l1|] [l2|] sh]; cbn [main_stack stacks_map] in Hown; try done.
  - destruct Hown as (Hne & r & Hh1 & Hh2). wp_pure.
    unfold size. wp_pure.
    eapply (wp_traverse l2 _ [] sm); [done|apply Hinv| |done].
    pose proof (storage_inv_keys_le _ _ Hinv). lia.
  - destruct Hown as [-> ->]. wp_pure.
    unfold size. wp_pure. cbn [length traverse].
    unfold iter_eqb. cbn [map_it]. by wp_pure.
Qed.

(** The four observations of the specification. *)
Definition obs_eq c c' : Prop :=
  observe size c = observe size c' ∧
  observe front_const c = observe front_const c' ∧
  (∀ k, observe (count k) c = observe (count k) c') ∧
  observe keys c = observe keys c'.

Lemma obs_eq_refl c : obs_eq c c.
Proof. done. Qed.

Lemma holds_obs_eq c c' es : holds c es → holds c' es → obs_eq c c'.
Proof.
  destruct c as [s [h f]], c' as [s' [h' f']].
  intros (ms & sm & Hown & Hinv & He) (ms' & sm' & Hown' & Hinv' & He').
  cbn [this mem heap] in *. subst es. repeat split.
  - rewrite (observe_size _ _ _ _ _ Hown), (observe_size _ _ _ _ _ Hown').
    by rewrite <- !length_entries, He'.
  - rewrite (observe_front_const _ _ _ _ _ Hown),
      (observe_front_const _ _ _ _ _ Hown').
    destruct ms, ms'; try done. by injection He' as -> ->.
  - intros k.
    rewrite (observe_count _ _ _ _ _ _ Hown Hinv),
      (observe_count _ _ _ _ _ _ Hown' Hinv'). by rewrite He'.
  - rewrite (observe_keys _ _ _ _ _ Hown Hinv),
      (observe_keys _ _ _ _ _ Hown' Hinv').
    f_equal. by eapply storage_inv_keys_entries.
Qed.

Lemma obs_eq_unchanged c c' : unchanged c c' → obs_eq c c'.
Proof.
  destruct c as [s [h f]], c' as [s' [h' f']]. unfold unchanged.
  cbn [this mem heap]. intros [-> ->]. done.
Qed.

End Observers.

Section MoreOperations.
Context {K V : Type} `{KeyOrder K}.
Implicit Types (s : stack) (h : gmap loc (cell K V)) (f : list bool).
Implicit Types (ms : main_stack_t K V) (sm : stacks_map_t K).
Implicit Types (c : config K V) (es : list (K * V)).

Lemma find_None_values k ms sm :
  storage_inv ms sm → (map_find k sm = None ↔ values_of k (entries ms) = []).
Proof.
  intros (_ & _ & Hi). rewrite (index_ok_None _ _ _ Hi), entries_values_of.
  destruct (with_key k ms); split; done.
Qed.

Lemma find_Some_values k top st ms sm :
  storage_inv ms sm → map_find k sm = Some (k, top :: st) →
  ∃ n vs, find_node top ms = Some n ∧ nid n = top ∧ nkey n = k ∧
          values_of k (entries ms) = nval n :: vs.
Proof.
  intros Hinv Hf.
  destruct (top_of_key _ _ _ _ _ _ Hinv Hf) as (n & rest & _ & Hw & ? & _ & ? & ?).
  exists n, (map nval rest). rewrite entries_values_of, Hw. done.
Qed.

Lemma pop_key_spec k s ms sm h f :
  owns h s ms sm → storage_inv ms sm →
  wp (pop_key k) (Config s (World h f)) (λ o c',
    faults (mem c') `suffix_of` f ∧
    match o with
    | Ret _ => ∃ l ms1 sm1 ms' sm',
        cow h s true ms sm l ms1 sm1 ms' sm' (this c') (heap (mem c')) ∧
        ∃ top st, map_find k sm1 = Some (k, top :: st) ∧
          ms' = list_erase top ms1 ∧ sm' = drop_top k st sm1
    | Throw e =>
        (e = bad_alloc ∧ true ∈ f ∧
         ((this c' = s ∧ heap (mem c') = h) ∨
          half_built h s (this c') (heap (mem c')))) ∨
        (e = pop_key_error ∧ values_of k (entries ms) = [] ∧
         this c' = s ∧ heap (mem c') = h)
    | _ => False
    end).
Proof.
  intros Hown Hinv. unfold pop_key. eapply wp_mono.
  { eapply (about_to_modify_spec push true (pop_key_body k));
      [apply push_fuel_inplace|apply (pop_key_body_spec k f)|done|].
    intros. by eapply prepared_inv. }
  intros o c' [Hf Hpost]. split; [done|].
  destruct o as [a|e| |]; [done| |done..].
  destruct Hpost as (Hin & [(-> & -> & HE)|(-> & Hb)]); [|left; auto].
  destruct HE as [->|(ms1 & sm1 & Hprep & [->|[-> Hnone]])]; [left; auto..|].
  right. repeat split; try done.
  rewrite <- (prepared_entries _ _ _ _ Hprep).
  apply (find_None_values k ms1 sm1); [by eapply prepared_inv|done].
Qed.

Lemma pop_key_holds k c es :
  holds c es →
  wp (pop_key k) c (λ o c',
    faults (mem c') `suffix_of` faults (mem c) ∧
    match o with
    | Ret _ => values_of k es ≠ [] ∧ holds c' (remove_first k es) ∧
        shareable (this c') = true
    | Throw e =>
        (e = bad_alloc ∧ true ∈ faults (mem c) ∧
         (unchanged c c' ∨ half_built_from c c')) ∨
        (e = pop_key_error ∧ values_of k es = [] ∧ unchanged c c')
    | _ => False
    end).
Proof.
  destruct c as [s [h f]]. intros (ms & sm & Hown & Hinv & <-).
  eapply wp_mono; [by apply pop_key_spec|].
  intros o [s' [h' f']]. wp_simpl. intros [Hf Hpost]. split; [done|].
  destruct o as [a|e| |]; [| |done..].
  - destruct Hpost as (l & ms1 & sm1 & ms' & sm' & Hcow & top & st & Hfind & -> & ->).
    pose proof (cow_prepared _ _ _ _ _ _ _ _ _ _ _ _ Hcow) as Hprep.
    pose proof (prepared_inv _ _ _ _ Hinv Hprep) as Hinv1.
    destruct (pop_key_inv _ _ _ _ _ _ Hinv1 Hfind) as [Hinv' He'].
    destruct (find_Some_values _ _ _ _ _ Hinv1 Hfind) as (n & vs & _ & _ & _ & Hv).
    rewrite <- (prepared_entries _ _ _ _ Hprep). split; [by rewrite Hv|].
    split; [by eapply cow_holds|].
    by destruct (cow_shareable _ _ _ _ _ _ _ _ _ _ _ _ Hcow).
  - destruct Hpost as [(-> & ? & Hcase)|(-> & ? & -> & ->)]; [left|by right].
    repeat split; done.
Qed.

Lemma observe_load l i n s ms sm h f :
  owns h s ms sm → main_stack s = Some l → find_node i ms = Some n →
  observe (load (l, i)) (Config s (World h f)) = Ret (nval n).
Proof.
  intros Hown Hl Hn. apply observe_wp. unfold owns in Hown. rewrite Hl in Hown.
  destruct (stacks_map s) as [l2|]; [|done].
  destruct Hown as (Hne & r & Hh1 & Hh2).
  unfold load. wp_simpl. wp_pure. rewrite Hn. by wp_pure.
Qed.

Lemma front_spec s ms sm h f :
  owns h s ms sm → storage_inv ms sm →
  wp front (Config s (World h f)) (λ o c',
    faults (mem c') `suffix_of` f ∧
    match o with
    | Ret a => ∃ l ms1 sm1,
        cow h s false ms sm l ms1 sm1 ms1 sm1 (this c') (heap (mem c')) ∧
        ∃ n r, ms1 = n :: r ∧ a = (nkey n, (l, nid n))
    | Throw e => this c' = s ∧ heap (mem c') = h ∧
        ((e = empty_front_error ∧ ms = []) ∨ (e = bad_alloc ∧ true ∈ f))
    | _ => False
    end).
Proof.
  intros Hown Hinv. unfold front. wp_pure.
  eapply (check_not_empty_spec _ f); [done|done|..]; intros Hms; wp_simpl.
  { intros f' Hf'. repeat split; auto. }
  { intros f' Hf' Hin. repeat split; auto. }
  eapply wp_mono.
  { eapply (about_to_modify_spec push false front_body);
      [apply push_fuel_inplace|apply (front_body_spec f)|done|].
    intros ms1 sm1 Hprep. split; [by eapply prepared_inv|].
    apply prepared_entries in Hprep. intros ->. by destruct ms. }
  intros o c' [Hf Hpost]. split; [done|].
  destruct o as [a|e| |]; [| |done..].
  - destruct Hpost as (l & ms1 & sm1 & ms' & sm' & Hcow & -> & -> & Hn).
    by exists l, ms1, sm1.
  - destruct Hpost as (Hin & [(-> & -> & [->|(? & ? & _ & [])])|(-> & Hb)]); auto.
    + repeat split; auto.
    + destruct Hb as (Hnull & _). unfold owns in Hown. rewrite Hnull in Hown.
      destruct (stacks_map s); [done|]. by destruct Hown.
Qed.

Lemma front_key_spec k s ms sm h f :
  owns h s ms sm → storage_inv ms sm →
  wp (front_key k) (Config s (World h f)) (λ o c',
    faults (mem c') `suffix_of` f ∧
    match o with
    | Ret a => ∃ l ms1 sm1,
        cow h s false ms sm l ms1 sm1 ms1 sm1 (this c') (heap (mem c')) ∧
        ∃ top st, map_find k sm1 = Some (k, top :: st) ∧ a = (l, top)
    | Throw e =>
        (e = bad_alloc ∧ true ∈ f ∧
         ((this c' = s ∧ heap (mem c') = h) ∨
          half_built h s (this c') (heap (mem c')))) ∨
        (e = front_key_error ∧ values_of k (entries ms) = [] ∧
         this c' = s ∧ heap (mem c') = h)
    | _ => False
    end).
Proof.
  intros Hown Hinv. unfold front_key. eapply wp_mono.
  { eapply (about_to_modify_spec push false (front_key_body k));
      [apply push_fuel_inplace|apply (front_key_body_spec k f)|done|].
    intros. by eapply prepared_inv. }
  intros o c' [Hf Hpost]. split; [done|].
  destruct o as [a|e| |]; [| |done..].
  - destruct Hpost as (l & ms1 & sm1 & ms' & sm' & Hcow & -> & -> & Hn).
    by exists l, ms1, sm1.
  - destruct Hpost as (Hin & [(-> & -> & HE)|(-> & Hb)]); [|left; auto].
    destruct HE as [->|(ms1 & sm1 & Hprep & [->|[-> Hnone]])]; [left; auto..|].
    right. repeat split; try done.
    rewrite <- (prepared_entries _ _ _ _ Hprep).
    apply (find_None_values k ms1 sm1); [by eapply prepared_inv|done].
Qed.

Lemma front_holds c es :
  holds c es →
  wp front c (λ o c',
    faults (mem c') `suffix_of` faults (mem c) ∧
    match o with
    | Ret (k, r) => ∃ v es', es = (k, v) :: es' ∧ holds c' es ∧
        observe (load r) c' = Ret v ∧ shareable (this c') = false
    | Throw e => unchanged c c' ∧
        ((e = empty_front_error ∧ es = []) ∨
         (e = bad_alloc ∧ true ∈ faults (mem c)))
    | _ => False
    end).
Proof.
  destruct c as [s [h f]]. intros (ms & sm & Hown & Hinv & <-).
  eapply wp_mono; [by apply front_spec|].
  intros o [s' [h' f']]. wp_simpl. intros [Hf Hpost]. split; [done|].
  destruct o as [[k r]|e| |]; [| |done..].
  - destruct Hpost as (l & ms1 & sm1 & Hcow & n & rest & -> & [= -> ->]).
    pose proof (cow_prepared _ _ _ _ _ _ _ _ _ _ _ _ Hcow) as Hprep.
    pose proof (prepared_inv _ _ _ _ Hinv Hprep) as Hinv1.
    pose proof (prepared_entries _ _ _ _ Hprep) as He.
    destruct (cow_shareable _ _ _ _ _ _ _ _ _ _ _ _ Hcow) as [Hsh Hl].
    exists (nval n), (entries rest). split; [by rewrite <- He|].
    split; [by eapply cow_holds|]. split; [|done].
    eapply observe_load; [by eapply cow_owns|done|].
    cbn [find_node]. by rewrite Nat.eqb_refl.
  - destruct Hpost as (-> & -> & Hcase). split; [done|].
    destruct Hcase as [[-> ->]|(-> & ?)]; [by left|by right].
Qed.

Lemma front_key_holds k c es :
  holds c es →
  wp (front_key k) c (λ o c',
    faults (mem c') `suffix_of` faults (mem c) ∧
    match o with
    | Ret r => ∃ v vs, values_of k es = v :: vs ∧ holds c' es ∧
        observe (load r) c' = Ret v ∧ shareable (this c') = false
    | Throw e =>
        (e = bad_alloc ∧ true ∈ faults (mem c) ∧
         (unchanged c c' ∨ half_built_from c c')) ∨
        (e = front_key_error ∧ values_of k es = [] ∧ unchanged c c')
    | _ => False
    end).
Proof.
  destruct c as [s [h f]]. intros (ms & sm & Hown & Hinv & <-).
  eapply wp_mono; [by apply front_key_spec|].
  intros o [s' [h' f']]. wp_simpl. intros [Hf Hpost]. split; [done|].
  destruct o as [r|e| |]; [| |done..].
  - destruct Hpost as (l & ms1 & sm1 & Hcow & top & st & Hfind & ->).
    pose proof (cow_prepared _ _ _ _ _ _ _ _ _ _ _ _ Hcow) as Hprep.
    pose proof (prepared_inv _ _ _ _ Hinv Hprep) as Hinv1.
    pose proof (prepared_entries _ _ _ _ Hprep) as He.
    destruct (cow_shareable _ _ _ _ _ _ _ _ _ _ _ _ Hcow) as [Hsh Hl].
    destruct (find_Some_values _ _ _ _ _ Hinv1 Hfind) as (n & vs & Hn & _ & _ & Hv).
    exists (nval n), vs. split; [by rewrite <- He|].
    split; [by eapply cow_holds|]. split; [|done].
    eapply observe_load; [by eapply cow_owns|done|done].
  - destruct Hpost as [(-> & ? & Hcase)|(-> & ? & -> & ->)]; [left|by right].
    repeat split; done.
Qed.

End MoreOperations.

Section Abstract.
Context {K V : Type} `{KeyOrder K}.

(** The first entry of key [k] given the value [v]. *)
Fixpoint assign_first (k : K) (v : V) (es : list (K * V)) : list (K * V) :=
  match es with
  | [] => []
  | e :: r => if key_eqb e.1 k then (e.1, v) :: r else e :: assign_first k v r
  end.

(** The stack of the specification: the list of its entries, newest
    first.  [None] is a call that fails with its error, leaving the list
    as it is. *)
Definition apply_mutation (m : mutation K V) (es : list (K * V)) :
    option (list (K * V)) :=
  match m with
  | MPush k v => Some ((k, v) :: es)
  | MPop => match es with [] => None | _ :: r => Some r end
  | MPopKey k =>
      match values_of k es with [] => None | _ :: _ => Some (remove_first k es) end
  | MClear => Some []
  | MFront => match es with [] => None | _ :: _ => Some es end
  | MFrontKey k => match values_of k es with [] => None | _ :: _ => Some es end
  | MSetFront v => match es with [] => None | (k, _) :: r => Some ((k, v) :: r) end
  | MSetFrontKey k v =>
      match values_of k es with [] => None | _ :: _ => Some (assign_first k v es) end
  end.

(** The error a call fails with when the specification says it fails. *)
Definition mutation_error (m : mutation K V) : exn :=
  match m with
  | MPush _ _ => bad_alloc
  | MPop => empty_stack_error
  | MPopKey _ => pop_key_error
  | MClear => bad_alloc
  | MFront => empty_front_error
  | MFrontKey _ => front_key_error
  | MSetFront _ => empty_front_error
  | MSetFrontKey _ _ => front_key_error
  end.
End Abstract.

Section Assign.
Context {K V : Type} `{KeyOrder K}.
Implicit Types (s : stack) (h : gmap loc (cell K V)) (f : list bool).
Implicit Types (ms : main_stack_t K V) (sm : stacks_map_t K).
Implicit Types (c : config K V) (es : list (K * V)).

Lemma list_assign_ids i (v : V) ms : ids (list_assign i v ms) = ids ms.
Proof.
  induction ms as [|n r IH]; [done|]. cbn [list_assign].
  destruct (Nat.eqb (nid n) i); [done|]. rewrite !ids_cons. by rewrite IH.
Qed.

Lemma list_assign_with_key i (v : V) k ms :
  ids (with_key k (list_assign i v ms)) = ids (with_key k ms).
Proof.
  induction ms as [|n r IH]; [done|]. cbn [list_assign].
  destruct (Nat.eqb (nid n) i); rewrite !with_key_cons; cbn [nkey].
  - by destruct (key_eqb (nkey n) k).
  - destruct (key_eqb (nkey n) k); [|done]. rewrite !ids_cons. by rewrite IH.
Qed.

Lemma list_assign_inv i (v : V) ms sm :
  storage_inv ms sm → storage_inv (list_assign i v ms) sm.
Proof.
  intros (Hnd & Hs & Hi). split; [by rewrite list_assign_ids|]. split; [done|].
  intros k. rewrite list_assign_with_key. apply Hi.
Qed.

Lemma list_assign_first k n rest (v : V) ms :
  NoDup (ids ms) → with_key k ms = n :: rest →
  entries (list_assign (nid n) v ms) = assign_first k v (entries ms).
Proof.
  induction ms as [|m r IH]; [done|]. rewrite ids_cons, with_key_cons.
  intros [Hm Hr]%NoDup_cons. cbn [list_assign entries map assign_first fst].
  destruct (key_eqb (nkey m) k) eqn:Ek.
  - intros [= -> <-]. by rewrite Nat.eqb_refl.
  - intros Hw.
    assert (n ∈ r ∧ nkey n = k) as [Hin Hk].
    { apply with_key_elem. rewrite Hw. by left. }
    assert (Nat.eqb (nid m) (nid n) = false) as ->.
    { apply Nat.eqb_neq. intros E. destruct Hm. rewrite E.
      apply list_elem_of_fmap. eauto. }
    cbn [map]. f_equal. by apply IH.
Qed.

Lemma wp_assign l i (v : V) r n ms s h f Q :
  h !! l = Some (Cell r (OList ms)) → find_node i ms = Some n →
  Q (Ret tt) (Config s (World (<[l := Cell r (OList (list_assign i v ms))]> h) f)) →
  wp (assign (l, i) v) (Config s (World h f)) Q.
Proof.
  intros Hl Hn HQ. unfold assign. wp_simpl. wp_pure. rewrite Hn. by wp_pure.
Qed.

Lemma cow_assign h s mark ms sm l ms1 sm1 ms' sm' s' h' :
  cow h s mark ms sm l ms1 sm1 ms' sm' s' h' →
  h' !! l = Some (Cell 1 (OList ms')) ∧
  ∀ ms'', cow h s mark ms sm l ms1 sm1 ms'' sm' s'
            (<[l := Cell 1 (OList ms'')]> h').
Proof.
  destruct 1; (split; [heap_lookup|]); intros ms''; rewrite insert_insert_eq;
    by econstructor.
Qed.

Lemma set_front_spec v s ms sm h f :
  owns h s ms sm → storage_inv ms sm →
  wp (set_front v) (Config s (World h f)) (λ o c',
    faults (mem c') `suffix_of` f ∧
    match o with
    | Ret _ => ∃ l ms1 sm1 n r, ms1 = n :: r ∧
        cow h s false ms sm l ms1 sm1 (list_assign (nid n) v ms1) sm1
            (this c') (heap (mem c'))
    | Throw e => this c' = s ∧ heap (mem c') = h ∧
        ((e = empty_front_error ∧ ms = []) ∨ (e = bad_alloc ∧ true ∈ f))
    | _ => False
    end).
Proof.
  intros Hown Hinv. unfold set_front. wp_pure. eapply wp_mono.
  { by apply front_spec. }
  intros o [s' [h' f']]. wp_simpl. intros [Hf Hpost].
  destruct o as [[k r]|e| |]; [| |done..]; [|done].
  destruct Hpost as (l & ms1 & sm1 & Hcow & n & rest & -> & [= -> ->]).
  destruct (cow_assign _ _ _ _ _ _ _ _ _ _ _ _ Hcow) as [Hl Hupd].
  wp_simpl. eapply wp_assign; [done|cbn [find_node]; by rewrite Nat.eqb_refl|].
  split; [done|]. exists l, (n :: rest), sm1, n, rest. split; [done|].
  apply Hupd.
Qed.

Lemma set_front_key_spec k v s ms sm h f :
  owns h s ms sm → storage_inv ms sm →
  wp (set_front_key k v) (Config s (World h f)) (λ o c',
    faults (mem c') `suffix_of` f ∧
    match o with
    | Ret _ => ∃ l ms1 sm1 top st,
        map_find k sm1 = Some (k, top :: st) ∧
        cow h s false ms sm l ms1 sm1 (list_assign top v ms1) sm1
            (this c') (heap (mem c'))
    | Throw e =>
        (e = bad_alloc ∧ true ∈ f ∧
         ((this c' = s ∧ heap (mem c') = h) ∨
          half_built h s (this c') (heap (mem c')))) ∨
        (e = front_key_error ∧ values_of k (entries ms) = [] ∧
         this c' = s ∧ heap (mem c') = h)
    | _ => False
    end).
Proof.
  intros Hown Hinv. unfold set_front_key. wp_pure. eapply wp_mono.
  { by apply front_key_spec. }
  intros o [s' [h' f']]. wp_simpl. intros [Hf Hpost].
  destruct o as [r|e| |]; [| |done..]; [|done].
  destruct Hpost as (l & ms1 & sm1 & Hcow & top & st & Hfind & ->).
  destruct (cow_assign _ _ _ _ _ _ _ _ _ _ _ _ Hcow) as [Hl Hupd].
  pose proof (cow_prepared _ _ _ _ _ _ _ _ _ _ _ _ Hcow) as Hprep.
  pose proof (prepared_inv _ _ _ _ Hinv Hprep) as Hinv1.
  destruct (find_Some_values _ _ _ _ _ Hinv1 Hfind) as (n & vs & Hn & _ & _ & _).
  eapply wp_assign; [done|done|].
  split; [done|]. exists l, ms1, sm1, top, st. split; [done|]. apply Hupd.
Qed.

(** What [clear] (and the destructor) does to the heap. *)
Inductive released h s ms sm : gmap loc (cell K V) → Prop :=
  | released_null :
      main_stack s = None → stacks_map s = None → released h s ms sm h
  | released_last l1 l2 :
      main_stack s = Some l1 → stacks_map s = Some l2 → l1 ≠ l2 →
      h !! l1 = Some (Cell 1 (OList ms)) →
      h !! l2 = Some (Cell 1 (OMap sm)) →
      released h s ms sm (delete l2 (delete l1 h))
  | released_shared l1 l2 r :
      main_stack s = Some l1 → stacks_map s = Some l2 → l1 ≠ l2 →
      h !! l1 = Some (Cell (S (S r)) (OList ms)) →
      h !! l2 = Some (Cell (S (S r)) (OMap sm)) →
      released h s ms sm
        (<[l2 := Cell (S r) (OMap sm)]> (<[l1 := Cell (S r) (OList ms)]> h)).

Lemma clear_spec s ms sm h f :
  owns h s ms sm →
  wp clear (Config s (World h f)) (λ o c',
    o = Ret tt ∧ faults (mem c') = f ∧ this c' = Stack None None true ∧
    released h s ms sm (heap (mem c'))).
Proof.
  intros Hown. unfold owns in Hown. unfold clear.
  destruct s as [[l1|] [l2|] sh]; cbn [main_stack stacks_map] in Hown; try done.
  - destruct Hown as (Hne & [|r] & Hh1 & Hh2); wp_pure.
    + repeat split; try done. by eapply released_last.
    + repeat split; try done. by eapply released_shared.
  - destruct Hown as [-> ->]. wp_pure. repeat split; try done. by constructor.
Qed.

End Assign.

Section Refinement.
Context {K V : Type} `{KeyOrder K}.
Implicit Types (s : stack) (h : gmap loc (cell K V)) (f : list bool).
Implicit Types (ms : main_stack_t K V) (sm : stacks_map_t K).
Implicit Types (c : config K V) (es : list (K * V)).

(** How a call that ends normally leaves the object and the heap. *)
Inductive step_shape h s ms sm :
    stack → gmap loc (cell K V) → main_stack_t K V → stacks_map_t K → Prop :=
  | shape_cow mark l ms1 sm1 ms' sm' s' h' :
      cow h s mark ms sm l ms1 sm1 ms' sm' s' h' →
      step_shape h s ms sm s' h' ms' sm'
  | shape_released h' :
      released h s ms sm h' →
      step_shape h s ms sm (Stack None None true) h' [] [].

Lemma step_shape_owns h s ms sm s' h' ms' sm' :
  step_shape h s ms sm s' h' ms' sm' → owns h' s' ms' sm'.
Proof. destruct 1; [by eapply cow_owns|done]. Qed.

(** Every mutation, on the level of the heap. *)
Theorem mutation_spec (m : mutation K V) s ms sm h f :
  owns h s ms sm → storage_inv ms sm →
  wp (run_mutation m) (Config s (World h f)) (λ o c',
    faults (mem c') `suffix_of` f ∧
    match o with
    | Ret _ => ∃ ms' sm',
        step_shape h s ms sm (this c') (heap (mem c')) ms' sm' ∧
        storage_inv ms' sm' ∧
        apply_mutation m (entries ms) = Some (entries ms')
    | Throw e =>
        (e = bad_alloc ∧ true ∈ f ∧
         ((this c' = s ∧ heap (mem c') = h) ∨
          half_built h s (this c') (heap (mem c')))) ∨
        (e = mutation_error m ∧ e ≠ bad_alloc ∧
         apply_mutation m (entries ms) = None ∧
         this c' = s ∧ heap (mem c') = h)
    | _ => False
    end).
Proof.
  intros Hown Hinv. destruct m as [k v| |k| | |k|v|k v]; cbn [run_mutation].
  - eapply wp_mono; [by apply push_spec|].
    intros o [s' [h' f']]. wp_simpl. intros [Hf Hpost]. split; [done|].
    destruct o as [a|e| |]; [| |done..]; [|left; tauto].
    destruct Hpost as (l & ms1 & sm1 & ms' & sm' & Hcow & Hp).
    pose proof (cow_prepared _ _ _ _ _ _ _ _ _ _ _ _ Hcow) as Hprep.
    pose proof (prepared_inv _ _ _ _ Hinv Hprep) as Hinv1.
    pose proof (pure_push_inv k v ms1 sm1 Hinv1) as Hinv'.
    rewrite <- Hp in Hinv'. cbn [fst snd] in Hinv'.
    exists ms', sm'. split; [by econstructor|]. split; [done|].
    cbn [apply_mutation]. f_equal.
    replace ms' with (pure_push k v (ms1, sm1)).1 by (by rewrite <- Hp).
    rewrite pure_push_entries. cbn [fst]. f_equal.
    symmetry. by eapply prepared_entries.
  - eapply wp_mono; [by apply pop_spec|].
    intros o [s' [h' f']]. wp_simpl. intros [Hf Hpost]. split; [done|].
    destruct o as [a|e| |]; [| |done..].
    + destruct Hpost as (l & ms1 & sm1 & ms' & sm' & Hcow & n & st & -> & Hfind & ->).
      pose proof (cow_prepared _ _ _ _ _ _ _ _ _ _ _ _ Hcow) as Hprep.
      pose proof (prepared_inv _ _ _ _ Hinv Hprep) as Hinv1.
      destruct (pop_inv _ _ _ Hinv1) as (st' & Hfind' & Hinv').
      rewrite Hfind in Hfind'. injection Hfind' as <-.
      eexists _, _. split; [by econstructor|]. split; [done|].
      by rewrite <- (prepared_entries _ _ _ _ Hprep).
    + destruct Hpost as (-> & -> & [[-> ->]|(-> & ?)]); [right|left; tauto].
      repeat split; done.
  - eapply wp_mono; [by apply pop_key_spec|].
    intros o [s' [h' f']]. wp_simpl. intros [Hf Hpost]. split; [done|].
    destruct o as [a|e| |]; [| |done..].
    + destruct Hpost as (l & ms1 & sm1 & ms' & sm' & Hcow & top & st & Hfind & -> & ->).
      pose proof (cow_prepared _ _ _ _ _ _ _ _ _ _ _ _ Hcow) as Hprep.
      pose proof (prepared_inv _ _ _ _ Hinv Hprep) as Hinv1.
      destruct (pop_key_inv _ _ _ _ _ _ Hinv1 Hfind) as [Hinv' He'].
      destruct (find_Some_values _ _ _ _ _ Hinv1 Hfind) as (n & vs & _ & _ & _ & Hv).
      eexists _, _. split; [by econstructor|]. split; [done|].
      cbn [apply_mutation]. rewrite <- (prepared_entries _ _ _ _ Hprep), Hv.
      by rewrite He'.
    + destruct Hpost as [?|(-> & Hv & -> & ->)]; [by left|right].
      cbn [apply_mutation]. rewrite Hv. repeat split; done.
  - eapply wp_mono; [by apply clear_spec|].
    intros o [s' [h' f']]. wp_simpl. intros (-> & -> & -> & Hrel).
    split; [done|]. exists [], []. split; [by constructor|].
    split; [apply storage_inv_nil|done].
  - wp_pure. eapply wp_mono; [by apply front_spec|].
    intros o [s' [h' f']]. wp_simpl. intros [Hf Hpost].
    destruct o as [a|e| |]; [| |done..].
    + destruct Hpost as (l & ms1 & sm1 & Hcow & n & r & -> & _). wp_pure.
      split; [done|].
      pose proof (cow_prepared _ _ _ _ _ _ _ _ _ _ _ _ Hcow) as Hprep.
      pose proof (prepared_inv _ _ _ _ Hinv Hprep) as Hinv1.
      eexists _, _. split; [by econstructor|]. split; [done|].
      by rewrite <- (prepared_entries _ _ _ _ Hprep).
    + split; [done|].
      destruct Hpost as (-> & -> & [[-> ->]|(-> & ?)]); [right|left; tauto].
      repeat split; done.
  - wp_pure. eapply wp_mono; [by apply front_key_spec|].
    intros o [s' [h' f']]. wp_simpl. intros [Hf Hpost].
    destruct o as [a|e| |]; [| |done..].
    + destruct Hpost as (l & ms1 & sm1 & Hcow & top & st & Hfind & _). wp_pure.
      split; [done|].
      pose proof (cow_prepared _ _ _ _ _ _ _ _ _ _ _ _ Hcow) as Hprep.
      pose proof (prepared_inv _ _ _ _ Hinv Hprep) as Hinv1.
      destruct (find_Some_values _ _ _ _ _ Hinv1 Hfind) as (n' & vs & _ & _ & _ & Hv).
      eexists _, _. split; [by econstructor|]. split; [done|].
      cbn [apply_mutation]. by rewrite <- (prepared_entries _ _ _ _ Hprep), Hv.
    + split; [done|].
      destruct Hpost as [?|(-> & Hv & -> & ->)]; [by left|right].
      cbn [apply_mutation]. rewrite Hv. repeat split; done.
  - eapply wp_mono; [by apply set_front_spec|].
    intros o [s' [h' f']]. wp_simpl. intros [Hf Hpost]. split; [done|].
    destruct o as [a|e| |]; [| |done..].
    + destruct Hpost as (l & ms1 & sm1 & n & r & -> & Hcow).
      pose proof (cow_prepared _ _ _ _ _ _ _ _ _ _ _ _ Hcow) as Hprep.
      pose proof (prepared_inv _ _ _ _ Hinv Hprep) as Hinv1.
      eexists _, _. split; [by econstructor|].
      split; [by apply list_assign_inv|].
      rewrite <- (prepared_entries _ _ _ _ Hprep).
      cbn [apply_mutation entries map list_assign]. by rewrite Nat.eqb_refl.
    + destruct Hpost as (-> & -> & [[-> ->]|(-> & ?)]); [right|left; tauto].
      repeat split; done.
  - eapply wp_mono; [by apply set_front_key_spec|].
    intros o [s' [h' f']]. wp_simpl. intros [Hf Hpost]. split; [done|].
    destruct o as [a|e| |]; [| |done..].
    + destruct Hpost as (l & ms1 & sm1 & top & st & Hfind & Hcow).
      pose proof (cow_prepared _ _ _ _ _ _ _ _ _ _ _ _ Hcow) as Hprep.
      pose proof (prepared_inv _ _ _ _ Hinv Hprep) as Hinv1.
      destruct (top_of_key _ _ _ _ _ _ Hinv1 Hfind)
        as (n & rest & _ & Hw & <- & _ & _ & _).
      destruct (find_Some_values _ _ _ _ _ Hinv1 Hfind) as (n' & vs & _ & _ & _ & Hv).
      eexists _, _. split; [by econstructor|].
      split; [by apply list_assign_inv|].
      cbn [apply_mutation]. rewrite <- (prepared_entries _ _ _ _ Hprep), Hv.
      f_equal. symmetry. eapply list_assign_first; [apply Hinv1|done].
    + destruct Hpost as [?|(-> & Hv & -> & ->)]; [by left|right].
      cbn [apply_mutation]. rewrite Hv. repeat split; done.
Qed.

(** The stack refines the list of its entries: a call that returns has
    done to the entries what the specification says, a call that throws
    has changed nothing, but for an object without storage whose second
    allocation fails. *)
Theorem mutation_holds (m : mutation K V) c es :
  holds c es →
  wp (run_mutation m) c (λ o c',
    faults (mem c') `suffix_of` faults (mem c) ∧
    match o with
    | Ret _ => ∃ es', apply_mutation m es = Some es' ∧ holds c' es'
    | Throw e =>
        (e = bad_alloc ∧ true ∈ faults (mem c) ∧
         (unchanged c c' ∨ half_built_from c c')) ∨
        (e = mutation_error m ∧ e ≠ bad_alloc ∧
         apply_mutation m es = None ∧ unchanged c c')
    | _ => False
    end).
Proof.
  destruct c as [s [h f]]. intros (ms & sm & Hown & Hinv & <-).
  eapply wp_mono; [by apply mutation_spec|].
  intros o [s' [h' f']]. wp_simpl. intros [Hf Hpost]. split; [done|].
  destruct o as [a|e| |]; [| |done..].
  - destruct Hpost as (ms' & sm' & Hshape & Hinv' & Happ).
    exists (entries ms'). split; [done|]. exists ms', sm'.
    split; [by eapply step_shape_owns|done].
  - destruct Hpost as [(-> & ? & Hcase)|(-> & ? & ? & -> & ->)]; [left|by right].
    repeat split; done.
Qed.

End Refinement.

Section Copies.
Context {K V : Type} `{KeyOrder K}.
Implicit Types (s : stack) (h : gmap loc (cell K V)) (f : list bool).
Implicit Types (ms : main_stack_t K V) (sm : stacks_map_t K).
Implicit Types (c : config K V) (es : list (K * V)).

(** What the copy constructor builds from [other], and what it does to
    the heap. *)
Inductive copied h (other : stack) ms sm : stack → gmap loc (cell K V) → Prop :=
  | copied_null :
      shareable other = true →
      main_stack other = None → stacks_map other = None →
      copied h other ms sm (Stack None None true) h
  | copied_alias l1 l2 r :
      shareable other = true →
      main_stack other = Some l1 → stacks_map other = Some l2 → l1 ≠ l2 →
      h !! l1 = Some (Cell (S r) (OList ms)) →
      h !! l2 = Some (Cell (S r) (OMap sm)) →
      copied h other ms sm (Stack (Some l1) (Some l2) true)
        (<[l2 := Cell (S (S r)) (OMap sm)]>
           (<[l1 := Cell (S (S r)) (OList ms)]> h))
  | copied_deep l1 l2 :
      shareable other = false →
      h !! l1 = None → h !! l2 = None → l1 ≠ l2 →
      copied h other ms sm (Stack (Some l1) (Some l2) true)
        (<[l1 := Cell 1 (OList (replay ms).1)]>
           (<[l2 := Cell 1 (OMap (replay ms).2)]> h)).

Lemma stack_copy_spec other s0 ms sm h f :
  owns h other ms sm →
  wp (stack_copy other) (Config s0 (World h f)) (λ o c',
    faults (mem c') `suffix_of` f ∧
    match o with
    | Ret _ => copied h other ms sm (this c') (heap (mem c'))
    | Throw e => e = bad_alloc ∧ true ∈ f ∧ shareable other = false ∧
        heap (mem c') = h
    | _ => False
    end).
Proof.
  intros Hown. unfold stack_copy. wp_pure.
  destruct (shareable other) eqn:Hsh.
  - unfold owns in Hown. unfold assign_main_stack, assign_stacks_map.
    destruct other as [[l1|] [l2|] sh]; cbn [main_stack stacks_map] in *; try done.
    + destruct Hown as (Hne & r & Hh1 & Hh2). wp_pure.
      split; [done|]. by eapply copied_alias.
    + destruct Hown as [-> ->]. wp_pure. split; [done|]. by constructor.
  - unfold reset_main_stack_fresh, reset_stacks_map_fresh, destroy_members.
    wp_pure. apply (wp_make_shared f); [done|..].
    { intros f' Hf' Hin. wp_pure. done. }
    intros f1 l1 Hf1 Hl1. wp_pure.
    apply (wp_make_shared f); [done|..].
    { intros f' Hf' Hin. wp_pure. repeat split; try done. heap_eq. }
    intros f2 l2 Hf2 Hl2. wp_pure.
    apply lookup_insert_None in Hl2 as [Hl2 Hne].
    eapply wp_mono.
    { eapply (copy_fresh push other l1 l2 ms); first
        [ apply push_fuel_inplace | exact Hf2 | done | heap_lookup | idtac ].
      unfold owns in Hown.
      destruct (main_stack other) as [lo|], (stacks_map other) as [lo'|];
        try done; [|by destruct Hown].
      destruct Hown as (_ & r & Hlo & _). exists r.
      assert (lo ≠ l1) by (intros ->; congruence).
      assert (lo ≠ l2) by (intros ->; congruence).
      heap_lookup. }
    intros o [s' [h' f3]]. wp_simpl. intros (Hf3 & -> & Hpost).
    destruct o as [a|e| |]; [| |done..].
    + subst h'. wp_pure. split; [done|].
      replace (<[l1:=_]> (<[l2:=_]> (<[l2:=_]> (<[l1:=_]> h))))
        with (<[l1 := Cell 1 (OList (replay ms).1)]>
                (<[l2 := Cell 1 (OMap (replay ms).2)]> h)) by heap_eq.
      by constructor.
    + destruct Hpost as (-> & Hin & ms' & sm' & ->). wp_pure.
      repeat split; try done. heap_eq.
Qed.

(** Two objects either hold the same storage, which then has at least two
    owners, or have nothing in common. *)
Definition locs_of s (l : loc) : Prop :=
  main_stack s = Some l ∨ stacks_map s = Some l.

Definition aliased (A B : stack) : Prop :=
  main_stack A = main_stack B ∧ stacks_map A = stacks_map B.

Definition separate (A B : stack) : Prop := ∀ l, locs_of A l → ¬ locs_of B l.

Definition compat h (A B : stack) : Prop :=
  (aliased A B ∧
   ∀ l x, main_stack A = Some l → h !! l = Some x → 2 ≤ refs x) ∨
  separate A B.

Lemma compat_sym h A B : compat h A B → compat h B A.
Proof.
  intros [[[H1 H2] Hr]|Hsep]; [left|right].
  - split; [by split|]. intros l x Hl. apply Hr. by rewrite H1.
  - intros l HB HA. by apply (Hsep l).
Qed.

Lemma owns_locs h s ms sm l :
  owns h s ms sm → locs_of s l → is_Some (h !! l).
Proof.
  unfold owns, locs_of. intros Hown [Hl|Hl]; rewrite Hl in Hown.
  - destruct (stacks_map s); [|done]. destruct Hown as (_ & r & -> & _). eauto.
  - destruct (main_stack s); [|done]. destruct Hown as (_ & r & _ & ->). eauto.
Qed.

Lemma owns_fresh h s ms sm l x :
  owns h s ms sm → h !! l = None → owns (<[l := x]> h) s ms sm.
Proof.
  unfold owns. intros Hown Hl.
  destruct (main_stack s) as [l1|], (stacks_map s) as [l2|]; try done.
  destruct Hown as (Hne & r & Hh1 & Hh2). split; [done|]. exists r.
  assert (l ≠ l1) by (intros ->; congruence).
  assert (l ≠ l2) by (intros ->; congruence).
  split; heap_lookup.
Qed.

Lemma separate_fresh h l1 l2 sh B ms sm :
  owns h B ms sm → h !! l1 = None → h !! l2 = None →
  separate (Stack (Some l1) (Some l2) sh) B.
Proof.
  intros Hown H1 H2 l [Hl|Hl] HB; cbn in Hl; simplify_eq;
    destruct (owns_locs _ _ _ _ _ Hown HB) as [x Hx]; congruence.
Qed.

(** A call on [A] that ends normally leaves every compatible object [B]
    with what it had, and [A] with storage of its own. *)
Lemma cow_frame h A mark ms sm l ms1 sm1 ms' sm' A' h' B msB smB :
  cow h A mark ms sm l ms1 sm1 ms' sm' A' h' →
  owns h B msB smB → compat h A B →
  owns h' B msB smB ∧ separate A' B.
Proof.
  intros Hcow HB Hcompat. destruct Hcow.
  - (* in place *)
    assert (separate A B) as Hsep.
    { destruct Hcompat as [[_ Hr]|?]; [|done].
      specialize (Hr l1 _ ltac:(done) ltac:(done)). cbn in Hr. lia. }
    assert (¬ locs_of B l1) as Hn1 by (apply Hsep; by left).
    assert (¬ locs_of B l2) as Hn2 by (apply Hsep; by right).
    split.
    + unfold owns in *. unfold locs_of in Hn1, Hn2.
      destruct (main_stack B) as [b1|], (stacks_map B) as [b2|]; try done.
      destruct HB as (Hne & r & Hh1 & Hh2). split; [done|]. exists r.
      assert (l1 ≠ b1 ∧ l1 ≠ b2 ∧ l2 ≠ b1 ∧ l2 ≠ b2) as (?&?&?&?)
        by (repeat split; intros ->; tauto).
      split; heap_lookup.
    + intros l' [Hl'|Hl']; cbn in Hl'; simplify_eq; done.
  - (* fresh storage *)
    split; [|by eapply separate_fresh].
    apply owns_fresh; [|by rewrite lookup_insert_ne].
    by apply owns_fresh.
  - (* deep copy *)
    split.
    + apply owns_fresh; [|by rewrite !lookup_insert_ne by congruence].
      apply owns_fresh; [|by rewrite !lookup_insert_ne by congruence].
      unfold owns in *.
      destruct (main_stack B) as [b1|] eqn:E1, (stacks_map B) as [b2|] eqn:E2;
        try done.
      destruct HB as (Hne & rb & Hh1 & Hh2). split; [done|].
      destruct Hcompat as [[[Ha1 Ha2] _]|Hsep].
      * assert (b1 = l1) as -> by congruence.
        assert (b2 = l2) as -> by congruence.
        exists r. simplify_eq. split; heap_lookup.
      * assert (¬ locs_of B l1) as Hn1 by (apply Hsep; by left).
        assert (¬ locs_of B l2) as Hn2 by (apply Hsep; by right).
        unfold locs_of in Hn1, Hn2. rewrite E1, E2 in Hn1, Hn2.
        assert (l1 ≠ b1 ∧ l1 ≠ b2 ∧ l2 ≠ b1 ∧ l2 ≠ b2) as (?&?&?&?)
          by (repeat split; intros ->; tauto).
        exists rb. split; heap_lookup.
    + by eapply separate_fresh.
Qed.

Lemma released_frame h A ms sm h' B msB smB :
  released h A ms sm h' →
  owns h B msB smB → compat h A B →
  owns h' B msB smB ∧ separate (Stack None None true) B.
Proof.
  intros Hrel HB Hcompat.
  split; [|by intros l [Hl|Hl]].
  destruct Hrel as [| l1 l2 | l1 l2 r]; [done|..].
  - assert (separate A B) as Hsep.
    { destruct Hcompat as [[_ Hr]|?]; [|done].
      specialize (Hr l1 _ ltac:(done) ltac:(done)). cbn in Hr. lia. }
    assert (¬ locs_of B l1) as Hn1 by (apply Hsep; by left).
    assert (¬ locs_of B l2) as Hn2 by (apply Hsep; by right).
    unfold owns in *. unfold locs_of in Hn1, Hn2.
    destruct (main_stack B) as [b1|], (stacks_map B) as [b2|]; try done.
    destruct HB as (Hne & rb & Hh1 & Hh2). split; [done|]. exists rb.
    assert (l1 ≠ b1 ∧ l1 ≠ b2 ∧ l2 ≠ b1 ∧ l2 ≠ b2) as (?&?&?&?)
      by (repeat split; intros ->; tauto).
    split; heap_lookup.
  - unfold owns in *.
    destruct (main_stack B) as [b1|] eqn:E1, (stacks_map B) as [b2|] eqn:E2;
      try done.
    destruct HB as (Hne & rb & Hh1 & Hh2). split; [done|].
    destruct Hcompat as [[[Ha1 Ha2] _]|Hsep].
    + assert (b1 = l1) as -> by congruence.
      assert (b2 = l2) as -> by congruence.
      exists r. simplify_eq. split; heap_lookup.
    + assert (¬ locs_of B l1) as Hn1 by (apply Hsep; by left).
      assert (¬ locs_of B l2) as Hn2 by (apply Hsep; by right).
      unfold locs_of in Hn1, Hn2. rewrite E1, E2 in Hn1, Hn2.
      assert (l1 ≠ b1 ∧ l1 ≠ b2 ∧ l2 ≠ b1 ∧ l2 ≠ b2) as (?&?&?&?)
        by (repeat split; intros ->; tauto).
      exists rb. split; heap_lookup.
Qed.

Lemma step_frame h A ms sm A' h' ms' sm' B msB smB :
  step_shape h A ms sm A' h' ms' sm' →
  owns h B msB smB → compat h A B →
  owns h' B msB smB ∧ separate A' B.
Proof.
  destruct 1; [by eapply cow_frame|by eapply released_frame].
Qed.

Lemma half_built_frame h A A' h' B msB smB :
  half_built h A A' h' → owns h B msB smB → owns h' B msB smB.
Proof.
  intros (_ & l1 & Hl1 & -> & ->) HB. by apply owns_fresh.
Qed.

(** The copy and its source. *)
Lemma copied_pair h A ms sm B h' :
  owns h A ms sm → copied h A ms sm B h' →
  owns h' A ms sm ∧ compat h' A B ∧ shareable B = true ∧
  ((shareable A = true ∧ aliased A B ∧ owns h' B ms sm) ∨
   (shareable A = false ∧ separate A B ∧
    owns h' B (replay ms).1 (replay ms).2 ∧
    ∃ l1 l2, B = Stack (Some l1) (Some l2) true ∧
             h !! l1 = None ∧ h !! l2 = None ∧
             h' !! l1 = Some (Cell 1 (OList (replay ms).1)) ∧
             h' !! l2 = Some (Cell 1 (OMap (replay ms).2)))).
Proof.
  intros HA Hc. destruct Hc as [Hsh E1 E2 | l1 l2 r Hsh E1 E2 Hne Hh1 Hh2
                                | l1 l2 Hsh Hn1 Hn2 Hne].
  - split; [done|]. split; [by right; intros l [?|?]; congruence|].
    split; [done|]. left. split; [done|]. split; [by split|].
    unfold owns in *. rewrite E1, E2 in HA. by cbn.
  - assert (owns (<[l2:=Cell (S (S r)) (OMap sm)]>
              (<[l1:=Cell (S (S r)) (OList ms)]> h)) A ms sm) as HA'.
    { unfold owns. rewrite E1, E2. split; [done|]. exists (S r).
      split; heap_lookup. }
    split; [done|]. split; [|split; [done|]].
    + left. split; [by split|]. intros l x Hl. rewrite E1 in Hl.
      injection Hl as <-. rewrite lookup_insert_ne, lookup_insert_eq by done.
      intros [= <-]. cbn. lia.
    + left. split; [done|]. split; [by split|].
      unfold owns. cbn. split; [done|]. exists (S r). split; heap_lookup.
  - assert (owns (<[l1:=Cell 1 (OList (replay ms).1)]>
              (<[l2:=Cell 1 (OMap (replay ms).2)]> h)) A ms sm) as HA'.
    { apply owns_fresh; [|by rewrite lookup_insert_ne].
      by apply owns_fresh. }
    assert (separate (Stack (Some l1) (Some l2) true) A) as Hsep
      by (by apply (separate_fresh h l1 l2 true A ms sm)).
    split; [done|]. split; [|split; [done|]].
    + right. intros l HlA HlB. by apply (Hsep l).
    + right. split; [done|]. split; [by intros l HlA HlB; apply (Hsep l)|].
      split.
      * unfold owns. cbn. split; [done|]. exists 0. split; heap_lookup.
      * exists l1, l2. repeat split; try done; heap_lookup.
Qed.

End Copies.

Section Sequences.
Context {K V : Type} `{KeyOrder K}.
Implicit Types (c : config K V) (es : list (K * V)).

(** A sequence of [push] and [pop()] calls. *)
Inductive call := Push (k : K) (v : V) | Pop.

Definition run_call (x : call) : M K V unit :=
  match x with Push k v => push k v | Pop => pop end.

Definition run_calls (l : list call) : M K V unit := for_each l run_call.

Definition pushes (l : list call) : nat :=
  length (List.filter (λ x, match x with Push _ _ => true | Pop => false end) l).
Definition pops (l : list call) : nat :=
  length (List.filter (λ x, match x with Push _ _ => false | Pop => true end) l).

(** The entries that are live after the calls, newest first, in the
    words of the specification: a push adds its entry, a pop removes the
    most recently pushed entry that has not been removed yet; [None] when a
    pop finds nothing to remove. *)
Fixpoint live (l : list call) (es : list (K * V)) : option (list (K * V)) :=
  match l with
  | [] => Some es
  | Push k v :: r => live r ((k, v) :: es)
  | Pop :: r => match es with [] => None | _ :: es' => live r es' end
  end.
End Sequences.
Arguments call : clear implicits.

Section SequenceFacts.
Context {K V : Type} `{KeyOrder K}.
Implicit Types (c : config K V) (es : list (K * V)).

Lemma run_calls_from (l : list (call K V)) c es0 :
  holds c es0 →
  wp (run_calls l) c (λ o c',
    faults (mem c') `suffix_of` faults (mem c) ∧
    (o = Ret tt →
       ∃ es, live l es0 = Some es ∧ holds c' es ∧
             length es + pops l = length es0 + pushes l) ∧
    (faults (mem c) = [] → is_Some (live l es0) → o = Ret tt)).
Proof.
  revert c es0. induction l as [|x l IH]; intros c es0 Hc;
    unfold run_calls; cbn [for_each].
  - wp_pure. split; [done|]. split; [|done]. intros _. exists es0.
    split; [done|]. split; [done|]. unfold pops, pushes. cbn. lia.
  - wp_pure. destruct x as [k v|].
    + change (run_call (Push k v)) with (run_mutation (MPush k v)).
      eapply wp_mono; [apply (mutation_holds (MPush k v)); exact Hc|].
      intros o c1 [Hf Hpost]. destruct o as [a|e| |]; [| |done..]; wp_simpl.
      * destruct Hpost as (es' & [= <-] & Hc1).
        eapply wp_mono; [apply (IH c1 _ Hc1)|].
        intros o c2 (Hf2 & Hret & Htot). split; [by etrans|]. split.
        -- intros Ho. destruct (Hret Ho) as (es & Hl & Hc2 & Hlen).
           exists es. split; [done|]. split; [done|].
           unfold pops, pushes in *. cbn in *. lia.
        -- intros Hnil Hsome. apply Htot; [|done].
           rewrite Hnil in Hf. by apply suffix_nil_inv in Hf.
      * split; [done|]. split; [done|]. intros Hnil _.
        destruct Hpost as [(_ & Hin & _)|(_ & _ & [=] & _)].
        rewrite Hnil in Hin. by apply elem_of_nil in Hin.
    + change (run_call Pop) with (run_mutation (MPop (K:=K) (V:=V))).
      eapply wp_mono; [apply (mutation_holds MPop); exact Hc|].
      intros o c1 [Hf Hpost]. destruct o as [a|e| |]; [| |done..]; wp_simpl.
      * destruct Hpost as (es' & Happ & Hc1). cbn [apply_mutation] in Happ.
        destruct es0 as [|e0 es0]; [done|]. injection Happ as <-.
        eapply wp_mono; [apply (IH c1 _ Hc1)|].
        intros o c2 (Hf2 & Hret & Htot). split; [by etrans|]. split.
        -- intros Ho. destruct (Hret Ho) as (es & Hl & Hc2 & Hlen).
           exists es. split; [done|]. split; [done|].
           unfold pops, pushes in *. cbn in *. lia.
        -- intros Hnil Hsome. apply Htot; [|done].
           rewrite Hnil in Hf. by apply suffix_nil_inv in Hf.
      * split; [done|]. split; [done|]. intros Hnil Hsome.
        destruct Hpost as [(_ & Hin & _)|(_ & _ & Happ & _)].
        -- rewrite Hnil in Hin. by apply elem_of_nil in Hin.
        -- cbn [apply_mutation] in Happ. destruct es0; [|done].
           cbn [live] in Hsome. by destruct Hsome.
Qed.

(** C3.  For every sequence of [push] and [pop()] calls run on an empty
    stack: when every call returns, the live entries are those the
    specification describes (each [pop()] has removed the most recently
    pushed entry that was still there, whatever its key), and [size()] is
    the number of pushes minus the number of pops; and the calls do return
    when no allocation is made to fail and no [pop()] meets an empty
    stack. *)
Theorem push_pop_sequences (l : list (call K V)) c :
  holds c [] →
  wp (run_calls l) c (λ o c',
    (o = Ret tt →
       ∃ es, live l [] = Some es ∧ holds c' es ∧
             observe size c' = Ret (pushes l - pops l)) ∧
    (faults (mem c) = [] → is_Some (live l []) → o = Ret tt)).
Proof.
  intros Hc. eapply wp_mono; [by apply run_calls_from|].
  intros o [s' [h' f']] (_ & Hret & Htot). split; [|done].
  intros Ho. destruct (Hret Ho) as (es & Hl & Hc' & Hlen).
  exists es. split; [done|]. split; [done|].
  destruct Hc' as (ms & sm & Hown & Hinv & He). cbn [this mem heap] in Hown.
  rewrite (observe_size _ _ _ _ _ Hown). f_equal.
  rewrite <- length_entries, He. cbn [length] in Hlen. lia.
Qed.

(** On a well-formed stack, [push(k, v)] followed at once by [pop()]
    leaves a stack that cannot be told from the one before: same [size()],
    same [front()], same [count] for every key, same key iteration.  Both
    calls return when no allocation is made to fail. *)
Theorem push_pop_round_trip (k : K) (v : V) c es :
  holds c es →
  wp (bind (push k v) (λ _, pop)) c (λ o c',
    (o = Ret tt → obs_eq c c') ∧
    (faults (mem c) = [] → o = Ret tt)).
Proof.
  intros Hc. wp_pure.
  change (push k v) with (run_mutation (MPush k v)).
  eapply wp_mono; [apply (mutation_holds (MPush k v)); exact Hc|].
  intros o c1 [Hf Hpost]. destruct o as [a|e| |]; [| |done..]; wp_simpl.
  - destruct Hpost as (es' & [= <-] & Hc1).
    change pop with (run_mutation (MPop (K:=K) (V:=V))).
    eapply wp_mono; [apply (mutation_holds MPop); exact Hc1|].
    intros o c2 [Hf2 Hpost]. destruct o as [[]|e| |]; [| |done..].
    + destruct Hpost as (es' & [= <-] & Hc2).
      split; [|done]. intros _. by eapply holds_obs_eq.
    + split; [done|]. intros Hnil.
      rewrite Hnil in Hf. apply suffix_nil_inv in Hf.
      destruct Hpost as [(_ & Hin & _)|(_ & _ & [=] & _)].
      rewrite Hf in Hin. by apply elem_of_nil in Hin.
  - split; [done|]. intros Hnil.
    destruct Hpost as [(_ & Hin & _)|(_ & _ & [=] & _)].
    rewrite Hnil in Hin. by apply elem_of_nil in Hin.
Qed.

End SequenceFacts.

Section PerKey.
Context {K V : Type} `{KeyOrder K}.
Implicit Types (c : config K V) (es : list (K * V)).

(** [n] rounds of [v = front(k); pop(k);], collecting what was seen. *)
Fixpoint drain (k : K) (n : nat) : M K V (list V) :=
  match n with
  | 0 => ret []
  | S n =>
      bind (front_key k) (λ r,
      bind (load r) (λ v,
      bind (pop_key k) (λ _,
      bind (drain k n) (λ vs, ret (v :: vs)))))
  end.

Lemma load_observe (r : vref) c : load r c = (observe (load r) c, c).
Proof.
  destruct c as [s [h f]], r as [l i].
  unfold observe, load, deref_list, bind, get_cell, ret, undefined.
  cbn [mem heap this fst snd].
  destruct (h !! l) as [[r0 [ms|sm]]|]; cbn [payload]; try done.
  by destruct (find_node i ms).
Qed.

Lemma values_of_remove_first k es :
  values_of k (remove_first k es) = tail (values_of k es).
Proof.
  unfold values_of. induction es as [|e r IH]; [done|]. cbn [remove_first].
  cbn [List.filter]. destruct (key_eqb e.1 k) eqn:E; [done|].
  cbn [List.filter]. by rewrite E.
Qed.

Lemma others_of_remove_first k es :
  others_of k (remove_first k es) = others_of k es.
Proof.
  unfold others_of. induction es as [|e r IH]; [done|]. cbn [remove_first].
  cbn [List.filter]. destruct (key_eqb e.1 k) eqn:E; [done|].
  cbn [List.filter negb]. rewrite E. cbn [negb]. by rewrite IH.
Qed.

Lemma others_of_no_values k es : values_of k es = [] → others_of k es = es.
Proof.
  unfold values_of, others_of. induction es as [|e r IH]; [done|].
  cbn [List.filter]. destruct (key_eqb e.1 k); [done|].
  cbn [negb]. intros Hr. by rewrite IH.
Qed.

Lemma drain_from k n c es :
  holds c es → n = length (values_of k es) →
  wp (drain k n) c (λ o c',
    faults (mem c') `suffix_of` faults (mem c) ∧
    (∀ vs, o = Ret vs → vs = values_of k es ∧ holds c' (others_of k es)) ∧
    (faults (mem c) = [] → ∃ vs, o = Ret vs)).
Proof.
  revert c es. induction n as [|n IH]; intros c es Hc Hn; cbn [drain].
  - wp_pure. split; [done|]. split; [|eauto]. intros vs [= <-].
    destruct (values_of k es) eqn:E; [|done].
    by rewrite others_of_no_values.
  - wp_pure. eapply wp_mono; [apply (front_key_holds k); exact Hc|].
    intros o c1 [Hf1 Hpost]. destruct o as [r|e| |]; [| |done..]; wp_simpl.
    2:{ split; [done|]. split; [done|]. intros Hnil.
        destruct Hpost as [(_ & Hin & _)|(_ & Hv & _)].
        - rewrite Hnil in Hin. by apply elem_of_nil in Hin.
        - by rewrite Hv in Hn. }
    destruct Hpost as (v & vs & Hv & Hc1 & Hload & _).
    apply wp_bind. eapply wp_eq; [apply load_observe|]. rewrite Hload. wp_simpl.
    wp_pure. eapply wp_mono; [apply (pop_key_holds k); exact Hc1|].
    intros o c2 [Hf2 Hpost]. destruct o as [a|e| |]; [| |done..]; wp_simpl.
    2:{ split; [by etrans|]. split; [done|]. intros Hnil.
        rewrite Hnil in Hf1. apply suffix_nil_inv in Hf1.
        destruct Hpost as [(_ & Hin & _)|(_ & Hv' & _)].
        - rewrite Hf1 in Hin. by apply elem_of_nil in Hin.
        - by rewrite Hv in Hv'. }
    destruct Hpost as (_ & Hc2 & _). wp_pure.
    eapply wp_mono.
    { apply (IH c2 (remove_first k es) Hc2).
      rewrite values_of_remove_first, Hv in *. cbn in *. lia. }
    intros o c3 (Hf3 & Hret & Htot).
    rewrite values_of_remove_first, others_of_remove_first, Hv in Hret.
    cbn [tail] in Hret.
    destruct o as [vs'|e| |]; wp_simpl.
    + split; [by repeat (etrans; [eassumption|])|]. split; [|eauto].
      intros ? [= <-]. destruct (Hret vs' eq_refl) as [-> ?]. done.
    + split; [by repeat (etrans; [eassumption|])|]. split; [done|].
      intros Hnil. destruct Htot as [? ?]; [|done].
      rewrite Hnil in Hf1. apply suffix_nil_inv in Hf1.
      rewrite Hf1 in Hf2. by apply suffix_nil_inv in Hf2.
    + split; [by repeat (etrans; [eassumption|])|]. split; [done|].
      intros Hnil. destruct Htot as [? ?]; [|done].
      rewrite Hnil in Hf1. apply suffix_nil_inv in Hf1.
      rewrite Hf1 in Hf2. by apply suffix_nil_inv in Hf2.
    + split; [by repeat (etrans; [eassumption|])|]. split; [done|].
      intros Hnil. destruct Htot as [? ?]; [|done].
      rewrite Hnil in Hf1. apply suffix_nil_inv in Hf1.
      rewrite Hf1 in Hf2. by apply suffix_nil_inv in Hf2.
Qed.

(** C6.  For a key [k], as many rounds of [front(k)] then [pop(k)] as [k]
    has live entries see the values of these entries from the most
    recently pushed to the oldest, and leave the entries of the other keys
    as they were, in their order.  The rounds all return when no allocation
    is made to fail. *)
Theorem per_key_lifo (k : K) c es :
  holds c es →
  wp (drain k (length (values_of k es))) c (λ o c',
    (∀ vs, o = Ret vs → vs = values_of k es ∧ holds c' (others_of k es)) ∧
    (faults (mem c) = [] → ∃ vs, o = Ret vs)).
Proof.
  intros Hc. eapply wp_mono; [by apply drain_from|].
  intros o c' (_ & ? & ?). done.
Qed.

End PerKey.

Section Errors.
Context {K V : Type} `{KeyOrder K}.
Implicit Types (s : stack) (h : gmap loc (cell K V)) (f : list bool).
Implicit Types (ms : main_stack_t K V) (sm : stacks_map_t K).
Implicit Types (c : config K V) (es : list (K * V)).

(** The call [m] fails with [e] exactly when [cond] holds; the one other
    failure is an allocation that is made to fail. *)
Definition fails_exactly_when {A} (m : M K V A) c (e : exn) (cond : Prop) : Prop :=
  wp m c (λ o _,
    match o with
    | Ret _ => ¬ cond
    | Throw e' => (e' = e ∧ cond) ∨ (e' = bad_alloc ∧ true ∈ faults (mem c))
    | _ => False
    end).

Definition fails_for_memory_only {A} (m : M K V A) c : Prop :=
  wp m c (λ o _,
    match o with
    | Ret _ => True
    | Throw e' => e' = bad_alloc ∧ true ∈ faults (mem c)
    | _ => False
    end).

(** The [const] member functions leave the object and the heap alone;
    [count] and [front(k) const] allocate a key handle for the lookup. *)
Lemma size_spec s ms sm h f :
  owns h s ms sm →
  wp size (Config s (World h f)) (λ o c',
    o = Ret (length ms) ∧ c' = Config s (World h f)).
Proof.
  intros Hown. unfold owns in Hown. unfold size.
  destruct s as [[l1|] [l2|] sh]; cbn [main_stack stacks_map] in Hown; try done.
  - destruct Hown as (Hne & r & Hh1 & Hh2). by wp_pure.
  - destruct Hown as [-> ->]. by wp_pure.
Qed.

Lemma front_const_spec s ms sm h f :
  owns h s ms sm →
  wp front_const (Config s (World h f)) (λ o c',
    faults (mem c') `suffix_of` f ∧ this c' = s ∧ heap (mem c') = h ∧
    (o = match ms with
         | [] => Throw empty_front_error
         | n :: _ => Ret (nkey n, nval n)
         end ∨
     (o = Throw bad_alloc ∧ true ∈ f ∧ ms = []))).
Proof.
  intros Hown. unfold front_const. wp_pure.
  eapply (check_not_empty_spec _ f); [done|done|..]; intros Hms; wp_simpl.
  { intros f' Hf'. subst. repeat split; auto. }
  { intros f' Hf' Hin. subst. repeat split; auto. }
  unfold owns in Hown.
  destruct s as [[l1|] [l2|] sh]; cbn [main_stack stacks_map] in Hown; try done.
  - destruct Hown as (Hne & r & Hh1 & Hh2). wp_pure.
    destruct ms; [done|]. repeat split; auto.
  - by destruct Hown as [-> ->].
Qed.

Lemma count_spec k s ms sm h f :
  owns h s ms sm → storage_inv ms sm →
  wp (count k) (Config s (World h f)) (λ o c',
    faults (mem c') `suffix_of` f ∧ this c' = s ∧ heap (mem c') = h ∧
    (o = Ret (length (values_of k (entries ms))) ∨
     (o = Throw bad_alloc ∧ true ∈ f))).
Proof.
  intros Hown Hinv. unfold owns in Hown. unfold count.
  destruct s as [[l1|] [l2|] sh]; cbn [main_stack stacks_map] in Hown; try done.
  - destruct Hown as (Hne & r & Hh1 & Hh2). wp_pure.
    apply (wp_alloc_point f); [done|..].
    { intros f' Hf' Hin. wp_simpl. repeat split; auto. }
    intros f' Hf'. wp_pure.
    rewrite (storage_inv_find k ms sm Hinv), <- with_key_values.
    destruct (with_key k ms) eqn:E; wp_pure; [by repeat split; auto|].
    cbn [ids map length]. rewrite length_map. repeat split; auto.
  - destruct Hown as [-> ->]. wp_pure. repeat split; auto.
Qed.

Lemma front_key_const_spec k s ms sm h f :
  owns h s ms sm → storage_inv ms sm →
  wp (front_key_const k) (Config s (World h f)) (λ o c',
    faults (mem c') `suffix_of` f ∧ this c' = s ∧ heap (mem c') = h ∧
    match o with
    | Ret v => ∃ vs, values_of k (entries ms) = v :: vs
    | Throw e => (e = front_key_error ∧ values_of k (entries ms) = []) ∨
                 (e = bad_alloc ∧ true ∈ f)
    | _ => False
    end).
Proof.
  intros Hown Hinv. pose proof Hown as Hown'. unfold owns in Hown.
  unfold front_key_const.
  destruct s as [[l1|] [l2|] sh]; cbn [main_stack stacks_map] in Hown; try done.
  - destruct Hown as (Hne & r & Hh1 & Hh2). wp_pure.
    apply (wp_alloc_point f); [done|..].
    { intros f' Hf' Hin. wp_simpl. repeat split; auto. }
    intros f' Hf'. wp_pure.
    destruct (map_find k sm) as [[k' [|top st]]|] eqn:Ef.
    + destruct Hinv as (_ & _ & Hi).
      by destruct (index_ok_Some _ _ _ _ _ Hi Ef) as (_ & _ & ?).
    + pose proof (map_find_key _ _ _ _ Ef) as ->.
      destruct (find_Some_values _ _ _ _ _ Hinv Ef) as (n & vs & Hn & _ & _ & Hv).
      wp_simpl. cbn [length]. wp_simpl.
      eapply wp_eq; [apply load_observe|].
      rewrite (observe_load l1 top n _ ms sm h f') by done.
      repeat split; try done. by exists vs.
    + wp_pure. apply (wp_throw_invalid_argument f); [done|..].
      * intros f2 Hf2 Hin. repeat split; auto.
      * intros f2 Hf2. repeat split; try done. left. split; [done|].
        by apply (find_None_values k ms sm).
  - destruct Hown as [-> ->]. wp_pure.
    apply (wp_throw_invalid_argument f); [done|..].
    + intros f2 Hf2 Hin. repeat split; auto.
    + intros f2 Hf2. repeat split; auto.
Qed.

Lemma keys_spec s ms sm h f :
  owns h s ms sm → storage_inv ms sm →
  wp keys (Config s (World h f)) (λ o c',
    o = Ret (map fst sm) ∧ c' = Config s (World h f)).
Proof.
  intros Hown Hinv. unfold keys.
  unfold owns in Hown. unfold cbegin, cend.
  destruct s as [[l1|] [l2|] sh]; cbn [main_stack stacks_map] in Hown; try done.
  - destruct Hown as (Hne & r & Hh1 & Hh2). wp_pure.
    unfold size. wp_pure.
    eapply (wp_traverse l2 _ [] sm); [done|apply Hinv| |done].
    pose proof (storage_inv_keys_le _ _ Hinv). lia.
  - destruct Hown as [-> ->]. wp_pure.
    unfold size. wp_pure. cbn [length traverse].
    unfold iter_eqb. cbn [map_it]. by wp_pure.
Qed.

Lemma holds_size c es : holds c es → observe size c = Ret (length es).
Proof.
  destruct c as [s [h f]]. intros (ms & sm & Hown & Hinv & <-).
  rewrite (observe_size _ _ _ _ _ Hown). by rewrite length_entries.
Qed.

Lemma holds_count k c es :
  holds c es → observe (count k) c = Ret (length (values_of k es)).
Proof.
  destruct c as [s [h f]]. intros (ms & sm & Hown & Hinv & <-).
  by rewrite (observe_count _ _ _ _ _ _ Hown Hinv).
Qed.

Lemma length_zero_iff {A} (l : list A) : Ret (length l) = Ret 0 ↔ l = [].
Proof. split; [intros [= Hl]; by destruct l|by intros ->]. Qed.

(** On a well-formed stack, [pop()] and both [front()] fail with
    their empty-stack [std::invalid_argument] exactly when [size()] is 0,
    [pop(k)] and both [front(k)] fail with their missing-key
    [std::invalid_argument] exactly when [count(k)] is 0, and no member
    function fails otherwise, but by [std::bad_alloc] when an allocation is
    made to fail.  The failure is the outcome of the call itself. *)
Theorem error_conditions (k : K) (v : V) c es :
  holds c es →
  fails_exactly_when pop c empty_stack_error (observe size c = Ret 0) ∧
  fails_exactly_when front c empty_front_error (observe size c = Ret 0) ∧
  fails_exactly_when front_const c empty_front_error (observe size c = Ret 0) ∧
  fails_exactly_when (pop_key k) c pop_key_error (observe (count k) c = Ret 0) ∧
  fails_exactly_when (front_key k) c front_key_error
    (observe (count k) c = Ret 0) ∧
  fails_exactly_when (front_key_const k) c front_key_error
    (observe (count k) c = Ret 0) ∧
  fails_for_memory_only (push k v) c ∧
  fails_for_memory_only clear c ∧
  fails_for_memory_only size c ∧
  fails_for_memory_only (count k) c ∧
  fails_for_memory_only keys c.
Proof.
  intros Hc. unfold fails_exactly_when, fails_for_memory_only.
  assert (observe size c = Ret 0 ↔ es = []) as Hsize
    by (by rewrite (holds_size c es Hc), length_zero_iff).
  assert (observe (count k) c = Ret 0 ↔ values_of k es = []) as Hcount
    by (by rewrite (holds_count k c es Hc), length_zero_iff).
  pose proof Hc as Hc'. destruct c as [s [h f]].
  destruct Hc' as (ms & sm & Hown & Hinv & He). cbn [this mem heap] in Hown.
  repeat split.
  - eapply wp_mono; [apply (pop_holds _ es Hc)|].
    intros o c' [_ Hpost].
    destruct o as [a|e| |]; [| |done..]; rewrite Hsize.
    + destruct Hpost as (e0 & es' & -> & _). done.
    + destruct Hpost as (_ & [[-> ->]|(-> & ?)]); auto.
  - eapply wp_mono; [apply (front_holds _ es Hc)|].
    intros o c' [_ Hpost].
    destruct o as [[k0 r]|e| |]; [| |done..]; rewrite Hsize.
    + destruct Hpost as (v0 & es' & -> & _). done.
    + destruct Hpost as (_ & [[-> ->]|(-> & ?)]); auto.
  - eapply wp_mono; [by eapply front_const_spec|].
    intros o c' (_ & _ & _ & [->|(-> & ? & _)]); [|by right].
    subst es. destruct ms; rewrite Hsize; [by left|done].
  - eapply wp_mono; [apply (pop_key_holds k _ es Hc)|].
    intros o c' [_ Hpost].
    destruct o as [a|e| |]; [| |done..]; rewrite Hcount.
    + by destruct Hpost as (? & _).
    + destruct Hpost as [(-> & ? & _)|(-> & ? & _)]; auto.
  - eapply wp_mono; [apply (front_key_holds k _ es Hc)|].
    intros o c' [_ Hpost].
    destruct o as [r|e| |]; [| |done..]; rewrite Hcount.
    + destruct Hpost as (v0 & vs & -> & _). done.
    + destruct Hpost as [(-> & ? & _)|(-> & ? & _)]; auto.
  - eapply wp_mono; [by eapply (front_key_const_spec k)|].
    intros o c' (_ & _ & _ & Hpost). subst es.
    destruct o as [v0|e| |]; [| |done..]; rewrite Hcount.
    + destruct Hpost as [vs ->]. done.
    + destruct Hpost as [[-> ?]|[-> ?]]; auto.
  - eapply wp_mono; [apply (push_holds k v _ es Hc)|].
    intros o c' [_ Hpost]. destruct o as [a|e| |]; [done| |done..].
    by destruct Hpost as (-> & ? & _).
  - eapply wp_mono; [by eapply clear_spec|].
    by intros o c' (-> & _).
  - eapply wp_mono; [by eapply size_spec|].
    by intros o c' (-> & _).
  - eapply wp_mono; [by eapply (count_spec k)|].
    intros o c' (_ & _ & _ & [->|[-> ?]]); done.
  - eapply wp_mono; [by eapply keys_spec|].
    by intros o c' (-> & _).
Qed.

End Errors.

Section Iteration.
Context {K V : Type} `{KeyOrder K}.
Implicit Types (c : config K V) (es : list (K * V)).

Lemma strictly_sorted_NoDup (ks : list K) :
  StronglySorted (λ a b, KComp a b = true) ks → NoDup ks.
Proof.
  induction 1 as [|a ks Hs IH Ha]; [constructor|].
  apply NoDup_cons. split; [|done]. by apply above_not_in.
Qed.

Theorem key_iteration_sorted c es :
  holds c es →
  ∃ ks, observe keys c = Ret ks ∧
        StronglySorted (λ a b, key_lt a b = true) ks ∧ NoDup ks ∧
        ∀ k, k ∈ ks ↔ k ∈ map fst es.
Proof.
  destruct c as [s [h f]]. intros (ms & sm & Hown & Hinv & <-).
  exists (map fst sm). split; [by eapply observe_keys|].
  pose proof Hinv as (_ & Hs & _). split; [exact Hs|].
  split; [by apply strictly_sorted_NoDup|].
  intros k. destruct (storage_inv_cross _ _ Hinv) as (_ & Hk & _).
  rewrite Hk. unfold entries. rewrite map_map. cbn [fst].
  rewrite list_elem_of_fmap. split; intros (n & ? & ?); eauto.
Qed.
End Iteration.

Section Invariant.
Context {K V : Type} `{KeyOrder K}.
Implicit Types (s : stack) (h : gmap loc (cell K V)) (f : list bool).
Implicit Types (ms : main_stack_t K V) (sm : stacks_map_t K).
Implicit Types (c : config K V) (es : list (K * V)).

(** The main sequence and the key index of an object, as the member
    functions reach them.  An object with both handles null is the empty
    stack; otherwise the member functions dereference both handles, and
    there is nothing to read behind a null or dangling one. *)
Definition views c : option (main_stack_t K V * stacks_map_t K) :=
  match main_stack (this c), stacks_map (this c) with
  | None, None => Some ([], [])
  | Some l1, Some l2 =>
      match heap (mem c) !! l1, heap (mem c) !! l2 with
      | Some (Cell _ (OList ms)), Some (Cell _ (OMap sm)) => Some (ms, sm)
      | _, _ => None
      end
  | _, _ => None
  end.

Definition invariant_holds c : Prop :=
  ∃ ms sm, views c = Some (ms, sm) ∧ cross_structure_inv ms sm.

(** The public member functions, their results dropped. *)
Inductive operation :=
  | OMutate (m : mutation K V)
  | OSize
  | OCount (k : K)
  | OFrontConst
  | OFrontKeyConst (k : K)
  | OKeys.

Definition run_operation (op : operation) : M K V unit :=
  match op with
  | OMutate m => run_mutation m
  | OSize => bind size (λ _, ret tt)
  | OCount k => bind (count k) (λ _, ret tt)
  | OFrontConst => bind front_const (λ _, ret tt)
  | OFrontKeyConst k => bind (front_key_const k) (λ _, ret tt)
  | OKeys => bind keys (λ _, ret tt)
  end.

Lemma owns_views s ms sm h f :
  owns h s ms sm → views (Config s (World h f)) = Some (ms, sm).
Proof.
  unfold owns, views. cbn [this mem heap].
  destruct (main_stack s) as [l1|], (stacks_map s) as [l2|]; try done.
  - intros (_ & r & -> & ->). done.
  - by intros [-> ->].
Qed.

Lemma wf_invariant s h f : wf h s → invariant_holds (Config s (World h f)).
Proof.
  intros (ms & sm & Hown & Hinv). exists ms, sm.
  split; [by apply owns_views|by apply storage_inv_cross].
Qed.

Lemma holds_wf c es : holds c es → wf (heap (mem c)) (this c).
Proof. intros (ms & sm & ? & ? & _). by exists ms, sm. Qed.

(** The half-built object has a main sequence and no key index. *)
Lemma half_built_views h s s' h' f :
  half_built h s s' h' → views (Config s' (World h' f)) = None.
Proof. by intros (_ & l1 & _ & -> & ->). Qed.

Lemma half_built_no_invariant h s s' h' f :
  half_built h s s' h' → ¬ invariant_holds (Config s' (World h' f)).
Proof.
  intros Hb (ms & sm & Hv & _). by rewrite (half_built_views _ _ _ _ _ Hb) in Hv.
Qed.

(** On a well-formed object the cross-structure invariant holds (the
    positions held by the key index are the entries of the main sequence,
    each once; a key is in the index exactly when an entry carries it; its
    stack has one position per entry of the key, newest first), and every
    public member function run on it leaves a well-formed object on which
    it holds again, whether the call returns or throws.  The one exception
    is a call that fails by [std::bad_alloc] at its second allocation on
    an object without storage, which leaves the object half built. *)
Theorem invariant_preserved (op : operation) c :
  wf (heap (mem c)) (this c) →
  invariant_holds c ∧
  wp (run_operation op) c (λ o c',
    match o with
    | Ret _ => wf (heap (mem c')) (this c') ∧ invariant_holds c'
    | Throw e =>
        (wf (heap (mem c')) (this c') ∧ invariant_holds c') ∨
        (e = bad_alloc ∧ half_built_from c c')
    | _ => False
    end).
Proof.
  destruct c as [s [h f]]. cbn [this mem heap]. intros Hwf.
  split; [by apply wf_invariant|].
  pose proof Hwf as (ms & sm & Hown & Hinv).
  assert (∀ f', wf h s ∧ invariant_holds (Config s (World h f'))) as Hsame
    by (intros f'; split; [done|by apply wf_invariant]).
  destruct op as [m| |k| |k|]; cbn [run_operation].
  - eapply wp_mono; [by apply mutation_spec|].
    intros o [s' [h' f']]. wp_simpl. intros [_ Hpost].
    destruct o as [a|e| |]; [| |done..].
    + destruct Hpost as (ms' & sm' & Hshape & Hinv' & _).
      assert (wf h' s') as Hwf'.
      { exists ms', sm'. split; [by eapply step_shape_owns|done]. }
      split; [done|by apply wf_invariant].
    + destruct Hpost as [(-> & _ & [[-> ->]|Hb])|(_ & _ & _ & -> & ->)].
      * left. apply Hsame.
      * by right.
      * left. apply Hsame.
  - wp_pure. eapply wp_mono; [by eapply size_spec|].
    intros o c' [-> ->]. wp_pure. apply Hsame.
  - wp_pure. eapply wp_mono; [by eapply (count_spec k)|].
    intros o [s' [h' f']]. wp_simpl. intros (_ & -> & -> & [->|[-> _]]).
    + wp_pure. apply Hsame.
    + left. apply Hsame.
  - wp_pure. eapply wp_mono; [by eapply front_const_spec|].
    intros o [s' [h' f']]. wp_simpl.
    intros (_ & -> & -> & [->|(-> & _)]); [|left; apply Hsame].
    destruct ms; wp_pure; [left|]; apply Hsame.
  - wp_pure. eapply wp_mono; [by eapply (front_key_const_spec k)|].
    intros o [s' [h' f']]. wp_simpl. intros (_ & -> & -> & Hpost).
    destruct o as [v|e| |]; [| |done..]; wp_pure; [|left]; apply Hsame.
  - wp_pure. eapply wp_mono; [by eapply keys_spec|].
    intros o c' [-> ->]. wp_pure. apply Hsame.
Qed.

End Invariant.
Arguments operation : clear implicits.

Section CopyConstruction.
Context {K V : Type} `{KeyOrder K}.
Implicit Types (s : stack) (h : gmap loc (cell K V)) (f : list bool).
Implicit Types (ms : main_stack_t K V) (sm : stacks_map_t K).
Implicit Types (c : config K V) (es : list (K * V)).

(** C10.  The copy constructor, given a well-formed stack [A] that is not
    shareable, allocates two objects that were not there before, owned by
    the copy [B] alone and holding the entries of [A]; it leaves [A] as it
    was; [B] is shareable, and a copy made of [B] afterwards takes the
    handles of [B].  The constructor returns unless an allocation is made
    to fail. *)
Theorem copy_of_unshareable (A s0 : stack) h f es :
  holds (Config A (World h f)) es → shareable A = false →
  wp (stack_copy A) (Config s0 (World h f)) (λ o c',
    (f = [] → o = Ret tt) ∧
    match o with
    | Ret _ =>
        ∃ l1 l2 ms' sm',
          this c' = Stack (Some l1) (Some l2) true ∧
          h !! l1 = None ∧ h !! l2 = None ∧
          heap (mem c') !! l1 = Some (Cell 1 (OList ms')) ∧
          heap (mem c') !! l2 = Some (Cell 1 (OMap sm')) ∧
          separate A (this c') ∧
          holds c' es ∧
          holds (Config A (mem c')) es ∧
          obs_eq (Config A (World h f)) c' ∧
          ∀ s1, wp (stack_copy (this c')) (Config s1 (mem c')) (λ o2 c2,
                  o2 = Ret tt ∧ aliased (this c') (this c2) ∧
                  shareable (this c2) = true)
    | Throw e => e = bad_alloc ∧ true ∈ f
    | _ => False
    end).
Proof.
  intros HA Hsh. pose proof HA as (ms & sm & Hown & Hinv & He).
  cbn [this mem heap] in Hown.
  eapply wp_mono; [by apply stack_copy_spec|].
  intros o [B [h' f']]. wp_simpl. intros [Hf Hpost].
  destruct o as [[]|e| |]; [| |done..].
  2:{ destruct Hpost as (-> & Hin & _). split; [|done].
      intros ->. by apply elem_of_nil in Hin. }
  split; [done|].
  destruct (copied_pair _ _ _ _ _ _ Hown Hpost)
    as (HA' & Hcompat & HshB & [(Hsh' & _)|(_ & Hsep & HB & Hloc)]).
  { congruence. }
  destruct Hloc as (l1 & l2 & -> & Hn1 & Hn2 & Hh1 & Hh2).
  assert (holds (Config (Stack (Some l1) (Some l2) true) (World h' f')) es) as HB'.
  { eexists _, _. split; [exact HB|]. split; [apply replay_inv|].
    by rewrite replay_entries. }
  exists l1, l2, (replay ms).1, (replay ms).2.
  do 5 (split; [done|]).
  split; [by intros l HlA HlB; apply (Hsep l)|].
  split; [done|]. split; [by exists ms, sm|].
  split; [by eapply holds_obs_eq|].
  intros s1. eapply wp_mono; [by eapply stack_copy_spec|].
  intros o2 [C [h2 f2]]. wp_simpl. intros [_ Hpost2].
  destruct o2 as [[]|e| |]; [| |done..].
  - destruct (copied_pair _ _ _ _ _ _ HB Hpost2)
      as (_ & _ & HshC & [(_ & Hal & _)|(? & _)]); done.
  - by destruct Hpost2 as (_ & _ & ? & _).
Qed.

End CopyConstruction.

(** ** A stack, a copy of it, and the references handed out

    [front()] and [front(k)] hand out a [V&] into the list of the stack
    and mark the stack as not shareable; [push], [pop()], [pop(k)] and
    [clear()] make it shareable again. *)

Section References.
Context {K V : Type} `{KeyOrder K}.
Implicit Types (s A B : stack) (h : gmap loc (cell K V)) (f : list bool).
Implicit Types (ms : main_stack_t K V) (sm : stacks_map_t K).
Implicit Types (c : config K V) (es : list (K * V)) (kept : list vref).

Notation "'let*' x := m 'in' f" := (bind m (λ x, f))
  (at level 10, x name, m at level 100, f at level 200, only parsing).
Notation "m >> f" := (bind m (λ _, f))
  (at level 100, f at level 200, right associativity, only parsing).

(** The value [about_to_modify] is given for [mark_shareable] ([clear()]
    sets the flag itself): [false] by the calls that hand out a [V&]. *)
Definition marks (m : mutation K V) : bool :=
  match m with
  | MPush _ _ | MPop | MPopKey _ | MClear => true
  | MFront | MFrontKey _ | MSetFront _ | MSetFrontKey _ _ => false
  end.

(** What the holder of a stack does with it: a call, whose reference, if
    it returns one, is written through at once or dropped; [front()] or
    [front(k)] with the reference kept; a write through the [i]-th of the
    references kept. *)
Inductive action :=
  | Do (m : mutation K V)
  | KeepFront
  | KeepFrontKey (k : K)
  | WriteKept (i : nat) (v : V).

(** The references kept are given up at the calls that make the stack
    shareable again.  The result is the list of the references kept after
    the action. *)
Definition run_action (a : action) kept : M K V (list vref) :=
  match a with
  | Do m => run_mutation m >> ret (if marks m then [] else kept)
  | KeepFront => let* kr := front in ret (kr.2 :: kept)
  | KeepFrontKey k => let* r := front_key k in ret (r :: kept)
  | WriteKept i v =>
      match kept !! i with
      | Some r => assign r v >> ret kept
      | None => ret kept
      end
  end.

(** A call that returns or throws, as opposed to undefined behaviour. *)
Definition defined {T} (o : outcome T) : Prop :=
  match o with Ret _ | Throw _ => True | _ => False end.

(** A call that throws gives up no reference. *)
Definition kept_after kept (o : outcome (list vref)) : list vref :=
  match o with Ret kept' => kept' | _ => kept end.

(** All that can be read of a stack: [size()], [front()], [count(k)] and
    [front(k)] for every key, and the key iteration. *)
Definition same_reads c c' : Prop :=
  obs_eq c c' ∧
  ∀ k, observe (front_key_const k) c = observe (front_key_const k) c'.

(** The object a failed second allocation leaves: a list it alone owns,
    and no map. *)
Definition half h s : Prop :=
  ∃ l1, main_stack s = Some l1 ∧ stacks_map s = None ∧
        h !! l1 = Some (Cell 1 (OList [])).

Definition good h s : Prop := wf h s ∨ half h s.

(** The references kept of [s] point into the list of [s], of which [s]
    is the one owner, and [s] is not shareable. *)
Definition kept_ok h s kept : Prop :=
  kept = [] ∨
  ∃ l1 l2 ms sm,
    s = Stack (Some l1) (Some l2) false ∧ l1 ≠ l2 ∧
    h !! l1 = Some (Cell 1 (OList ms)) ∧
    h !! l2 = Some (Cell 1 (OMap sm)) ∧
    storage_inv ms sm ∧
    Forall (λ r : vref, r.1 = l1 ∧ r.2 ∈ ids ms) kept.

Lemma holds_front_key k c es :
  holds c es →
  observe (front_key_const k) c =
    match values_of k es with
    | [] => Throw front_key_error
    | v :: _ => Ret v
    end.
Proof.
  destruct c as [s [h f]]. intros (ms & sm & Hown & Hinv & <-).
  cbn [this mem heap] in Hown.
  pose proof (front_key_const_spec k s ms sm h [] Hown Hinv) as Hspec.
  unfold wp in Hspec. unfold observe. cbn [this mem heap].
  destruct (front_key_const k (Config s (World h []))) as [o c'].
  cbn [fst snd] in *. destruct Hspec as (_ & _ & _ & Hpost).
  destruct o as [v|e| |]; [| |done..].
  - by destruct Hpost as [vs ->].
  - destruct Hpost as [[-> ->]|[_ Hin]]; [done|].
    by apply elem_of_nil in Hin.
Qed.

Lemma holds_same_reads c c' es : holds c es → holds c' es → same_reads c c'.
Proof.
  intros Hc Hc'. split; [by eapply holds_obs_eq|]. intros k.
  by rewrite (holds_front_key k c es Hc), (holds_front_key k c' es Hc').
Qed.

Lemma owns_same_reads B ms sm h f h' f' :
  owns h B ms sm → owns h' B ms sm → storage_inv ms sm →
  same_reads (Config B (World h f)) (Config B (World h' f')).
Proof.
  intros H1 H2 Hinv. apply (holds_same_reads _ _ (entries ms)); by exists ms, sm.
Qed.

(** What is read of a half-built object. *)
Lemma half_observed h s f :
  half h s →
  observe size (Config s (World h f)) = Ret 0 ∧
  observe front_const (Config s (World h f)) = Throw empty_front_error ∧
  (∀ k, observe (count k) (Config s (World h f)) = Undefined) ∧
  observe keys (Config s (World h f)) = Ret [] ∧
  (∀ k, observe (front_key_const k) (Config s (World h f)) = Undefined).
Proof.
  intros (l1 & E1 & E2 & Hl1). destruct s as [p1 p2 sh].
  cbn [main_stack stacks_map] in E1, E2. subst p1 p2.
  split; [|split; [|split; [|split]]].
  - apply observe_wp. unfold size. wp_simpl. by wp_pure.
  - apply observe_wp. unfold front_const, check_not_empty. wp_simpl. by wp_pure.
  - intros k. apply observe_wp. unfold count. wp_simpl. wp_pure.
    apply wp_quiet_alloc_point. by wp_pure.
  - apply observe_wp. unfold keys, cbegin, cend. wp_simpl. wp_pure.
    unfold size. wp_pure. cbn [length traverse].
    unfold iter_eqb. cbn [map_it]. by wp_pure.
  - intros k. apply observe_wp. unfold front_key_const. wp_simpl. wp_pure.
    apply wp_quiet_alloc_point. by wp_pure.
Qed.

Lemma half_same_reads B h f h' f' :
  half h B → half h' B →
  same_reads (Config B (World h f)) (Config B (World h' f')).
Proof.
  intros H1 H2.
  destruct (half_observed h B f H1) as (S1 & F1 & N1 & K1 & G1).
  destruct (half_observed h' B f' H2) as (S2 & F2 & N2 & K2 & G2).
  split; [|by intros k; rewrite G1, G2].
  split; [by rewrite S1, S2|]. split; [by rewrite F1, F2|].
  split; [by intros k; rewrite N1, N2|by rewrite K1, K2].
Qed.

(** *** What a call leaves of the rest of the heap *)

(** A call changes the two objects of its stack and allocates; every
    other object of the heap is as it was. *)
Lemma step_other h s ms sm s' h' ms' sm' l :
  step_shape h s ms sm s' h' ms' sm' →
  ¬ locs_of s l → is_Some (h !! l) → h' !! l = h !! l.
Proof.
  intros Hshape Hl [x Hx]. unfold locs_of in Hl.
  destruct Hshape as [mark l0 ms1 sm1 ms' sm' s' h' Hcow|h' Hrel].
  - destruct Hcow as [l1 l2 ms' sm' E1 E2 Hne Hh1 Hh2
                     |l1 l2 ms' sm' E1 E2 -> -> Hn1 Hn2 Hne
                     |l1 l2 r l1' l2' ms' sm' E1 E2 Hne Hh1 Hh2 Hn1 Hn2 Hne'].
    + rewrite E1, E2 in Hl.
      assert (l ≠ l1 ∧ l ≠ l2) as [? ?] by (split; intros ->; tauto).
      by rewrite !lookup_insert_ne.
    + assert (l ≠ l1 ∧ l ≠ l2) as [? ?] by (split; intros ->; congruence).
      by rewrite !lookup_insert_ne.
    + rewrite E1, E2 in Hl.
      assert (l ≠ l1 ∧ l ≠ l2) as [? ?] by (split; intros ->; tauto).
      assert (l ≠ l1' ∧ l ≠ l2') as [? ?] by (split; intros ->; congruence).
      by rewrite !lookup_insert_ne.
  - destruct Hrel as [E1 E2|l1 l2 E1 E2 Hne Hh1 Hh2|l1 l2 r E1 E2 Hne Hh1 Hh2];
      [done|..]; rewrite E1, E2 in Hl;
      assert (l ≠ l1 ∧ l ≠ l2) as [? ?] by (split; intros ->; tauto).
    + by rewrite !lookup_delete_ne.
    + by rewrite !lookup_insert_ne.
Qed.

(** The handles of the stack after the call are those it had, or
    designate objects that were not there. *)
Lemma step_locs h s ms sm s' h' ms' sm' l :
  step_shape h s ms sm s' h' ms' sm' →
  locs_of s' l → locs_of s l ∨ h !! l = None.
Proof.
  intros Hshape Hl. unfold locs_of in *.
  destruct Hshape as [mark l0 ms1 sm1 ms' sm' s' h' Hcow|h' Hrel].
  - destruct Hcow as [l1 l2 ms' sm' E1 E2 Hne Hh1 Hh2
                     |l1 l2 ms' sm' E1 E2 -> -> Hn1 Hn2 Hne
                     |l1 l2 r l1' l2' ms' sm' E1 E2 Hne Hh1 Hh2 Hn1 Hn2 Hne'];
      cbn [main_stack stacks_map] in Hl.
    + left. by rewrite E1, E2.
    + right. destruct Hl as [[= <-]|[= <-]]; done.
    + right. destruct Hl as [[= <-]|[= <-]]; done.
  - by destruct Hl.
Qed.

Lemma half_built_other h s s' h' l :
  half_built h s s' h' → is_Some (h !! l) → h' !! l = h !! l.
Proof.
  intros (_ & l1 & Hl1 & -> & ->) [x Hx].
  assert (l ≠ l1) by (intros ->; congruence). by rewrite lookup_insert_ne.
Qed.

Lemma half_built_locs h s s' h' l :
  half_built h s s' h' → locs_of s' l → h !! l = None.
Proof.
  intros (_ & l1 & Hl1 & -> & ->) [Hl|Hl]; cbn in Hl; by simplify_eq.
Qed.

Lemma half_built_half h s s' h' : half_built h s s' h' → half h' s'.
Proof.
  intros (_ & l1 & Hl1 & -> & ->). exists l1. cbn.
  do 2 (split; [done|]). by rewrite lookup_insert_eq.
Qed.

(** An object whose cells are as they were is as it was. *)
Lemma owns_unchanged h h' s ms sm :
  owns h s ms sm → (∀ l, locs_of s l → h' !! l = h !! l) → owns h' s ms sm.
Proof.
  unfold owns, locs_of. intros Hown Hsame.
  destruct (main_stack s) as [l1|], (stacks_map s) as [l2|]; try done.
  destruct Hown as (Hne & r & Hh1 & Hh2). split; [done|]. exists r.
  rewrite !Hsame by auto. done.
Qed.

Lemma half_unchanged h h' s :
  half h s → (∀ l, locs_of s l → h' !! l = h !! l) → half h' s.
Proof.
  intros (l1 & E1 & E2 & Hl1) Hsame. exists l1. do 2 (split; [done|]).
  rewrite Hsame; [done|by left].
Qed.

Lemma good_unchanged h h' s :
  good h s → (∀ l, locs_of s l → h' !! l = h !! l) → good h' s.
Proof.
  intros [(ms & sm & Hown & Hinv)|Hhalf] Hsame; [left|right].
  - exists ms, sm. split; [by eapply owns_unchanged|done].
  - by eapply half_unchanged.
Qed.

Lemma kept_ok_unchanged h h' s kept :
  kept_ok h s kept → (∀ l, locs_of s l → h' !! l = h !! l) → kept_ok h' s kept.
Proof.
  intros [->|(l1 & l2 & ms & sm & -> & Hne & Hh1 & Hh2 & Hinv & Hk)] Hsame;
    [by left|right].
  exists l1, l2, ms, sm. split; [done|]. split; [done|].
  rewrite (Hsame l1) by (by left). rewrite (Hsame l2) by (by right). done.
Qed.

Lemma good_same_reads B h f h' f' :
  good h B → (∀ l, locs_of B l → h' !! l = h !! l) →
  same_reads (Config B (World h f)) (Config B (World h' f')).
Proof.
  intros [(ms & sm & Hown & Hinv)|Hhalf] Hsame.
  - eapply owns_same_reads; [done| |done]. by eapply owns_unchanged.
  - apply half_same_reads; [done|]. by eapply half_unchanged.
Qed.

(** The cells of a well-formed or half-built object are there. *)
Lemma good_locs h s l : good h s → locs_of s l → is_Some (h !! l).
Proof.
  intros [(ms & sm & Hown & _)|(l1 & E1 & E2 & Hl1)] Hl.
  - by eapply owns_locs.
  - destruct Hl as [Hl|Hl]; [|congruence].
    rewrite E1 in Hl. injection Hl as <-. eauto.
Qed.

(** *** An action on a well-formed object *)

Lemma find_node_ids i n ms : find_node i ms = Some n → i ∈ ids ms.
Proof.
  intros [Hn <-]%find_node_Some. unfold ids. apply list_elem_of_fmap. eauto.
Qed.

Lemma ids_find_node i ms : i ∈ ids ms → is_Some (find_node i ms).
Proof.
  induction ms as [|n ms IH]; cbn [ids map find_node].
  - by intros ?%elem_of_nil.
  - intros [->|Hin]%elem_of_cons.
    + rewrite Nat.eqb_refl. eauto.
    + destruct (Nat.eqb (nid n) i); eauto.
Qed.

(** The references kept stay good through a call that works on the
    storage in place and neither inserts nor erases a node; the reference
    to a node of the list after the call is good too. *)
Lemma cow_kept h s ms sm l ms1 sm1 ms' sm' s' h' kept :
  cow h s false ms sm l ms1 sm1 ms' sm' s' h' →
  kept_ok h s kept → ids ms' = ids ms1 → storage_inv ms' sm' →
  kept_ok h' s' kept ∧ ∀ i, i ∈ ids ms' → kept_ok h' s' ((l, i) :: kept).
Proof.
  intros Hcow Hkept Hids Hinv'.
  assert (∀ i, i ∈ ids ms' →
            Forall (λ r : vref, r.1 = l ∧ r.2 ∈ ids ms') kept →
            kept_ok h' s' kept ∧ kept_ok h' s' ((l, i) :: kept)) as Hgo.
  { intros i Hi Hall.
    assert (∃ l2, s' = Stack (Some l) (Some l2) false ∧ l ≠ l2 ∧
                  h' !! l = Some (Cell 1 (OList ms')) ∧
                  h' !! l2 = Some (Cell 1 (OMap sm'))) as (l2 & -> & ? & ? & ?).
    { destruct Hcow; eexists; (split; [reflexivity|]);
        (split; [done|]); split; heap_lookup. }
    split; right; exists l, l2, ms', sm'; do 5 (split; [done|]);
      [done|by constructor]. }
  destruct Hkept as [->|(l1 & l2 & ms0 & sm0 & -> & Hne & Hh1 & Hh2 & Hinv0 & Hk)].
  - split; [by left|]. intros i Hi. apply (Hgo i Hi). constructor.
  - assert (l = l1 ∧ ms1 = ms0) as [-> ->].
    { destruct Hcow as [a1 a2 ? ? A1 A2 ? Ha1 Ha2|? ? ? ? A1|a1 a2 r ? ? ? ? A1 A2 ? Ha1];
        cbn [main_stack stacks_map] in *; simplify_eq; done. }
    assert (Forall (λ r : vref, r.1 = l1 ∧ r.2 ∈ ids ms') kept) as Hall
      by (by rewrite Hids).
    split.
    + destruct kept as [|r0 kept0]; [by left|].
      pose proof Hall as [[_ Hr0] _]%Forall_cons.
      exact (proj1 (Hgo r0.2 Hr0 Hall)).
    + intros i Hi. exact (proj2 (Hgo i Hi Hall)).
Qed.

(** What an action does on a well-formed object: the object and the heap
    are as they were, or as a call leaves them, or the object is half
    built; the references kept after it are good. *)
Lemma action_spec (a : action) kept s ms sm h f :
  owns h s ms sm → storage_inv ms sm → kept_ok h s kept →
  wp (run_action a kept) (Config s (World h f)) (λ o c',
    match o with
    | Ret kept' =>
        kept_ok (heap (mem c')) (this c') kept' ∧
        ((this c' = s ∧ heap (mem c') = h) ∨
         ∃ ms' sm', step_shape h s ms sm (this c') (heap (mem c')) ms' sm' ∧
                    storage_inv ms' sm')
    | Throw e =>
        (this c' = s ∧ heap (mem c') = h) ∨
        half_built h s (this c') (heap (mem c'))
    | _ => False
    end).
Proof.
  intros Hown Hinv Hkept.
  assert (∀ (m : mutation K V), marks m = true →
    wp (run_action (Do m) kept) (Config s (World h f)) (λ o c',
      match o with
      | Ret kept' =>
          kept_ok (heap (mem c')) (this c') kept' ∧
          ((this c' = s ∧ heap (mem c') = h) ∨
           ∃ ms' sm', step_shape h s ms sm (this c') (heap (mem c')) ms' sm' ∧
                      storage_inv ms' sm')
      | Throw e =>
          (this c' = s ∧ heap (mem c') = h) ∨
          half_built h s (this c') (heap (mem c'))
      | _ => False
      end)) as Hmark.
  { intros m Hm. cbn [run_action]. rewrite Hm. apply wp_bind.
    eapply wp_mono; [by apply mutation_spec|].
    intros o c' [_ Hpost]. destruct o as [[]|e| |]; wp_simpl; [| |done..].
    - apply wp_ret. split; [by left|]. right.
      destruct Hpost as (ms' & sm' & ? & ? & _). eauto.
    - destruct Hpost as [(_ & _ & Hcase)|(_ & _ & _ & ? & ?)]; auto. }
  destruct a as [[k v| |k| | |k|v|k v]| |k|i v];
    try (by apply Hmark); cbn [run_action marks run_mutation].
  - (* front(), the reference dropped *)
    wp_pure. eapply wp_mono; [by apply front_spec|].
    intros o c' [_ Hpost]. destruct o as [a|e| |]; wp_pure; [| |done..].
    + destruct Hpost as (l & ms1 & sm1 & Hcow & _).
      pose proof (cow_prepared _ _ _ _ _ _ _ _ _ _ _ _ Hcow) as Hprep.
      pose proof (prepared_inv _ _ _ _ Hinv Hprep) as Hinv1.
      split; [by eapply cow_kept|]. right. exists ms1, sm1.
      split; [by econstructor|done].
    + left. by destruct Hpost as (? & ? & _).
  - (* front(k), the reference dropped *)
    wp_pure. eapply wp_mono; [by apply front_key_spec|].
    intros o c' [_ Hpost]. destruct o as [a|e| |]; wp_pure; [| |done..].
    + destruct Hpost as (l & ms1 & sm1 & Hcow & _).
      pose proof (cow_prepared _ _ _ _ _ _ _ _ _ _ _ _ Hcow) as Hprep.
      pose proof (prepared_inv _ _ _ _ Hinv Hprep) as Hinv1.
      split; [by eapply cow_kept|]. right. exists ms1, sm1.
      split; [by econstructor|done].
    + destruct Hpost as [(_ & _ & Hcase)|(_ & _ & ? & ?)]; auto.
  - (* s.front().second = v *)
    wp_pure. eapply wp_mono; [by apply set_front_spec|].
    intros o c' [_ Hpost]. destruct o as [a|e| |]; wp_pure; [| |done..].
    + destruct Hpost as (l & ms1 & sm1 & n & r & -> & Hcow).
      pose proof (cow_prepared _ _ _ _ _ _ _ _ _ _ _ _ Hcow) as Hprep.
      pose proof (prepared_inv _ _ _ _ Hinv Hprep) as Hinv1.
      pose proof (list_assign_inv (nid n) v _ _ Hinv1) as Hinv'.
      split.
      * eapply cow_kept; [done|done|apply list_assign_ids|done].
      * right. eexists _, _. split; [by econstructor|done].
    + left. by destruct Hpost as (? & ? & _).
  - (* s.front(k) = v *)
    wp_pure. eapply wp_mono; [by apply set_front_key_spec|].
    intros o c' [_ Hpost]. destruct o as [a|e| |]; wp_pure; [| |done..].
    + destruct Hpost as (l & ms1 & sm1 & top & st & Hfind & Hcow).
      pose proof (cow_prepared _ _ _ _ _ _ _ _ _ _ _ _ Hcow) as Hprep.
      pose proof (prepared_inv _ _ _ _ Hinv Hprep) as Hinv1.
      pose proof (list_assign_inv top v _ _ Hinv1) as Hinv'.
      split.
      * eapply cow_kept; [done|done|apply list_assign_ids|done].
      * right. eexists _, _. split; [by econstructor|done].
    + destruct Hpost as [(_ & _ & Hcase)|(_ & _ & ? & ?)]; auto.
  - (* V& r = s.front().second *)
    wp_pure. eapply wp_mono; [by apply front_spec|].
    intros o c' [_ Hpost]. destruct o as [a|e| |]; wp_pure; [| |done..].
    + destruct Hpost as (l & ms1 & sm1 & Hcow & n & r & -> & ->).
      pose proof (cow_prepared _ _ _ _ _ _ _ _ _ _ _ _ Hcow) as Hprep.
      pose proof (prepared_inv _ _ _ _ Hinv Hprep) as Hinv1.
      split.
      * cbn [snd]. eapply cow_kept; [done|done|done|done|].
        cbn [ids map]. left.
      * right. eexists _, _. split; [by econstructor|done].
    + left. by destruct Hpost as (? & ? & _).
  - (* V& r = s.front(k) *)
    wp_pure. eapply wp_mono; [by apply front_key_spec|].
    intros o c' [_ Hpost]. destruct o as [a|e| |]; wp_pure; [| |done..].
    + destruct Hpost as (l & ms1 & sm1 & Hcow & top & st & Hfind & ->).
      pose proof (cow_prepared _ _ _ _ _ _ _ _ _ _ _ _ Hcow) as Hprep.
      pose proof (prepared_inv _ _ _ _ Hinv Hprep) as Hinv1.
      destruct (top_of_key _ _ _ _ _ _ Hinv1 Hfind) as (n & rest & _ & _ & _ & _ & _ & Hn).
      split.
      * eapply cow_kept; [done|done|done|done|]. by eapply find_node_ids.
      * right. eexists _, _. split; [by econstructor|done].
    + destruct Hpost as [(_ & _ & Hcase)|(_ & _ & ? & ?)]; auto.
  - (* r = v through a reference kept *)
    destruct (kept !! i) as [[l i0]|] eqn:Ei; [|by wp_pure; split; [|left]].
    destruct Hkept as [->|(l1 & l2 & ms0 & sm0 & -> & Hne & Hh1 & Hh2 & Hinv0 & Hk)];
      [done|].
    rewrite Forall_forall in Hk.
    destruct (Hk (l, i0)) as [Hl Hi0]; [by eapply list_elem_of_lookup_2|].
    cbn [fst snd] in Hl, Hi0. subst l.
    destruct (ids_find_node _ _ Hi0) as [n Hn].
    assert (ms = ms0 ∧ sm = sm0) as [-> ->].
    { unfold owns in Hown. cbn in Hown.
      destruct Hown as (_ & r & Ho1 & Ho2). by simplify_eq. }
    wp_pure. eapply wp_assign; [done|done|]. wp_pure.
    pose proof (list_assign_inv i0 v _ _ Hinv0) as Hinv'.
    assert (cow h (Stack (Some l1) (Some l2) false) false ms0 sm0 l1 ms0 sm0
              (list_assign i0 v ms0) sm0 (Stack (Some l1) (Some l2) false)
              (<[l1:=Cell 1 (OList (list_assign i0 v ms0))]> h)) as Hcow.
    { replace (<[l1:=Cell 1 (OList (list_assign i0 v ms0))]> h)
        with (<[l1:=Cell 1 (OList (list_assign i0 v ms0))]>
                (<[l2:=Cell 1 (OMap sm0)]> h)) by heap_eq.
      by constructor. }
    split.
    + eapply cow_kept; [exact Hcow| |apply list_assign_ids|done].
      right. exists l1, l2, ms0, sm0. rewrite Forall_forall. done.
    + right. eexists _, _. split; [by econstructor|done].
Qed.

(** *** An action on a half-built object *)

(** [pop()], [front()] and a write through no reference leave it as it
    is, [clear()] releases its list, and the calls that go through
    [stacks_map] have undefined behaviour unless they run out of memory
    before. *)
Lemma half_action (a : action) s h f :
  half h s →
  wp (run_action a []) (Config s (World h f)) (λ o c',
    match o with
    | Ret kept' =>
        kept' = [] ∧
        ((this c' = s ∧ heap (mem c') = h) ∨
         ∃ l1, main_stack s = Some l1 ∧ this c' = Stack None None true ∧
               heap (mem c') = delete l1 h)
    | Throw e => this c' = s ∧ heap (mem c') = h
    | _ => True
    end).
Proof.
  intros (l1 & E1 & E2 & Hl1). destruct s as [p1 p2 sh].
  cbn [main_stack stacks_map] in E1, E2. subst p1 p2.
  assert (∀ (A : Type) pushf (body : M K V A) mark
            (Q : outcome A → config K V → Prop),
    (∀ f', f' `suffix_of` f →
       wp body (Config (Stack (Some l1) None mark)
                  (World (<[l1 := Cell 2 (OList [])]> h) f'))
         (λ o c', match o with
                  | Throw e => this c' = Stack (Some l1) None mark ∧
                      heap (mem c') = <[l1 := Cell 2 (OList [])]> h ∧
                      Q (Throw e) (Config (Stack (Some l1) None sh)
                                     (World h (faults (mem c'))))
                  | Undefined => Q Undefined c'
                  | _ => False
                  end)) →
    wp (about_to_modify pushf mark body)
       (Config (Stack (Some l1) None sh) (World h f)) Q) as Hguard.
  { intros A pushf body mark Q Hbody. unfold about_to_modify. wp_pure.
    unfold about_to_modify_body. wp_pure.
    eapply wp_mono; [by apply Hbody|].
    intros o [s' [h' f']]. wp_simpl. destruct o as [a0|e| |]; [done| |done|done].
    intros (-> & -> & HQ). unfold assign_main_stack, assign_stacks_map.
    wp_pure.
    replace (<[l1:=Cell 1 (OList [])]> _) with h by heap_eq. done. }
  destruct a as [[k v| |k| | |k|v|k v]| |k|i v];
    cbn [run_action marks run_mutation lookup].
  - (* push *)
    change (push k v) with (about_to_modify (push_fuel 1) true (push_body k v)).
    apply wp_bind, Hguard. intros f' Hf'. unfold push_body. wp_pure.
    apply (wp_alloc_point f); [done|..].
    + intros f2 Hf2 Hin. wp_simpl. done.
    + intros f2 Hf2. by wp_pure.
  - (* pop() *)
    unfold pop, check_not_empty. wp_pure.
    apply (wp_throw_invalid_argument f); [done|..]; intros; by wp_simpl.
  - (* pop(k) *)
    unfold pop_key. apply wp_bind, Hguard. intros f' Hf'.
    unfold pop_key_body. wp_pure.
    apply (wp_alloc_point f); [done|..].
    + intros f2 Hf2 Hin. wp_simpl. done.
    + intros f2 Hf2. by wp_pure.
  - (* clear() *)
    unfold clear. wp_pure. split; [done|]. right. by exists l1.
  - (* front() *)
    unfold front, check_not_empty. wp_pure.
    apply (wp_throw_invalid_argument f); [done|..]; intros; by wp_simpl.
  - (* front(k) *)
    unfold front_key. wp_pure. apply Hguard. intros f' Hf'.
    unfold front_key_body. wp_pure.
    apply (wp_alloc_point f); [done|..].
    + intros f2 Hf2 Hin. wp_simpl. done.
    + intros f2 Hf2. by wp_pure.
  - (* s.front().second = v *)
    unfold set_front, front, check_not_empty. wp_pure.
    apply (wp_throw_invalid_argument f); [done|..]; intros; by wp_simpl.
  - (* s.front(k) = v *)
    unfold set_front_key, front_key. wp_pure. apply Hguard. intros f' Hf'.
    unfold front_key_body. wp_pure.
    apply (wp_alloc_point f); [done|..].
    + intros f2 Hf2 Hin. wp_simpl. done.
    + intros f2 Hf2. by wp_pure.
  - (* V& r = s.front().second *)
    unfold front, check_not_empty. wp_pure.
    apply (wp_throw_invalid_argument f); [done|..]; intros; by wp_simpl.
  - (* V& r = s.front(k) *)
    unfold front_key. wp_pure. apply Hguard. intros f' Hf'.
    unfold front_key_body. wp_pure.
    apply (wp_alloc_point f); [done|..].
    + intros f2 Hf2 Hin. wp_simpl. done.
    + intros f2 Hf2. by wp_pure.
  - (* no reference is kept *)
    wp_pure. split; [done|by left].
Qed.

(** *** Two objects *)

(** Two objects, each well formed or half built, with the references kept
    of each, that share their storage or have nothing in common. *)
Definition pair_inv h (A : stack) kA (B : stack) kB : Prop :=
  good h A ∧ good h B ∧ kept_ok h A kA ∧ kept_ok h B kB ∧ compat h A B.

Lemma pair_inv_sym h (A B : stack) kA kB :
  pair_inv h A kA B kB → pair_inv h B kB A kA.
Proof.
  intros (? & ? & ? & ? & ?). repeat split; try done. by apply compat_sym.
Qed.

(** What a call on [A] leaves of an object [B] that has nothing in common
    with [A]. *)
Lemma frame_separate h h' (A A' B : stack) kB f f' :
  good h B → kept_ok h B kB → separate A B →
  (∀ l, ¬ locs_of A l → is_Some (h !! l) → h' !! l = h !! l) →
  (∀ l, locs_of A' l → locs_of A l ∨ h !! l = None) →
  good h' B ∧ kept_ok h' B kB ∧ separate A' B ∧
  same_reads (Config B (World h f)) (Config B (World h' f')).
Proof.
  intros HB HkB Hsep Hother Hlocs.
  assert (∀ l, locs_of B l → h' !! l = h !! l) as Hsame.
  { intros l Hl. apply Hother; [|by eapply good_locs].
    intros HlA. by apply (Hsep l). }
  split; [by eapply good_unchanged|]. split; [by eapply kept_ok_unchanged|].
  split; [|by apply good_same_reads].
  intros l HlA' HlB. destruct (Hlocs l HlA') as [HlA|Hnone].
  - by apply (Hsep l).
  - destruct (good_locs h B l HB HlB) as [x Hx]. congruence.
Qed.

(** Two objects that share their storage are well formed and no
    reference is kept of either. *)
Lemma compat_cases h (A B : stack) kA kB :
  pair_inv h A kA B kB →
  separate A B ∨
  (kA = [] ∧ kB = [] ∧
   ∃ ms sm, owns h A ms sm ∧ owns h B ms sm ∧ storage_inv ms sm ∧
            main_stack A ≠ None).
Proof.
  intros (HA & HB & HkA & HkB & [[[Ha1 Ha2] Hr]|Hsep]); [|by left].
  destruct (main_stack A) as [l1|] eqn:E1.
  2: { left. intros l [Hl|Hl] HlB; [congruence|].
       destruct HA as [(ms & sm & Hown & _)|(l1 & ? & _)]; [|congruence].
       unfold owns in Hown. rewrite E1, Hl in Hown. done. }
  right.
  assert (∀ s k, main_stack s = Some l1 → kept_ok h s k → k = []) as Hnone.
  { intros s k Hs [->|(a1 & a2 & ms & sm & -> & _ & Hh1 & _)]; [done|].
    cbn in Hs. injection Hs as ->. specialize (Hr l1 _ eq_refl Hh1).
    cbn in Hr. lia. }
  split; [by eapply Hnone|]. split; [eapply Hnone; [|done]; congruence|].
  assert (¬ half h A) as HnA.
  { intros (a1 & Ea & _ & Hh). rewrite E1 in Ea. injection Ea as <-.
    specialize (Hr l1 _ eq_refl Hh). cbn in Hr. lia. }
  assert (¬ half h B) as HnB.
  { intros (a1 & Ea & _ & Hh). rewrite <- Ha1 in Ea. injection Ea as <-.
    specialize (Hr l1 _ eq_refl Hh). cbn in Hr. lia. }
  destruct HA as [(ms & sm & HownA & Hinv)|?]; [|done].
  destruct HB as [(msB & smB & HownB & _)|?]; [|done].
  exists ms, sm. split; [done|]. split; [|done].
  unfold owns in *. rewrite <- Ha1, <- Ha2 in HownB |- *. rewrite E1 in *.
  destruct (stacks_map A) as [l2|]; [|done].
  destruct HownA as (Hne & r & Hh1 & Hh2), HownB as (_ & rB & Hb1 & Hb2).
  simplify_eq. split; [done|]. by exists r.
Qed.

(** An action on one of two objects leaves everything that can be read
    of the other as it was, and the two as they have to be for the next
    action.  It has undefined behaviour on a half-built object only. *)
Lemma pair_action (a : action) h (A B : stack) kA kB f :
  pair_inv h A kA B kB →
  wp (run_action a kA) (Config A (World h f)) (λ o c',
    match o with
    | Ret _ | Throw _ =>
        same_reads (Config B (World h f)) (Config B (mem c')) ∧
        pair_inv (heap (mem c')) (this c') (kept_after kA o) B kB
    | _ => half h A
    end).
Proof.
  intros Hpair. pose proof Hpair as (HA & HB & HkA & HkB & Hcompat).
  assert (∀ f', same_reads (Config B (World h f)) (Config B (World h f')))
    as Hrefl by (intros f'; by apply good_same_reads).
  destruct HA as [(ms & sm & HownA & HinvA)|HhalfA].
  - (* [A] is well formed *)
    eapply wp_mono; [by apply (action_spec a kA A ms sm h f)|].
    intros o [A' [h' f']]. wp_simpl. cbn [kept_after].
    destruct o as [kept'|e| |]; [| |done..].
    + intros [Hk' [[-> ->]|(ms' & sm' & Hshape & Hinv')]].
      { split; [done|]. repeat split; try done. left. by exists ms, sm. }
      assert (good h' A') as HA'.
      { left. exists ms', sm'. split; [by eapply step_shape_owns|done]. }
      destruct (compat_cases _ _ _ _ _ Hpair)
        as [Hsep|(-> & -> & msB & smB & HoA & HoB & HinvB & HneA)].
      * destruct (frame_separate h h' A A' B kB f f' HB HkB Hsep)
          as (HB' & HkB' & Hsep' & Hreads).
        { intros l ? ?. by eapply step_other. }
        { intros l ?. by eapply step_locs. }
        split; [done|]. repeat split; try done. by right.
      * destruct (step_frame _ _ _ _ _ _ _ _ _ _ _ Hshape HoB Hcompat)
          as [HoB' Hsep'].
        split; [by eapply owns_same_reads|].
        split; [done|]. split; [by left; exists msB, smB|].
        split; [done|]. split; [by left|by right].
    + intros [[-> ->]|Hb].
      { split; [done|]. repeat split; try done. left. by exists ms, sm. }
      pose proof Hb as (Hnull & _).
      assert (kA = []) as ->.
      { destruct HkA as [->|(? & ? & ? & ? & -> & _)]; done. }
      assert (separate A B) as Hsep.
      { destruct (compat_cases _ _ _ _ _ Hpair) as [?|(_ & _ & ? & ? & _ & _ & _ & ?)];
          done. }
      destruct (frame_separate h h' A A' B kB f f' HB HkB Hsep)
        as (HB' & HkB' & Hsep' & Hreads).
      { intros l ? ?. by eapply half_built_other. }
      { intros l ?. right. by eapply half_built_locs. }
      split; [done|]. split; [right; by eapply half_built_half|].
      split; [done|]. split; [by left|]. split; [done|by right].
  - (* [A] is half built *)
    pose proof HhalfA as (l1 & E1 & E2 & Hl1).
    assert (kA = []) as ->.
    { destruct HkA as [->|(? & ? & ? & ? & -> & _)]; done. }
    assert (separate A B) as Hsep.
    { destruct (compat_cases _ _ _ _ _ Hpair)
        as [?|(_ & _ & ? & ? & Hown & _)]; [done|].
      unfold owns in Hown. by rewrite E1, E2 in Hown. }
    eapply wp_mono; [by apply (half_action a A h f)|].
    intros o [A' [h' f']]. wp_simpl. cbn [kept_after].
    destruct o as [kept'|e| |]; [| |done..].
    + intros [-> [[-> ->]|(l & El & -> & ->)]].
      { split; [done|]. repeat split; try done. by right. }
      rewrite E1 in El. injection El as <-.
      destruct (frame_separate h (delete l1 h) A (Stack None None true) B kB f f'
                  HB HkB Hsep) as (HB' & HkB' & Hsep' & Hreads).
      { intros l Hl _. apply lookup_delete_ne. intros ->. apply Hl. by left. }
      { by intros l [?|?]. }
      split; [done|]. split.
      { left. exists [], []. split; [done|apply storage_inv_nil]. }
      split; [done|]. split; [by left|]. split; [done|by right].
    + intros [-> ->]. split; [done|]. repeat split; try done. by right.
Qed.

(** *** The histories of a stack and of a copy of it *)

(** A stack and the references kept of it: a well-formed stack of which
    no reference is kept, after any actions that had defined behaviour. *)
Inductive tracked : gmap loc (cell K V) → stack → list vref → Prop :=
  | tracked_wf h (A : stack) : wf h A → tracked h A []
  | tracked_action h (A : stack) kept (a : action) f o (A' : stack) h' f' :
      tracked h A kept →
      run_action a kept (Config A (World h f)) = (o, Config A' (World h' f')) →
      defined o →
      tracked h' A' (kept_after kept o).

(** A stack [A] and a copy [B] of it: [B] has been copy-constructed from
    [A] when [A] was well formed, and then either of them has gone
    through any actions that had defined behaviour. *)
Inductive related :
    gmap loc (cell K V) → stack → list vref → stack → list vref → Prop :=
  | related_copy h (A : stack) kept s0 f (B : stack) h' f' :
      tracked h A kept → wf h A →
      stack_copy A (Config s0 (World h f)) = (Ret tt, Config B (World h' f')) →
      related h' A kept B []
  | related_source h (A B : stack) kA kB (a : action) f o (A' : stack) h' f' :
      related h A kA B kB →
      run_action a kA (Config A (World h f)) = (o, Config A' (World h' f')) →
      defined o →
      related h' A' (kept_after kA o) B kB
  | related_copy_side h (A B : stack) kA kB (a : action) f o (B' : stack) h' f' :
      related h A kA B kB →
      run_action a kB (Config B (World h f)) = (o, Config B' (World h' f')) →
      defined o →
      related h' A kA B' (kept_after kB o).

Lemma pair_inv_step (a : action) h (A B : stack) kA kB f o (A' : stack) h' f' :
  pair_inv h A kA B kB →
  run_action a kA (Config A (World h f)) = (o, Config A' (World h' f')) →
  defined o →
  pair_inv h' A' (kept_after kA o) B kB.
Proof.
  intros Hpair Hrun Ho. pose proof (pair_action a h A B kA kB f Hpair) as Hspec.
  eapply wp_inv in Hspec; [|exact Hrun]. cbn [this mem heap] in Hspec.
  destruct o as [kept'|e| |]; try done; apply Hspec.
Qed.

Lemma tracked_ok h (A : stack) kept :
  tracked h A kept → good h A ∧ kept_ok h A kept.
Proof.
  assert (∀ h (A : stack) kept, good h A → kept_ok h A kept →
            pair_inv h A kept (Stack None None true) []) as Hnull.
  { intros h0 A0 k0 ? ?. split; [done|]. split.
    { left. exists [], []. split; [done|apply storage_inv_nil]. }
    split; [done|]. split; [by left|]. right. by intros l _ [?|?]. }
  induction 1 as [h A Hwf|h A kept a f o A' h' f' _ [IH1 IH2] Hrun Ho].
  - split; [by left|by left].
  - pose proof (pair_inv_step a h A _ kept [] f o A' h' f'
                  (Hnull _ _ _ IH1 IH2) Hrun Ho) as (? & _ & ? & _).
    done.
Qed.

Lemma related_pair_inv h (A B : stack) kA kB :
  related h A kA B kB → pair_inv h A kA B kB.
Proof.
  induction 1 as [h A kept s0 f B h' f' Htr (ms & sm & Hown & Hinv) Hrun
                 | h A B kA kB a f o A' h' f' _ IH Hrun Ho
                 | h A B kA kB a f o B' h' f' _ IH Hrun Ho].
  - destruct (tracked_ok _ _ _ Htr) as [_ Hk].
    pose proof (stack_copy_spec A s0 ms sm h f Hown) as Hspec.
    eapply wp_inv in Hspec; [|exact Hrun]. cbn [this mem heap] in Hspec.
    destruct Hspec as [_ Hc].
    destruct (copied_pair _ _ _ _ _ _ Hown Hc)
      as (HA' & Hcompat & _ & Hcase).
    split; [by left; exists ms, sm|]. split.
    { destruct Hcase as [(_ & _ & HB)|(_ & _ & HB & _)]; left.
      - by exists ms, sm.
      - eexists _, _. split; [exact HB|apply replay_inv]. }
    split; [|split; [by left|done]].
    destruct Hk as [->|(l1 & l2 & ms0 & sm0 & -> & Hne & Hh1 & Hh2 & Hinv0 & Hk)];
      [by left|].
    destruct Hc as [Hsh|a1 a2 r Hsh|a1 a2 Hsh Hn1 Hn2 Hne']; [done|done|].
    right. exists l1, l2, ms0, sm0. split; [done|]. split; [done|].
    assert (l1 ≠ a1 ∧ l1 ≠ a2 ∧ l2 ≠ a1 ∧ l2 ≠ a2) as (?&?&?&?)
      by (repeat split; intros ->; congruence).
    split; [heap_lookup|]. split; [heap_lookup|done].
  - by eapply pair_inv_step.
  - apply pair_inv_sym. eapply pair_inv_step; [|done..]. by apply pair_inv_sym.
Qed.


End References.
Arguments action : clear implicits.

Section Failures.
Context {K V : Type} `{KeyOrder K}.
Implicit Types (s : stack) (h : gmap loc (cell K V)) (f : list bool).
Implicit Types (c : config K V) (es : list (K * V)).

Lemma wp_alloc_point_ok s h fs Q :
  Q (Ret tt) (Config s (World h fs)) →
  wp alloc_point (Config s (World h (false :: fs))) Q.
Proof. done. Qed.

Lemma wp_alloc_point_fail s h fs Q :
  Q (Throw bad_alloc) (Config s (World h fs)) →
  wp alloc_point (Config s (World h (true :: fs))) Q.
Proof. done. Qed.

Lemma wp_make_shared_ok (o : obj K V) s h fs Q :
  (∀ l, h !! l = None → Q (Ret l) (Config s (World (<[l := Cell 1 o]> h) fs))) →
  wp (make_shared o) (Config s (World h (false :: fs))) Q.
Proof.
  intros HQ. unfold make_shared. apply wp_bind, wp_alloc_point_ok.
  unfold bind_post, wp. cbn [fst snd mem heap this faults].
  apply HQ. apply not_elem_of_dom, is_fresh.
Qed.

Lemma wp_make_shared_fail (o : obj K V) s h fs Q :
  Q (Throw bad_alloc) (Config s (World h fs)) →
  wp (make_shared o) (Config s (World h (true :: fs))) Q.
Proof.
  intros HQ. unfold make_shared. by apply wp_bind, wp_alloc_point_fail.
Qed.

(** A call that throws has changed nothing that can be observed, or has
    left an object that had no storage half built. *)
Lemma failure_leaves (m : mutation K V) c es :
  holds c es →
  wp (run_mutation m) c (λ o c',
    ∀ e, o = Throw e → obs_eq c c' ∨ half_built_from c c').
Proof.
  intros Hc. eapply wp_mono; [by apply mutation_holds|].
  intros o c' [_ Hpost] e ->.
  destruct Hpost as [(_ & _ & [?|?])|(_ & _ & _ & ?)]; auto using obs_eq_unchanged.
Qed.

(** On an object that has storage, every mutation is atomic with respect
    to failure. *)
Lemma failure_atomic_with_storage (m : mutation K V) c es :
  holds c es → main_stack (this c) ≠ None →
  wp (run_mutation m) c (λ o c', ∀ e, o = Throw e → obs_eq c c').
Proof.
  intros Hc Hst. eapply wp_mono; [by eapply failure_leaves|].
  intros o c' Hpost e He. destruct (Hpost e He) as [?|(Hnull & _)]; done.
Qed.

(** What [count] does on a half-built object: it goes through the null
    [stacks_map]. *)
Lemma half_built_count (k : K) c c' :
  half_built_from c c' → observe (count k) c' = Undefined.
Proof.
  destruct c as [s [h f]], c' as [s' [h' f']].
  intros (_ & l1 & Hl1 & Hs & Hh). cbn [this mem heap] in *. subst s' h'.
  apply observe_wp. unfold count. wp_simpl. wp_pure.
  apply wp_quiet_alloc_point. by wp_pure.
Qed.

(** C2, where the code departs from it.  On a stack without storage
    (cleared, or moved from), a [push] whose first allocation succeeds and
    whose second allocation fails throws [std::bad_alloc] and leaves
    [main_stack] set and [stacks_map] null: [count(k)], which returned 0
    before the call, now dereferences the null handle. *)
Theorem push_failure_not_atomic (k : K) (v : V) (sh : bool) h fs :
  wp (push k v) (Config (Stack None None sh) (World h (false :: true :: fs)))
    (λ o c',
      o = Throw bad_alloc ∧
      observe (count k) (Config (Stack None None sh) (World h fs)) = Ret 0 ∧
      observe (count k) c' = Undefined ∧
      ∃ l, this c' = Stack (Some l) None sh).
Proof.
  change (push k v) with (about_to_modify (push_fuel 1) true (push_body k v)).
  unfold about_to_modify. wp_pure.
  unfold about_to_modify_body. wp_pure.
  unfold reset_main_stack_fresh, reset_stacks_map_fresh. wp_pure.
  apply wp_make_shared_ok. intros l1 Hl1. wp_pure.
  apply wp_make_shared_fail. wp_pure.
  split; [done|]. split; [done|]. split; [|by exists l1].
  apply (half_built_count k (Config (Stack None None sh) (World h fs))).
  split; [done|]. by exists l1.
Qed.

(** What the calls that go through [stacks_map] do on a half-built object
    when nothing is made to fail: they dereference the null handle. *)
Lemma half_built_push (k : K) (v : V) c c' :
  half_built_from c c' → observe (push k v) c' = Undefined.
Proof.
  destruct c as [s [h f]], c' as [s' [h' f']].
  intros (_ & l1 & Hl1 & Hs & Hh). cbn [this mem heap] in *. subst s' h'.
  apply observe_wp.
  change (push k v) with (about_to_modify (push_fuel 1) true (push_body k v)).
  unfold about_to_modify. wp_simpl. wp_pure.
  unfold about_to_modify_body. wp_pure.
  unfold push_body. wp_pure. apply wp_quiet_alloc_point. by wp_pure.
Qed.

Lemma half_built_pop_key (k : K) c c' :
  half_built_from c c' → observe (pop_key k) c' = Undefined.
Proof.
  destruct c as [s [h f]], c' as [s' [h' f']].
  intros (_ & l1 & Hl1 & Hs & Hh). cbn [this mem heap] in *. subst s' h'.
  apply observe_wp. unfold pop_key, about_to_modify. wp_simpl. wp_pure.
  unfold about_to_modify_body. wp_pure.
  unfold pop_key_body. wp_pure. apply wp_quiet_alloc_point. by wp_pure.
Qed.

Lemma half_built_front_key (k : K) c c' :
  half_built_from c c' → observe (front_key k) c' = Undefined.
Proof.
  destruct c as [s [h f]], c' as [s' [h' f']].
  intros (_ & l1 & Hl1 & Hs & Hh). cbn [this mem heap] in *. subst s' h'.
  apply observe_wp. unfold front_key, about_to_modify. wp_simpl. wp_pure.
  unfold about_to_modify_body. wp_pure.
  unfold front_key_body. wp_pure. apply wp_quiet_alloc_point. by wp_pure.
Qed.

Lemma half_built_front_key_const (k : K) c c' :
  half_built_from c c' → observe (front_key_const k) c' = Undefined.
Proof.
  destruct c as [s [h f]], c' as [s' [h' f']].
  intros (_ & l1 & Hl1 & Hs & Hh). cbn [this mem heap] in *. subst s' h'.
  apply observe_wp. unfold front_key_const. wp_simpl. wp_pure.
  apply wp_quiet_alloc_point. by wp_pure.
Qed.

Lemma half_built_size c c' :
  half_built_from c c' → observe size c' = Ret 0.
Proof.
  destruct c as [s [h f]], c' as [s' [h' f']].
  intros (_ & l1 & Hl1 & Hs & Hh). cbn [this mem heap] in *. subst s' h'.
  apply observe_wp. unfold size. wp_simpl. by wp_pure.
Qed.

(** What a [push] whose second allocation fails does to an object without
    storage. *)
Lemma failed_push_half_builds (k : K) (v : V) (sh : bool) h fs :
  wp (push k v) (Config (Stack None None sh) (World h (false :: true :: fs)))
    (λ o c',
      o = Throw bad_alloc ∧
      half_built_from (Config (Stack None None sh) (World h fs)) c').
Proof.
  change (push k v) with (about_to_modify (push_fuel 1) true (push_body k v)).
  unfold about_to_modify. wp_pure.
  unfold about_to_modify_body. wp_pure.
  unfold reset_main_stack_fresh, reset_stacks_map_fresh. wp_pure.
  apply wp_make_shared_ok. intros l1 Hl1. wp_pure.
  apply wp_make_shared_fail. wp_pure.
  split; [done|]. split; [done|]. by exists l1.
Qed.

(** C5, where the code departs from it.  An object without storage
    (cleared, or moved from) is well formed and the invariant holds on it.
    A [push] on it whose first allocation succeeds and whose second
    allocation fails throws [std::bad_alloc] and leaves a main sequence
    with no key index behind it: the invariant, which speaks of the keys
    of the index, does not hold after this call, and the object is not
    well formed, so that the next [push] dereferences the null handle. *)
Theorem invariant_lost_by_failed_push (k : K) (v : V) (sh : bool) h fs :
  wf h (Stack None None sh) ∧
  invariant_holds (Config (Stack None None sh) (World h (false :: true :: fs))) ∧
  wp (push k v) (Config (Stack None None sh) (World h (false :: true :: fs)))
    (λ o c',
      o = Throw bad_alloc ∧
      (∃ l, this c' = Stack (Some l) None sh) ∧
      views c' = None ∧
      ¬ invariant_holds c' ∧
      ¬ wf (heap (mem c')) (this c') ∧
      observe (push k v) c' = Undefined).
Proof.
  assert (wf h (Stack None None sh)) as Hwf.
  { exists [], []. split; [done|apply storage_inv_nil]. }
  split; [done|]. split; [by apply wf_invariant|].
  eapply wp_mono; [apply failed_push_half_builds|].
  intros o [s' [h' f']] [-> Hb]. split; [done|].
  pose proof Hb as (_ & l1 & _ & Hs & _). cbn [this mem heap] in Hs.
  split; [by exists l1; rewrite Hs|].
  split; [by eapply half_built_views|].
  split; [by eapply half_built_no_invariant|]. split.
  - cbn [this mem heap]. rewrite Hs. intros (ms & sm & Hown & _). done.
  - by eapply half_built_push.
Qed.

(** C7, where the code departs from it.  On the object that a [push]
    whose second allocation failed has left, [size()] is 0 and, with no
    allocation made to fail, [push], [pop(k)], both [front(k)] and
    [count(k)] neither return nor throw: they dereference the null
    [stacks_map]. *)
Theorem undefined_with_no_failure (k k' : K) (v v' : V) (sh : bool) h fs :
  wp (push k v) (Config (Stack None None sh) (World h (false :: true :: fs)))
    (λ o c',
      o = Throw bad_alloc ∧
      observe size c' = Ret 0 ∧
      observe (push k' v') c' = Undefined ∧
      observe (pop_key k') c' = Undefined ∧
      observe (front_key k') c' = Undefined ∧
      observe (front_key_const k') c' = Undefined ∧
      observe (count k') c' = Undefined).
Proof.
  eapply wp_mono; [apply failed_push_half_builds|].
  intros o c' [-> Hb]. split; [done|].
  split; [by eapply half_built_size|].
  split; [by eapply half_built_push|].
  split; [by eapply half_built_pop_key|].
  split; [by eapply half_built_front_key|].
  split; [by eapply half_built_front_key_const|].
  by eapply half_built_count.
Qed.

(** C9, where the code departs from it.  On the object that a [push]
    whose second allocation failed has left, which [size()] reports as
    empty, [push(k', v')] followed by [pop()] does not give the state
    back: with no allocation made to fail the [push] dereferences the
    null [stacks_map]. *)
Theorem round_trip_undefined_after_failed_push
    (k k' : K) (v v' : V) (sh : bool) h fs :
  wp (push k v) (Config (Stack None None sh) (World h (false :: true :: fs)))
    (λ o c',
      o = Throw bad_alloc ∧
      observe size c' = Ret 0 ∧
      observe (bind (push k' v') (λ _, pop)) c' = Undefined).
Proof.
  eapply wp_mono; [apply failed_push_half_builds|].
  intros o c' [-> Hb]. split; [done|].
  split; [by eapply half_built_size|].
  pose proof (half_built_push k' v' _ _ Hb) as Hp.
  unfold observe in *. unfold bind.
  destruct (push k' v' _) as [o1 c1]. cbn [fst] in Hp. by subst o1.
Qed.

End Failures.

(** ** The other members: move construction, assignment, destruction *)

Section OtherMembers.
Context {K V : Type} `{KeyOrder K}.

Notation "'let*' x := m 'in' f" := (bind m (λ x, f))
  (at level 10, x name, m at level 100, f at level 200, only parsing).
Notation "m >> f" := (bind m (λ _, f))
  (at level 100, f at level 200, right associativity, only parsing).

(** [stack(stack&& other) noexcept], run on the object under construction:
    the handles of [other] are moved (no reference count changes, [other]
    is left with null handles) and its flag is copied.  The result is
    [other] after the call. *)
Definition stack_move (other : stack) : M K V stack :=
  set_this (Stack (main_stack other) (stacks_map other) (shareable other)) >>
  ret (Stack None None (shareable other)).

(** The implicit destructor [~stack()]. *)
Definition stack_destroy : M K V unit :=
  let* s := get_this in destroy_members s.

(** [a = b;] through [stack& operator=(stack other) noexcept]: the caller
    copy-constructs the parameter [other] from [b], the body swaps it with
    [this], and the parameter, which then has what [this] had, is
    destroyed when the call is over. *)
Definition assign_copy (b : stack) : M K V unit :=
  let* r := call_on (Stack None None true) (stack_copy b) in
  match r with
  | (Thrown e, _) => throw e
  | (Normal _, other) =>
      let* other := swap other in
      destroy_members other
  end.

(** [a = std::move(b);] for an object [b] other than [a]: the parameter is
    move-constructed from [b].  The result is [b] after the call. *)
Definition assign_move (b : stack) : M K V stack :=
  let* r := call_on (Stack None None true) (stack_move b) in
  match r with
  | (Thrown e, _) => throw e
  | (Normal b', other) =>
      let* other := swap other in
      destroy_members other >> ret b'
  end.

(** [const_iterator operator++(int)]: the result is the iterator as it
    was, beside the iterator advanced. *)
Definition iter_post_incr (it : const_iterator K) :
    M K V (const_iterator K * const_iterator K) :=
  let result := it in
  let* it' := iter_incr it in
  ret (result, it').

(** [operator!=] *)
Definition iter_neqb (a b : const_iterator K) : bool := negb (iter_eqb a b).

(** [pointer operator->()]: the address of the key [operator*] refers to. *)
Definition iter_arrow (it : const_iterator K) : M K V K := iter_deref it.

(** [for (auto it = first; it != last; it++) out.push_back( *it );] *)
Fixpoint traverse_post (fuel : nat) (it last : const_iterator K) : M K V (list K) :=
  match fuel with
  | 0 => out_of_fuel
  | S fuel =>
      if iter_neqb it last then
        let* k := iter_deref it in
        let* r := iter_post_incr it in
        let* ks := traverse_post fuel r.2 last in
        ret (k :: ks)
      else ret []
  end.

End OtherMembers.

Section Construction.
Context {K V : Type} `{KeyOrder K}.
Implicit Types (s : stack) (h : gmap loc (cell K V)) (f : list bool).
Implicit Types (ms : main_stack_t K V) (sm : stacks_map_t K).
Implicit Types (c : config K V) (es : list (K * V)).

(** The object is the one owner of its storage: the reference counts of
    its two cells are 1. *)
Definition sole_owner c : Prop :=
  ∀ l, locs_of (this c) l →
       ∃ o, heap (mem c) !! l = Some (Cell 1 o).

Lemma holds_nil_observed c :
  holds c [] →
  observe size c = Ret 0 ∧ (∀ k, observe (count k) c = Ret 0) ∧
  observe keys c = Ret [] ∧ observe front_const c = Throw empty_front_error.
Proof.
  intros Hc. split; [by rewrite (holds_size c [] Hc)|].
  split; [by intros k; rewrite (holds_count k c [] Hc)|].
  destruct (key_iteration_sorted c [] Hc) as (ks & -> & _ & _ & Hks).
  destruct c as [s [h f]]. destruct Hc as (ms & sm & Hown & Hinv & He).
  cbn [this mem heap] in *. split.
  - destruct ks as [|k ks]; [done|].
    exfalso. assert (k ∈ k :: ks) as Hk by left.
    apply Hks in Hk. by apply elem_of_nil in Hk.
  - rewrite (observe_front_const _ _ _ _ _ Hown). by destruct ms.
Qed.

(** The default constructor builds an empty stack on two objects that were
    not there before and that it alone owns.  It fails by [std::bad_alloc]
    only, when an allocation is made to fail, and then the heap is as it
    was: the list allocated before a failing second allocation is
    released. *)
Theorem default_constructor (s0 : stack) h f :
  wp stack_default (Config s0 (World h f)) (λ o c',
    (f = [] → o = Ret tt) ∧
    match o with
    | Ret _ =>
        holds c' [] ∧ shareable (this c') = true ∧ sole_owner c' ∧
        (∀ l, locs_of (this c') l → h !! l = None) ∧
        observe size c' = Ret 0 ∧ observe keys c' = Ret []
    | Throw e => e = bad_alloc ∧ true ∈ f ∧ heap (mem c') = h
    | _ => False
    end).
Proof.
  eapply wp_mono; [apply (stack_default_spec s0 h f f); done|].
  intros o [s' [h' f']]. wp_simpl. intros [_ Hpost].
  destruct o as [a|e| |]; [| |done..].
  - split; [by destruct a|].
    destruct Hpost as (l1 & l2 & Hn1 & Hn2 & Hne & -> & ->).
    assert (holds (Config (Stack (Some l1) (Some l2) true)
      (World (<[l1:=Cell 1 (OList [])]> (<[l2:=Cell 1 (OMap [])]> h)) f')) [])
      as Hc.
    { exists [], []. split; [|split; [apply storage_inv_nil|done]].
      unfold owns. cbn. split; [done|]. exists 0. split; heap_lookup. }
    split; [done|]. split; [done|]. split; [|split].
    + intros l [Hl|Hl]; cbn in Hl; simplify_eq; eexists; cbn; heap_lookup.
    + intros l [Hl|Hl]; cbn in Hl; by simplify_eq.
    + by destruct (holds_nil_observed _ Hc) as (? & _ & ? & _).
  - destruct Hpost as (-> & Hin & ->). split; [|done].
    intros ->. by apply elem_of_nil in Hin.
Qed.

(** Any object with null handles holds nothing. *)
Lemma holds_null sh h f : holds (Config (Stack None None sh) (World h f)) [].
Proof.
  exists [], []. split; [done|]. split; [apply storage_inv_nil|done].
Qed.

(** [clear()] never fails, whatever is made to fail, and allocates nothing.
    It leaves an empty, shareable stack without storage: [size()] and every
    [count(k)] are 0, the key iteration is empty, [front()] and [pop()]
    fail.  The storage is freed when the stack was its last owner, and
    keeps its contents, with one owner less, otherwise. *)
Theorem clear_releases c es :
  holds c es →
  wp clear c (λ o c',
    o = Ret tt ∧ faults (mem c') = faults (mem c) ∧
    this c' = Stack None None true ∧
    observe size c' = Ret 0 ∧ (∀ k, observe (count k) c' = Ret 0) ∧
    observe keys c' = Ret [] ∧
    observe front_const c' = Throw empty_front_error ∧
    observe pop c' = Throw empty_stack_error ∧
    (∀ l x, locs_of (this c) l → heap (mem c) !! l = Some x →
       heap (mem c') !! l =
         match refs x with
         | 1 => None
         | n => Some (Cell (Nat.pred n) (payload x))
         end) ∧
    (∀ l, ¬ locs_of (this c) l → heap (mem c') !! l = heap (mem c) !! l)).
Proof.
  destruct c as [s [h f]]. intros (ms & sm & Hown & Hinv & <-).
  eapply wp_mono; [by apply clear_spec|].
  intros o [s' [h' f']]. wp_simpl. intros (-> & -> & -> & Hrel).
  pose proof (holds_null true h' f) as Hc.
  destruct (holds_nil_observed _ Hc) as (Hsize & Hcount & Hkeys & Hfront).
  do 7 (split; [done|]). split; [done|].
  destruct Hrel as [E1 E2|l1 l2 E1 E2 Hne Hh1 Hh2|l1 l2 r E1 E2 Hne Hh1 Hh2];
    unfold locs_of; rewrite E1, E2; split.
  - by intros l x [?|?].
  - done.
  - intros l x [[= <-]|[= <-]] Hx; simplify_eq; cbn; heap_lookup.
  - intros l Hl. assert (l ≠ l1 ∧ l ≠ l2) as [? ?] by (split; intros ->; tauto).
    heap_lookup.
  - intros l x [[= <-]|[= <-]] Hx; simplify_eq; cbn; heap_lookup.
  - intros l Hl. assert (l ≠ l1 ∧ l ≠ l2) as [? ?] by (split; intros ->; tauto).
    heap_lookup.
Qed.

(** Copying a shareable stack never fails and allocates nothing: the copy
    takes the two handles of the source, each object counts one owner
    more, and the rest of the heap is as it was.  The source and the copy
    hold the same entries, and the copy is shareable. *)
Theorem copy_of_shareable (A s0 : stack) h f es :
  holds (Config A (World h f)) es → shareable A = true →
  wp (stack_copy A) (Config s0 (World h f)) (λ o c',
    o = Ret tt ∧
    aliased A (this c') ∧ shareable (this c') = true ∧
    holds c' es ∧ holds (Config A (mem c')) es ∧
    (∀ l x, locs_of A l → h !! l = Some x →
       heap (mem c') !! l = Some (Cell (S (refs x)) (payload x))) ∧
    (∀ l, ¬ locs_of A l → heap (mem c') !! l = h !! l)).
Proof.
  intros (ms & sm & Hown & Hinv & <-) Hsh. cbn [this mem heap] in Hown.
  eapply wp_mono; [by apply (stack_copy_spec A s0 ms sm h f)|].
  intros o [s' [h' f']]. wp_simpl. intros [_ Hpost].
  destruct o as [[]|e| |]; [| |done..].
  2: { destruct Hpost as (_ & _ & ? & _). congruence. }
  split; [done|].
  destruct (copied_pair _ _ _ _ _ _ Hown Hpost)
    as (HA & _ & HshB & [(_ & Hal & HB)|(? & _)]); [|congruence].
  split; [done|]. split; [done|].
  split; [by exists ms, sm|]. split; [by exists ms, sm|].
  destruct Hpost as [_ E1 E2|l1 l2 r _ E1 E2 Hne Hh1 Hh2|l1 l2 ? Hn1 Hn2 Hne];
    [| |congruence]; unfold locs_of; rewrite E1, E2; split.
  - by intros l x [?|?].
  - done.
  - intros l x [[= <-]|[= <-]] Hx; simplify_eq; cbn; heap_lookup.
  - intros l Hl. assert (l ≠ l1 ∧ l ≠ l2) as [? ?] by (split; intros ->; tauto).
    heap_lookup.
Qed.

(** A copy construction that fails has failed by [std::bad_alloc] on a
    source that is not shareable, and leaves the heap as it was: what the
    constructor had allocated is released, and the source is untouched. *)
Theorem copy_failure_releases (A s0 : stack) h f es :
  holds (Config A (World h f)) es →
  wp (stack_copy A) (Config s0 (World h f)) (λ o c',
    ∀ e, o = Throw e →
      e = bad_alloc ∧ true ∈ f ∧ shareable A = false ∧
      heap (mem c') = h ∧ holds (Config A (mem c')) es).
Proof.
  intros (ms & sm & Hown & Hinv & <-). cbn [this mem heap] in Hown.
  eapply wp_mono; [by apply (stack_copy_spec A s0 ms sm h f)|].
  intros o [s' [h' f']]. wp_simpl. intros [_ Hpost] e ->.
  destruct Hpost as (-> & Hin & Hsh & ->). do 4 (split; [done|]).
  by exists ms, sm.
Qed.

(** The move constructor never fails and leaves the heap as it is: no
    reference count changes.  The new object holds what the source held
    and has its flag; the source is left without storage, so that it
    reads as an empty stack, and keeps its flag. *)
Theorem move_constructor (A s0 : stack) w es :
  holds (Config A w) es →
  wp (stack_move A) (Config s0 w) (λ o c',
    ∃ A', o = Ret A' ∧ mem c' = w ∧
      main_stack (this c') = main_stack A ∧
      stacks_map (this c') = stacks_map A ∧
      shareable (this c') = shareable A ∧
      holds c' es ∧
      A' = Stack None None (shareable A) ∧
      holds (Config A' w) [] ∧ observe size (Config A' w) = Ret 0).
Proof.
  destruct w as [h f]. intros (ms & sm & Hown & Hinv & <-).
  cbn [this mem heap] in Hown.
  unfold stack_move. wp_pure.
  exists (Stack None None (shareable A)).
  do 5 (split; [done|]). split.
  { exists ms, sm. split; [|done]. cbn [this mem heap].
    unfold owns in *. cbn [main_stack stacks_map]. exact Hown. }
  split; [done|]. split; [apply holds_null|done].
Qed.

End Construction.

Section Assignment.
Context {K V : Type} `{KeyOrder K}.
Implicit Types (s a b : stack) (h : gmap loc (cell K V)) (f : list bool).
Implicit Types (ms : main_stack_t K V) (sm : stacks_map_t K).
Implicit Types (c : config K V) (es : list (K * V)).

Lemma wp_destroy_members s ms sm s0 h f Q :
  owns h s ms sm →
  (∀ h', released h s ms sm h' → Q (Ret tt) (Config s0 (World h' f))) →
  wp (destroy_members s) (Config s0 (World h f)) Q.
Proof.
  intros Hown HQ. unfold owns in Hown. unfold destroy_members.
  destruct s as [[l1|] [l2|] sh]; cbn [main_stack stacks_map] in *; try done.
  - destruct Hown as (Hne & [|r] & Hh1 & Hh2); wp_pure; apply HQ.
    + replace (delete l1 (delete l2 h)) with (delete l2 (delete l1 h))
        by apply delete_delete.
      by eapply released_last.
    + replace (<[l1:=Cell (S r) (OList ms)]> (<[l2:=Cell (S r) (OMap sm)]> h))
        with (<[l2:=Cell (S r) (OMap sm)]> (<[l1:=Cell (S r) (OList ms)]> h))
        by (by apply insert_insert_ne).
      by eapply released_shared.
  - destruct Hown as [-> ->]. wp_pure. apply HQ. by constructor.
Qed.

(** What a copy construction from [b] does to a third object [a]. *)
Lemma copied_frame h b msb smb other h1 a msa sma :
  copied h b msb smb other h1 →
  owns h b msb smb → owns h a msa sma →
  aliased a b ∨ separate a b →
  owns h1 a msa sma ∧ compat h1 a other ∧
  (compat h a b → compat h1 a b).
Proof.
  intros Hc Hb Ha Hab.
  destruct Hc as [Hsh E1 E2 | l1 l2 r Hsh E1 E2 Hne Hh1 Hh2
                  | l1 l2 Hsh Hn1 Hn2 Hne].
  - split; [done|]. split; [|done]. right. by intros l _ [?|?].
  - destruct Hab as [[A1 A2]|Hsep].
    + rewrite E1 in A1. rewrite E2 in A2.
      assert (owns (<[l2:=Cell (S (S r)) (OMap smb)]>
                (<[l1:=Cell (S (S r)) (OList msb)]> h)) a msa sma) as Ha'.
      { unfold owns in *. rewrite A1, A2 in *.
        destruct Ha as (_ & ra & Ha1 & Ha2). simplify_eq.
        split; [done|]. exists (S r). split; heap_lookup. }
      assert (∀ l x, main_stack a = Some l →
                (<[l2:=Cell (S (S r)) (OMap smb)]>
                   (<[l1:=Cell (S (S r)) (OList msb)]> h)) !! l = Some x →
                2 ≤ refs x) as Hrefs.
      { intros l x Hl. rewrite A1 in Hl. injection Hl as <-.
        rewrite lookup_insert_ne, lookup_insert_eq by done.
        intros [= <-]. cbn. lia. }
      split; [done|]. split; [by left|]. intros _. left. split; [|done].
      by split; [rewrite A1, E1|rewrite A2, E2].
    + assert (¬ locs_of a l1 ∧ ¬ locs_of a l2) as [Hn1 Hn2].
      { split; intros Hl; apply (Hsep _ Hl); [by left|by right]. }
      assert (owns (<[l2:=Cell (S (S r)) (OMap smb)]>
                (<[l1:=Cell (S (S r)) (OList msb)]> h)) a msa sma) as Ha'.
      { unfold owns in *. unfold locs_of in Hn1, Hn2.
        destruct (main_stack a) as [a1|], (stacks_map a) as [a2|]; try done.
        destruct Ha as (Hnea & ra & Ha1 & Ha2). split; [done|]. exists ra.
        assert (l1 ≠ a1 ∧ l1 ≠ a2 ∧ l2 ≠ a1 ∧ l2 ≠ a2) as (?&?&?&?)
          by (repeat split; intros ->; tauto).
        split; heap_lookup. }
      split; [done|]. split; [|by right].
      right. intros l Hl [Hl'|Hl']; cbn in Hl'; simplify_eq; tauto.
  - assert (owns (<[l1:=Cell 1 (OList (replay msb).1)]>
              (<[l2:=Cell 1 (OMap (replay msb).2)]> h)) a msa sma) as Ha'.
    { apply owns_fresh; [|by rewrite lookup_insert_ne].
      by apply owns_fresh. }
    assert (separate (Stack (Some l1) (Some l2) true) a) as Hsep
      by (by apply (separate_fresh h l1 l2 true a msa sma)).
    split; [done|]. split; [right; intros l Hla Hlo; by apply (Hsep l)|].
    intros [[Hal Hr]|?]; [left|by right]. split; [done|].
    intros l x Hl Hx. apply (Hr l x Hl).
    destruct (owns_locs h a msa sma l Ha (or_introl Hl)) as [y Hy].
    assert (l ≠ l1 ∧ l ≠ l2) as [? ?] by (split; intros ->; congruence).
    by rewrite !lookup_insert_ne in Hx by done.
Qed.

Lemma assign_copy_spec a b msa sma msb smb h f :
  owns h a msa sma → owns h b msb smb →
  aliased a b ∨ separate a b →
  wp (assign_copy b) (Config a (World h f)) (λ o c',
    faults (mem c') `suffix_of` f ∧
    match o with
    | Ret _ => ∃ h1,
        copied h b msb smb (this c') h1 ∧
        owns h1 a msa sma ∧ compat h1 a (this c') ∧
        (compat h a b → compat h1 a b) ∧
        released h1 a msa sma (heap (mem c'))
    | Throw e => e = bad_alloc ∧ true ∈ f ∧ shareable b = false ∧
        this c' = a ∧ heap (mem c') = h
    | _ => False
    end).
Proof.
  intros Ha Hb Hab. unfold assign_copy. wp_pure.
  apply wp_call_on. eapply wp_mono; [by apply (stack_copy_spec b _ msb smb h f)|].
  intros o [other [h1 f1]]. wp_simpl. intros [Hf Hpost].
  destruct o as [[]|e| |]; [| |done..].
  - wp_simpl. unfold swap. wp_pure.
    destruct (copied_frame _ _ _ _ _ _ _ _ _ Hpost Hb Ha Hab) as (Ha1 & Hc1 & Hc2).
    eapply wp_destroy_members; [exact Ha1|].
    intros h2 Hrel. split; [done|]. by exists h1.
  - wp_pure. destruct Hpost as (-> & ? & ? & ->). done.
Qed.

(** [a = b;] for two objects [a] and [b].  When the call returns, [a]
    holds the entries of [b] and is shareable, and [b] holds what it held.
    The call fails by [std::bad_alloc] only, on a [b] that is not
    shareable (its entries are then copied), and leaves [a] and the heap
    as they were.  It returns when nothing is made to fail. *)
Theorem copy_assignment a b h f esa esb :
  holds (Config a (World h f)) esa → holds (Config b (World h f)) esb →
  compat h a b →
  wp (assign_copy b) (Config a (World h f)) (λ o c',
    (f = [] ∨ shareable b = true → o = Ret tt) ∧
    match o with
    | Ret _ =>
        holds c' esb ∧ shareable (this c') = true ∧
        holds (Config b (mem c')) esb
    | Throw e => e = bad_alloc ∧ this c' = a ∧ heap (mem c') = h
    | _ => False
    end).
Proof.
  intros (msa & sma & Ha & Hia & <-) (msb & smb & Hb & Hib & <-) Hcompat.
  cbn [this mem heap] in Ha, Hb.
  assert (aliased a b ∨ separate a b) as Hab
    by (destruct Hcompat as [[? _]|?]; auto).
  eapply wp_mono; [by apply (assign_copy_spec a b msa sma msb smb h f)|].
  intros o [s' [h' f']]. wp_simpl. intros [Hf Hpost].
  destruct o as [[]|e| |]; [| |done..].
  - split; [done|].
    destruct Hpost as (h1 & Hcop & Ha1 & Hc1 & Hc2 & Hrel).
    destruct (copied_pair _ _ _ _ _ _ Hb Hcop) as (Hb1 & _ & Hsh & Hcase).
    destruct (released_frame _ _ _ _ _ _ _ _ Hrel Hb1 (Hc2 Hcompat)) as [Hb2 _].
    assert (∃ ms' sm', owns h1 s' ms' sm' ∧ storage_inv ms' sm' ∧
                       entries ms' = entries msb) as (ms' & sm' & Hs1 & Hi' & He').
    { destruct Hcase as [(_ & _ & ?)|(_ & _ & ? & _)].
      - by exists msb, smb.
      - exists (replay msb).1, (replay msb).2.
        split; [done|]. split; [apply replay_inv|apply replay_entries]. }
    destruct (released_frame _ _ _ _ _ _ _ _ Hrel Hs1 Hc1) as [Hs2 _].
    split; [by exists ms', sm'|]. split; [done|]. by exists msb, smb.
  - destruct Hpost as (-> & Hin & Hsh & -> & ->). split; [|done].
    intros [->|?]; [by apply elem_of_nil in Hin|congruence].
Qed.

(** [a = a;] leaves [a] with the entries it had, and shareable.  It fails
    by [std::bad_alloc] only, when [a] is not shareable, and then leaves
    [a] and the heap as they were. *)
Theorem self_assignment c es :
  holds c es →
  wp (assign_copy (this c)) c (λ o c',
    (faults (mem c) = [] ∨ shareable (this c) = true → o = Ret tt) ∧
    match o with
    | Ret _ => holds c' es ∧ shareable (this c') = true
    | Throw e => e = bad_alloc ∧ unchanged c c'
    | _ => False
    end).
Proof.
  destruct c as [a [h f]]. intros (ms & sm & Ha & Hinv & <-).
  cbn [this mem heap faults] in *.
  eapply wp_mono.
  { apply (assign_copy_spec a a ms sm ms sm h f); [done..|]. by left. }
  intros o [s' [h' f']]. wp_simpl. intros [Hf Hpost].
  destruct o as [[]|e| |]; [| |done..].
  - split; [done|].
    destruct Hpost as (h1 & Hcop & Ha1 & Hc1 & _ & Hrel).
    destruct (copied_pair _ _ _ _ _ _ Ha Hcop) as (_ & _ & Hsh & Hcase).
    assert (∃ ms' sm', owns h1 s' ms' sm' ∧ storage_inv ms' sm' ∧
                       entries ms' = entries ms) as (ms' & sm' & Hs1 & Hi' & He').
    { destruct Hcase as [(_ & _ & ?)|(_ & _ & ? & _)].
      - by exists ms, sm.
      - exists (replay ms).1, (replay ms).2.
        split; [done|]. split; [apply replay_inv|apply replay_entries]. }
    destruct (released_frame _ _ _ _ _ _ _ _ Hrel Hs1 Hc1) as [Hs2 _].
    split; [by exists ms', sm'|done].
  - destruct Hpost as (-> & Hin & Hsh & -> & ->). split; [|done].
    intros [->|?]; [by apply elem_of_nil in Hin|congruence].
Qed.

(** [a = std::move(b);] for two objects [a] and [b] never fails.  [a]
    takes the storage and the flag of [b], with the entries [b] held; [b]
    is left without storage and reads as an empty stack; what [a] had is
    released. *)
Theorem move_assignment a b h f esa esb :
  holds (Config a (World h f)) esa → holds (Config b (World h f)) esb →
  compat h a b →
  wp (assign_move b) (Config a (World h f)) (λ o c',
    ∃ b', o = Ret b' ∧ faults (mem c') = f ∧
      b' = Stack None None (shareable b) ∧
      main_stack (this c') = main_stack b ∧
      stacks_map (this c') = stacks_map b ∧
      shareable (this c') = shareable b ∧
      holds c' esb ∧ holds (Config b' (mem c')) []).
Proof.
  intros (msa & sma & Ha & Hia & <-) (msb & smb & Hb & Hib & <-) Hcompat.
  cbn [this mem heap] in Ha, Hb.
  unfold assign_move. wp_pure. apply wp_call_on.
  unfold stack_move. wp_pure. unfold swap. wp_pure.
  eapply wp_destroy_members; [exact Ha|]. intros h2 Hrel. wp_pure.
  exists (Stack None None (shareable b)). do 6 (split; [done|]).
  split; [|apply holds_null].
  assert (owns h (Stack (main_stack b) (stacks_map b) (shareable b)) msb smb)
    as Hb' by exact Hb.
  assert (compat h a (Stack (main_stack b) (stacks_map b) (shareable b)))
    as Hcompat'.
  { destruct Hcompat as [[Hal Hr]|Hsep]; [by left|right].
    intros l Hla Hlb. by apply (Hsep l). }
  destruct (released_frame _ _ _ _ _ _ _ _ Hrel Hb' Hcompat') as [Hb2 _].
  by exists msb, smb.
Qed.

End Assignment.

Section Lifetime.
Context {K V : Type} `{KeyOrder K}.
Implicit Types (s : stack) (h : gmap loc (cell K V)) (f : list bool).
Implicit Types (ms : main_stack_t K V) (sm : stacks_map_t K).
Implicit Types (c : config K V) (es : list (K * V)).

Notation "m >> f" := (bind m (λ _, f))
  (at level 100, f at level 200, right associativity, only parsing).

(** [{ stack<K, V> s; calls }]: a stack with automatic storage duration,
    the calls made on it in turn, and its destructor when the block is
    left, normally or by the exception of a call. *)
Definition lifetime (calls : list (mutation K V)) : M K V unit :=
  stack_default >>
  scope_exit (for_each calls run_mutation) (λ _, stack_destroy).

(** The heap is [h0] and the storage of [s], which [s] alone owns. *)
Inductive private h0 : stack → gmap loc (cell K V) → Prop :=
  | private_null sh : private h0 (Stack None None sh) h0
  | private_cells l1 l2 sh ms sm :
      l1 ≠ l2 → h0 !! l1 = None → h0 !! l2 = None → storage_inv ms sm →
      private h0 (Stack (Some l1) (Some l2) sh)
        (<[l1 := Cell 1 (OList ms)]> (<[l2 := Cell 1 (OMap sm)]> h0)).

(** The same for an object left with a list and no map. *)
Inductive private_half h0 : stack → gmap loc (cell K V) → Prop :=
  | private_list l1 sh :
      h0 !! l1 = None →
      private_half h0 (Stack (Some l1) None sh) (<[l1 := Cell 1 (OList [])]> h0).

Lemma private_owns h0 s h :
  private h0 s h → ∃ ms sm, owns h s ms sm ∧ storage_inv ms sm.
Proof.
  destruct 1 as [sh|l1 l2 sh ms sm Hne Hn1 Hn2 Hinv].
  - exists [], []. split; [done|apply storage_inv_nil].
  - exists ms, sm. split; [|done]. unfold owns. cbn. split; [done|].
    exists 0. split; heap_lookup.
Qed.

Lemma private_step h0 (m : mutation K V) s h f :
  private h0 s h →
  wp (run_mutation m) (Config s (World h f)) (λ o c',
    match o with
    | Ret _ => private h0 (this c') (heap (mem c'))
    | Throw _ => private h0 (this c') (heap (mem c')) ∨
                 private_half h0 (this c') (heap (mem c'))
    | _ => False
    end).
Proof.
  intros Hp. destruct (private_owns _ _ _ Hp) as (ms & sm & Hown & Hinv).
  eapply wp_mono; [by apply (mutation_spec m s ms sm h f)|].
  intros o [s' [h' f']]. wp_simpl. intros [_ Hpost].
  destruct o as [a|e| |]; [| |done..].
  - destruct Hpost as (ms' & sm' & Hshape & Hinv' & _).
    destruct Hshape as [mark l ms1 sm1 ms' sm' s' h' Hcow|h' Hrel].
    + destruct Hcow as [l1 l2 ms' sm' E1 E2 Hne Hh1 Hh2
                       |l1 l2 ms' sm' E1 E2 -> -> Hn1 Hn2 Hne
                       |l1 l2 r l1' l2' ms' sm' E1 E2 Hne Hh1 Hh2 Hn1 Hn2 Hne'].
      * destruct Hp as [sh|a1 a2 sh msa sma Hnea Ha1 Ha2 Hia]; [done|].
        cbn in E1, E2. simplify_eq.
        replace (<[l1:=Cell 1 (OList ms')]> (<[l2:=Cell 1 (OMap sm')]>
                   (<[l1:=Cell 1 (OList msa)]> (<[l2:=Cell 1 (OMap sma)]> h0))))
          with (<[l1:=Cell 1 (OList ms')]> (<[l2:=Cell 1 (OMap sm')]> h0))
          by heap_eq.
        by constructor.
      * destruct Hp as [sh|a1 a2 sh msa sma Hnea Ha1 Ha2 Hia]; [|done].
        by constructor.
      * destruct Hp as [sh|a1 a2 sh msa sma Hnea Ha1 Ha2 Hia]; [done|].
        cbn in E1. simplify_eq. rewrite lookup_insert_eq in Hh1. done.
    + destruct Hrel as [E1 E2|l1 l2 E1 E2 Hne Hh1 Hh2|l1 l2 r E1 E2 Hne Hh1 Hh2].
      * destruct Hp as [sh|a1 a2 sh msa sma Hnea Ha1 Ha2 Hia]; [|done].
        constructor.
      * destruct Hp as [sh|a1 a2 sh msa sma Hnea Ha1 Ha2 Hia]; [done|].
        cbn in E1, E2. simplify_eq.
        replace (delete l2 (delete l1 (<[l1:=Cell 1 (OList msa)]>
                   (<[l2:=Cell 1 (OMap sma)]> h0)))) with h0 by heap_eq.
        constructor.
      * destruct Hp as [sh|a1 a2 sh msa sma Hnea Ha1 Ha2 Hia]; [done|].
        cbn in E1. simplify_eq. rewrite lookup_insert_eq in Hh1. done.
  - destruct Hpost as [(_ & _ & [[-> ->]|Hb])|(_ & _ & _ & -> & ->)];
      [by left| |by left].
    right. destruct Hb as (Hnull & l1 & Hl1 & -> & ->).
    destruct Hp as [sh|a1 a2 sh msa sma Hnea Ha1 Ha2 Hia]; [|done].
    by constructor.
Qed.

Lemma private_destroy h0 s h f :
  private h0 s h ∨ private_half h0 s h →
  wp stack_destroy (Config s (World h f)) (λ o c',
    o = Ret tt ∧ heap (mem c') = h0 ∧ faults (mem c') = f).
Proof.
  unfold stack_destroy, destroy_members.
  intros [[sh|l1 l2 sh ms sm Hne Hn1 Hn2 Hinv]|[l1 sh Hn1]]; wp_pure.
  - done.
  - split; [done|]. split; [|done]. heap_eq.
  - split; [done|]. split; [|done]. heap_eq.
Qed.

Lemma private_calls h0 (calls : list (mutation K V)) s h f :
  private h0 s h →
  wp (for_each calls run_mutation) (Config s (World h f)) (λ o c',
    match o with
    | Ret _ => private h0 (this c') (heap (mem c'))
    | Throw _ => private h0 (this c') (heap (mem c')) ∨
                 private_half h0 (this c') (heap (mem c'))
    | _ => False
    end).
Proof.
  revert s h f. induction calls as [|m calls IH]; intros s h f Hp;
    cbn [for_each]; [by wp_pure|].
  apply wp_bind. eapply wp_mono; [by apply private_step|].
  intros o [s' [h' f']]. wp_simpl. destruct o as [a|e| |]; [|done..].
  apply IH.
Qed.

(** A stack that lives in a block leaves the heap as the block found it,
    whatever calls are made on it and however the block is left: by its
    end, by the exception of a call ([std::invalid_argument] or
    [std::bad_alloc]), or by the constructor failing.  Nothing the stack
    allocated outlives it. *)
Theorem lifetime_leaves_heap (calls : list (mutation K V)) s0 h0 f :
  wp (lifetime calls) (Config s0 (World h0 f)) (λ o c',
    heap (mem c') = h0 ∧
    match o with
    | Ret _ | Throw _ => True
    | _ => False
    end).
Proof.
  unfold lifetime. apply wp_bind.
  eapply wp_mono; [apply (stack_default_spec s0 h0 f f); done|].
  intros o [s' [h' f']]. wp_simpl. intros [_ Hpost].
  destruct o as [a|e| |]; [| |done..].
  - destruct Hpost as (l1 & l2 & Hn1 & Hn2 & Hne & -> & ->).
    apply wp_scope_exit. eapply wp_mono.
    { apply (private_calls h0). constructor; [done..|apply storage_inv_nil]. }
    intros o [s' [h' f'']]. wp_simpl.
    destruct o as [a'|e| |]; [| |done..]; intros Hp;
      (eapply wp_mono; [apply private_destroy; first [exact Hp|by left]|]);
      by intros o2 c2 (-> & -> & _).
  - by destruct Hpost as (_ & _ & ->).
Qed.

End Lifetime.

Section Reads.
Context {K V : Type} `{KeyOrder K}.
Implicit Types (s : stack) (h : gmap loc (cell K V)) (f : list bool).
Implicit Types (ms : main_stack_t K V) (sm : stacks_map_t K).
Implicit Types (c : config K V) (es : list (K * V)).

Lemma holds_front c es :
  holds c es →
  observe front_const c =
    match es with [] => Throw empty_front_error | e :: _ => Ret e end.
Proof.
  destruct c as [s [h f]]. intros (ms & sm & Hown & Hinv & <-).
  cbn [this mem heap] in Hown. rewrite (observe_front_const _ _ _ _ _ Hown).
  by destruct ms.
Qed.

Lemma values_of_cons k k' (v : V) es :
  values_of k ((k', v) :: es) =
    if key_eqb k' k then v :: values_of k es else values_of k es.
Proof. unfold values_of. cbn. by destruct (key_eqb k' k). Qed.

Lemma values_of_cons_eq k (v : V) es :
  values_of k ((k, v) :: es) = v :: values_of k es.
Proof. by rewrite values_of_cons, key_eqb_refl. Qed.

Lemma values_of_cons_ne k k' (v : V) es :
  k' ≠ k → values_of k ((k', v) :: es) = values_of k es.
Proof.
  intros Hne. rewrite values_of_cons.
  by apply key_eqb_neq in Hne as ->.
Qed.

(** A [push(k, v)] that returns makes (k, v) the entry that [front()]
    returns and [v] the value that [front(k)] returns; [size()] and
    [count(k)] are one more than they were, and [count] and [front] of
    every other key are as they were.  The call returns when no allocation
    is made to fail. *)
Theorem push_observed (k : K) (v : V) c es :
  holds c es →
  wp (push k v) c (λ o c',
    (faults (mem c) = [] → o = Ret tt) ∧
    (o = Ret tt →
       observe front_const c' = Ret (k, v) ∧
       observe (front_key_const k) c' = Ret v ∧
       (∃ n, observe size c = Ret n ∧ observe size c' = Ret (S n)) ∧
       (∃ n, observe (count k) c = Ret n ∧ observe (count k) c' = Ret (S n)) ∧
       ∀ k', k' ≠ k →
         observe (count k') c' = observe (count k') c ∧
         observe (front_key_const k') c' = observe (front_key_const k') c)).
Proof.
  intros Hc. eapply wp_mono; [by apply push_holds|].
  intros o c' [_ Hpost]. split.
  - intros Hf. destruct o as [[]|e| |]; [done| |done..].
    destruct Hpost as (_ & Hin & _). rewrite Hf in Hin.
    by apply elem_of_nil in Hin.
  - intros ->. destruct Hpost as [Hc' _].
    rewrite (holds_front c' _ Hc'), (holds_front_key k c' _ Hc').
    rewrite values_of_cons_eq. do 2 (split; [done|]). split; [|split].
    + exists (length es). by rewrite (holds_size c es Hc), (holds_size c' _ Hc').
    + exists (length (values_of k es)).
      rewrite (holds_count k c es Hc), (holds_count k c' _ Hc').
      by rewrite values_of_cons_eq.
    + intros k' Hne.
      rewrite (holds_count k' c es Hc), (holds_count k' c' _ Hc').
      rewrite (holds_front_key k' c es Hc), (holds_front_key k' c' _ Hc').
      by rewrite values_of_cons_ne.
Qed.

(** An entry is both the top of the whole stack and the top of its key:
    when [front()] returns (k, v), [front(k)] returns [v], [count(k)] is
    not 0 and [k] is among the keys iterated. *)
Theorem front_agrees (k : K) (v : V) c es :
  holds c es →
  observe front_const c = Ret (k, v) →
  observe (front_key_const k) c = Ret v ∧
  (∃ n, observe (count k) c = Ret (S n)) ∧
  ∃ ks, observe keys c = Ret ks ∧ k ∈ ks.
Proof.
  intros Hc. rewrite (holds_front c es Hc).
  destruct es as [|[k0 v0] es]; [done|]. intros [= -> ->].
  rewrite (holds_front_key k c _ Hc), (holds_count k c _ Hc).
  rewrite values_of_cons_eq. split; [done|]. split; [by eexists|].
  destruct (key_iteration_sorted c _ Hc) as (ks & Hks & _ & _ & Hin).
  exists ks. split; [done|]. apply Hin. cbn. left.
Qed.

End Reads.

Section Writes.
Context {K V : Type} `{KeyOrder K}.
Implicit Types (s : stack) (h : gmap loc (cell K V)) (f : list bool).
Implicit Types (ms : main_stack_t K V) (sm : stacks_map_t K).
Implicit Types (c : config K V) (es : list (K * V)).

Lemma holds_same_keys c c' es es' :
  holds c es → holds c' es' →
  (∀ k, k ∈ map fst es ↔ k ∈ map fst es') →
  observe keys c = observe keys c'.
Proof.
  intros Hc Hc' Hsame.
  destruct (key_iteration_sorted c es Hc) as (ks & -> & Hs & _ & Hin).
  destruct (key_iteration_sorted c' es' Hc') as (ks' & -> & Hs' & _ & Hin').
  f_equal. apply sorted_keys_ext; [exact Hs|exact Hs'|].
  intros k. by rewrite Hin, Hin', Hsame.
Qed.

Lemma assign_first_keys k (v : V) es :
  map fst (assign_first k v es) = map fst es.
Proof.
  induction es as [|[k' v'] es IH]; [done|]. cbn [assign_first fst].
  destruct (key_eqb k' k); cbn [map fst]; [done|by rewrite IH].
Qed.

Lemma values_of_assign_first k k' (v : V) es :
  values_of k' (assign_first k v es) =
    if key_eqb k k' then
      match values_of k es with [] => [] | _ :: vs => v :: vs end
    else values_of k' es.
Proof.
  induction es as [|[k0 v0] es IH]; [by destruct (key_eqb k k')|].
  cbn [assign_first fst]. destruct (key_eqb k0 k) eqn:E0.
  - apply key_eqb_eq in E0 as ->. rewrite !values_of_cons, key_eqb_refl.
    destruct (key_eqb k k') eqn:E; [|done].
    by apply key_eqb_eq in E as ->.
  - rewrite !values_of_cons, IH, E0.
    destruct (key_eqb k k') eqn:E; [|done].
    apply key_eqb_eq in E as ->. by rewrite E0.
Qed.

Lemma wp_and {A} (m : M K V A) c (Q1 Q2 : outcome A → config K V → Prop) :
  wp m c Q1 → wp m c Q2 → wp m c (λ o c', Q1 o c' ∧ Q2 o c').
Proof. unfold wp. by split. Qed.

(** [s.front().second = v;]: when the call and the write are over,
    [front()] returns the key it returned before with the value [v], and
    so does [front(k)] for that key; [size()], every [count(k)], the key
    iteration and [front(k)] for every other key are as they were.  The
    statement fails as [front()] does, leaving the stack as it was. *)
Theorem write_through_front (v : V) c es :
  holds c es →
  wp (set_front v) c (λ o c',
    (faults (mem c) = [] → es ≠ [] → o = Ret tt) ∧
    match o with
    | Ret _ =>
        ∃ k v0, observe front_const c = Ret (k, v0) ∧
          observe front_const c' = Ret (k, v) ∧
          observe (front_key_const k) c' = Ret v ∧
          observe size c' = observe size c ∧
          (∀ k', observe (count k') c' = observe (count k') c) ∧
          observe keys c' = observe keys c ∧
          (∀ k', k' ≠ k →
             observe (front_key_const k') c' = observe (front_key_const k') c)
    | Throw e => unchanged c c' ∧
        (e = empty_front_error ∧ es = [] ∨
         e = bad_alloc ∧ true ∈ faults (mem c))
    | _ => False
    end).
Proof.
  intros Hc. pose proof Hc as (ms & sm & Hown & Hinv & He).
  destruct c as [s [h f]]. cbn [this mem heap faults] in *.
  eapply wp_mono.
  { apply wp_and; [by apply (set_front_spec v s ms sm h f)|].
    change (set_front v) with (run_mutation (MSetFront (K:=K) v)).
    by apply (mutation_holds (MSetFront v) _ es). }
  intros o c' [[_ Hspec] [_ Hpost]]. destruct o as [[]|e| |]; [| |done..].
  - split; [done|]. destruct Hpost as (es' & Happ & Hc').
    destruct es as [|[k v0] es]; [done|]. injection Happ as <-.
    exists k, v0.
    rewrite (holds_front _ _ Hc), (holds_front c' _ Hc').
    rewrite (holds_front_key k c' _ Hc'), values_of_cons_eq.
    rewrite (holds_size _ _ Hc), (holds_size c' _ Hc').
    do 4 (split; [done|]). split; [|split].
    + intros k'. rewrite (holds_count k' _ _ Hc), (holds_count k' c' _ Hc').
      rewrite !values_of_cons. by destruct (key_eqb k k').
    + by apply (holds_same_keys c' _ _ _ Hc' Hc).
    + intros k' Hne.
      rewrite (holds_front_key k' _ _ Hc), (holds_front_key k' c' _ Hc').
      by rewrite !values_of_cons_ne.
  - destruct Hspec as (Hs & Hh & Hcase).
    split; [|split; [done|]].
    + intros -> Hne. destruct Hcase as [[_ ->]|[_ Hin]].
      * by subst es.
      * by apply elem_of_nil in Hin.
    + destruct Hcase as [[-> ->]|[-> Hin]]; [left|right]; [|done].
      by subst es.
Qed.

Lemma assign_first_length k (v : V) es :
  length (assign_first k v es) = length es.
Proof.
  rewrite <- (length_map fst (assign_first k v es)), assign_first_keys.
  apply length_map.
Qed.

(** [s.front(k) = v;]: when the call and the write are over, [front(k)]
    returns [v]; [size()], every [count], the key iteration and [front(k')]
    for every other key [k'] are as they were, and [front()] returns the
    key it returned.  The call fails with [std::invalid_argument] exactly
    when no entry has the key [k], and then changes nothing. *)
Theorem write_through_front_key (k : K) (v : V) c es :
  holds c es →
  wp (set_front_key k v) c (λ o c',
    (faults (mem c) = [] → values_of k es ≠ [] → o = Ret tt) ∧
    match o with
    | Ret _ =>
        values_of k es ≠ [] ∧
        observe (front_key_const k) c' = Ret v ∧
        observe size c' = observe size c ∧
        (∀ k', observe (count k') c' = observe (count k') c) ∧
        observe keys c' = observe keys c ∧
        (∀ k', k' ≠ k →
           observe (front_key_const k') c' = observe (front_key_const k') c) ∧
        (∀ k0 v0, observe front_const c = Ret (k0, v0) →
           observe front_const c' = Ret (k0, if key_eqb k0 k then v else v0))
    | Throw e =>
        (e = front_key_error ∧ values_of k es = [] ∧ unchanged c c') ∨
        (e = bad_alloc ∧ true ∈ faults (mem c))
    | _ => False
    end).
Proof.
  intros Hc.
  change (set_front_key k v) with (run_mutation (MSetFrontKey k v)).
  eapply wp_mono; [by apply mutation_holds|].
  intros o c' [_ Hpost]. destruct o as [[]|e| |]; [| |done..].
  - split; [done|]. destruct Hpost as (es' & Happ & Hc'). cbn in Happ.
    destruct (values_of k es) as [|v1 vs] eqn:Hv; [done|].
    injection Happ as <-. split; [done|].
    rewrite (holds_front_key k c' _ Hc'), values_of_assign_first.
    rewrite key_eqb_refl, Hv. split; [done|].
    rewrite (holds_size _ _ Hc), (holds_size c' _ Hc'), assign_first_length.
    split; [done|]. split; [|split; [|split]].
    + intros k'. rewrite (holds_count k' _ _ Hc), (holds_count k' c' _ Hc').
      rewrite values_of_assign_first.
      destruct (key_eqb k k') eqn:E; [|done].
      apply key_eqb_eq in E as <-. by rewrite Hv.
    + apply (holds_same_keys c' c _ _ Hc' Hc). intros k'.
      by rewrite assign_first_keys.
    + intros k' Hne.
      rewrite (holds_front_key k' _ _ Hc), (holds_front_key k' c' _ Hc').
      rewrite values_of_assign_first.
      assert (key_eqb k k' = false) as -> by (apply key_eqb_neq; congruence).
      done.
    + intros k0 v0. rewrite (holds_front _ _ Hc), (holds_front c' _ Hc').
      destruct es as [|[k1 v2] es]; [done|]. intros [= -> ->].
      cbn [assign_first fst]. by destruct (key_eqb k0 k).
  - destruct Hpost as [(-> & Hin & _)|(-> & _ & Happ & Hun)].
    + split; [|by right]. intros Hf. rewrite Hf in Hin.
      by apply elem_of_nil in Hin.
    + cbn in Happ. destruct (values_of k es) eqn:Hv; [|done].
      split; [done|]. by left.
Qed.

End Writes.

Section Pops.
Context {K V : Type} `{KeyOrder K}.
Implicit Types (c : config K V) (es : list (K * V)).

(** When [front()] returns (k, v), [pop(k)] and [pop()] remove the same
    entry: the two calls leave stacks that cannot be told apart by
    [size()], [front()], [count], the key iteration and [front(k')] for
    any key.  Both return when no allocation is made to fail. *)
Theorem pop_key_of_front (k : K) (v : V) c es :
  holds c es →
  observe front_const c = Ret (k, v) →
  wp (pop_key k) c (λ o1 c1,
    wp pop c (λ o2 c2,
      (faults (mem c) = [] → o1 = Ret tt ∧ o2 = Ret tt) ∧
      (o1 = Ret tt → o2 = Ret tt →
         obs_eq c1 c2 ∧
         ∀ k', observe (front_key_const k') c1 =
               observe (front_key_const k') c2))).
Proof.
  intros Hc. rewrite (holds_front c es Hc).
  destruct es as [|[k0 v0] es]; [done|]. intros [= -> ->].
  eapply wp_mono; [by apply pop_key_holds|]. intros o1 c1 [_ H1].
  eapply wp_mono; [by apply pop_holds|]. intros o2 c2 [_ H2].
  split.
  - intros Hf. split.
    + destruct o1 as [[]|e| |]; [done| |done..].
      destruct H1 as [(_ & Hin & _)|(_ & Hv & _)].
      * rewrite Hf in Hin. by apply elem_of_nil in Hin.
      * by rewrite values_of_cons_eq in Hv.
    + destruct o2 as [[]|e| |]; [done| |done..].
      destruct H2 as (_ & [[_ ?]|[_ Hin]]); [done|].
      rewrite Hf in Hin. by apply elem_of_nil in Hin.
  - intros -> ->. destruct H1 as (_ & Hc1 & _).
    destruct H2 as (e & es' & [= <- <-] & Hc2 & _).
    cbn [remove_first fst] in Hc1. rewrite key_eqb_refl in Hc1.
    split; [by eapply holds_obs_eq|]. intros k'.
    by rewrite (holds_front_key k' c1 _ Hc1), (holds_front_key k' c2 _ Hc2).
Qed.

(** When [front()] returns (k, v), [pop()] followed by [push(k, v)] gives
    back a stack that cannot be told from the one before.  Both calls
    return when no allocation is made to fail. *)
Theorem pop_push_round_trip (k : K) (v : V) c es :
  holds c es →
  observe front_const c = Ret (k, v) →
  wp (bind pop (λ _, push k v)) c (λ o c',
    (faults (mem c) = [] → o = Ret tt) ∧
    (o = Ret tt →
       obs_eq c c' ∧
       ∀ k', observe (front_key_const k') c =
             observe (front_key_const k') c')).
Proof.
  intros Hc. rewrite (holds_front c es Hc).
  destruct es as [|[k0 v0] es]; [done|]. intros [= -> ->].
  apply wp_bind. eapply wp_mono; [by apply pop_holds|].
  intros o1 c1 [Hf1 H1]. destruct o1 as [[]|e| |]; [| |done..].
  - destruct H1 as (e & es' & [= <- <-] & Hc1 & _). wp_simpl.
    eapply wp_mono; [by apply push_holds|].
    intros o2 c2 [Hf2 H2]. split.
    + intros Hf. destruct o2 as [[]|e| |]; [done| |done..].
      destruct H2 as (_ & Hin & _). rewrite Hf in Hf1.
      apply suffix_nil_inv in Hf1. rewrite Hf1 in Hin.
      by apply elem_of_nil in Hin.
    + intros ->. destruct H2 as [Hc2 _]. split; [by eapply holds_obs_eq|].
      intros k'.
      by rewrite (holds_front_key k' c _ Hc), (holds_front_key k' c2 _ Hc2).
  - wp_simpl. split; [|done]. intros Hf.
    destruct H1 as (_ & [[_ ?]|[_ Hin]]); [done|].
    rewrite Hf in Hin. by apply elem_of_nil in Hin.
Qed.

End Pops.

Section Counting.
Context {K V : Type} `{KeyOrder K}.
Implicit Types (s : stack) (h : gmap loc (cell K V)) (f : list bool).
Implicit Types (ms : main_stack_t K V) (sm : stacks_map_t K).
Implicit Types (c : config K V) (es : list (K * V)).

(** [cbegin() == cend()] *)
Definition empty_range : M K V bool :=
  bind cbegin (λ first, bind cend (λ last, ret (iter_eqb first last))).

Lemma Forall2_diag {A} (P : A → A → Prop) (l : list A) :
  Forall (λ x, P x x) l → Forall2 P l l.
Proof. induction 1; by constructor. Qed.

(** Every entry is counted under one key: the keys iterated from
    [cbegin()] to [cend()] each have a [count] that is not 0, these counts
    add up to [size()], and [count] is 0 for every other key. *)
Theorem counts_add_up c es :
  holds c es →
  ∃ ks ns,
    observe keys c = Ret ks ∧
    Forall2 (λ k n, observe (count k) c = Ret n ∧ 0 < n) ks ns ∧
    observe size c = Ret (list_sum ns) ∧
    ∀ k, k ∉ ks → observe (count k) c = Ret 0.
Proof.
  intros Hc. pose proof Hc as (ms & sm & Hown & Hinv & He).
  destruct c as [s [h f]]. cbn [this mem heap] in Hown.
  exists (map fst sm), (map (λ e, length e.2) sm).
  split; [by eapply observe_keys|]. split; [|split].
  - apply Forall2_fmap, Forall2_diag, Forall_forall.
    intros [k st] Hin. cbn [fst snd].
    destruct (storage_inv_elem k st ms sm Hinv Hin) as [-> Hne].
    rewrite (observe_count k _ _ _ _ _ Hown Hinv), <- with_key_values.
    unfold ids in *. rewrite length_map. split; [done|].
    destruct (with_key k ms); [done|cbn; lia].
  - rewrite (observe_size _ _ _ _ _ Hown). f_equal.
    destruct (storage_inv_cross _ _ Hinv) as (Hperm & _ & _).
    apply Permutation_length in Hperm.
    rewrite length_concat, map_map in Hperm. unfold ids in Hperm.
    by rewrite length_map in Hperm.
  - intros k Hk. rewrite (observe_count k _ _ _ _ _ Hown Hinv).
    destruct (storage_inv_cross _ _ Hinv) as (_ & Hkeys & _).
    rewrite <- with_key_values.
    destruct (with_key k ms) as [|n r] eqn:E; [done|]. exfalso. apply Hk.
    apply Hkeys. exists n.
    assert (n ∈ with_key k ms) as Hn by (rewrite E; left).
    apply with_key_elem in Hn as [? ?]. done.
Qed.

(** [cbegin() == cend()] exactly when [size()] is 0, be it that the stack
    has no storage or that its storage holds no entry. *)
Theorem empty_range_iff_empty c es :
  holds c es →
  ∃ n, observe size c = Ret n ∧
       observe empty_range c = Ret (Nat.eqb n 0).
Proof.
  intros Hc. pose proof Hc as (ms & sm & Hown & Hinv & He).
  destruct c as [s [h f]]. cbn [this mem heap] in Hown.
  exists (length ms). split; [by eapply observe_size|].
  apply observe_wp. unfold empty_range, cbegin, cend. cbn [this mem heap].
  unfold owns in Hown.
  destruct s as [[l1|] [l2|] sh]; cbn [main_stack stacks_map] in Hown; try done.
  - destruct Hown as (Hne & r & Hh1 & Hh2). wp_pure.
    unfold iter_eqb. cbn [map_it]. rewrite Pos.eqb_refl. cbn [andb].
    f_equal. destruct sm as [|[k st] sm], ms as [|n ms]; cbn; try done.
    + destruct Hinv as (_ & _ & Hi). specialize (Hi (nkey n)).
      cbn [map_find] in Hi. rewrite with_key_cons, key_eqb_refl in Hi. done.
    + pose proof (storage_inv_keys_le _ _ Hinv) as Hle. cbn in Hle. lia.
  - destruct Hown as [-> ->]. by wp_pure.
Qed.

End Counting.

Section Sharing.
Context {K V : Type} `{KeyOrder K}.
Implicit Types (s : stack) (h : gmap loc (cell K V)) (f : list bool).
Implicit Types (ms : main_stack_t K V) (sm : stacks_map_t K).
Implicit Types (c : config K V) (es : list (K * V)).

(** Every call but [clear()] that returns has gone through
    [about_to_modify]. *)
Lemma mutation_cow (m : mutation K V) s ms sm h f :
  owns h s ms sm → storage_inv ms sm → m ≠ MClear →
  wp (run_mutation m) (Config s (World h f)) (λ o c',
    o = Ret tt →
    ∃ l ms1 sm1 ms' sm',
      cow h s (marks m) ms sm l ms1 sm1 ms' sm' (this c') (heap (mem c'))).
Proof.
  intros Hown Hinv Hm.
  destruct m as [k v| |k| | |k|v|k v]; cbn [run_mutation marks]; [| | |done|..].
  - eapply wp_mono; [by apply push_spec|].
    intros o c' [_ Hpost] ->.
    destruct Hpost as (l & ms1 & sm1 & ms' & sm' & Hcow & _). eauto 10.
  - eapply wp_mono; [by apply pop_spec|].
    intros o c' [_ Hpost] ->.
    destruct Hpost as (l & ms1 & sm1 & ms' & sm' & Hcow & _). eauto 10.
  - eapply wp_mono; [by apply pop_key_spec|].
    intros o c' [_ Hpost] ->.
    destruct Hpost as (l & ms1 & sm1 & ms' & sm' & Hcow & _). eauto 10.
  - wp_pure. eapply wp_mono; [by apply front_spec|].
    intros o c' [_ Hpost]. destruct o as [a|e| |]; wp_pure; try done.
    intros _. destruct Hpost as (l & ms1 & sm1 & Hcow & _). eauto 10.
  - wp_pure. eapply wp_mono; [by apply front_key_spec|].
    intros o c' [_ Hpost]. destruct o as [a|e| |]; wp_pure; try done.
    intros _. destruct Hpost as (l & ms1 & sm1 & Hcow & _). eauto 10.
  - eapply wp_mono; [by apply set_front_spec|].
    intros o c' [_ Hpost] ->.
    destruct Hpost as (l & ms1 & sm1 & n & r & _ & Hcow). eauto 10.
  - eapply wp_mono; [by apply set_front_key_spec|].
    intros o c' [_ Hpost] ->.
    destruct Hpost as (l & ms1 & sm1 & top & st & _ & Hcow). eauto 10.
Qed.

(** Copy on write.  A call other than [clear()] that returns on a stack
    with storage works in place when the stack is the one owner of its
    storage: the handles are the same and no other object of the heap
    changes.  When the storage has other owners, the stack moves to two
    objects that were not there before and that it alone owns; the objects
    it shared keep their contents and count one owner less.  The stack is
    shareable after [push], [pop()] and [pop(k)], and not shareable after
    [front()] and [front(k)]. *)
Theorem copy_on_write (m : mutation K V) c es l1 l2 x1 x2 :
  holds c es → m ≠ MClear →
  main_stack (this c) = Some l1 → stacks_map (this c) = Some l2 →
  heap (mem c) !! l1 = Some x1 → heap (mem c) !! l2 = Some x2 →
  wp (run_mutation m) c (λ o c',
    o = Ret tt →
    shareable (this c') = marks m ∧
    if Nat.eqb (refs x1) 1 then
      main_stack (this c') = Some l1 ∧ stacks_map (this c') = Some l2 ∧
      ∀ l, l ≠ l1 → l ≠ l2 → heap (mem c') !! l = heap (mem c) !! l
    else
      ∃ l1' l2',
        main_stack (this c') = Some l1' ∧ stacks_map (this c') = Some l2' ∧
        heap (mem c) !! l1' = None ∧ heap (mem c) !! l2' = None ∧
        sole_owner c' ∧
        heap (mem c') !! l1 = Some (Cell (Nat.pred (refs x1)) (payload x1)) ∧
        heap (mem c') !! l2 = Some (Cell (Nat.pred (refs x2)) (payload x2)) ∧
        ∀ l, l ≠ l1 → l ≠ l2 → l ≠ l1' → l ≠ l2' →
             heap (mem c') !! l = heap (mem c) !! l).
Proof.
  destruct c as [s [h f]]. intros (ms & sm & Hown & Hinv & <-) Hm.
  cbn [this mem heap]. intros E1 E2 Hx1 Hx2.
  eapply wp_mono; [by apply mutation_cow|].
  intros o [s' [h' f']]. wp_simpl. intros Hpost Ho.
  destruct (Hpost Ho) as (l & ms1 & sm1 & ms' & sm' & Hcow).
  split; [by destruct (cow_shareable _ _ _ _ _ _ _ _ _ _ _ _ Hcow)|].
  destruct Hcow as [a1 a2 ms' sm' A1 A2 Hne Hh1 Hh2
                   |a1 a2 ms' sm' A1 A2 -> -> Hn1 Hn2 Hne
                   |a1 a2 r l1' l2' ms' sm' A1 A2 Hne Hh1 Hh2 Hn1 Hn2 Hne'];
    simplify_eq; cbn [refs payload Nat.eqb Nat.pred main_stack stacks_map].
  - do 2 (split; [done|]). intros l ? ?. heap_lookup.
  - exists l1', l2'. do 4 (split; [done|]).
    assert (l1 ≠ l1' ∧ l1 ≠ l2' ∧ l2 ≠ l1' ∧ l2 ≠ l2') as (?&?&?&?)
      by (repeat split; intros ->; congruence).
    split; [|split; [|split]].
    + intros l [Hl|Hl]; cbn in Hl; simplify_eq; eexists; cbn; heap_lookup.
    + heap_lookup.
    + heap_lookup.
    + intros l ? ? ? ?. heap_lookup.
Qed.

Lemma owns_insert_other h s ms sm l x :
  owns h s ms sm → ¬ locs_of s l → owns (<[l := x]> h) s ms sm.
Proof.
  unfold owns, locs_of. intros Hown Hl.
  destruct (main_stack s) as [l1|], (stacks_map s) as [l2|]; try done.
  destruct Hown as (Hne & r & Hh1 & Hh2). split; [done|]. exists r.
  assert (l ≠ l1 ∧ l ≠ l2) as [? ?] by (split; intros ->; tauto).
  split; heap_lookup.
Qed.

(** The flag at work: [V& r = s.front().second; stack t(s); r = v;].  The
    copy made while the reference is out shares nothing with [s], so the
    write through the reference is seen by [s], whose [front()] then
    returns the value [v], and not by [t], which holds the entries [s] had
    and reads as before the write. *)
Theorem reference_does_not_reach_copy (v : V) (s0 : stack) c es k r c1 c2 :
  holds c es →
  front c = (Ret (k, r), c1) →
  stack_copy (this c1) (Config s0 (mem c1)) = (Ret tt, c2) →
  wp (assign r v) (Config (this c1) (mem c2)) (λ o c3,
    o = Ret tt ∧
    observe front_const (Config (this c1) (mem c3)) = Ret (k, v) ∧
    separate (this c1) (this c2) ∧
    holds (Config (this c2) (mem c2)) es ∧
    holds (Config (this c2) (mem c3)) es ∧
    obs_eq (Config (this c2) (mem c2)) (Config (this c2) (mem c3))).
Proof.
  destruct c as [s [h f]], c1 as [s1 [h1 f1]], c2 as [t [h2 f2]].
  intros (ms & sm & Hown & Hinv & <-) Hfront Hcopy. cbn [this mem heap] in *.
  pose proof (front_spec s ms sm h f Hown Hinv) as Hspec.
  eapply wp_inv in Hspec; [|exact Hfront]. cbn [this mem heap] in Hspec.
  destruct Hspec as (_ & l & ms1 & sm1 & Hcow & n & rest & -> & [= -> ->]).
  pose proof (cow_prepared _ _ _ _ _ _ _ _ _ _ _ _ Hcow) as Hprep.
  pose proof (prepared_inv _ _ _ _ Hinv Hprep) as Hinv1.
  pose proof (prepared_entries _ _ _ _ Hprep) as He1.
  pose proof (cow_owns _ _ _ _ _ _ _ _ _ _ _ _ Hcow) as Hown1.
  destruct (cow_shareable _ _ _ _ _ _ _ _ _ _ _ _ Hcow) as [Hsh Hl].
  pose proof (stack_copy_spec s1 s0 _ _ h1 f1 Hown1) as Hspec.
  eapply wp_inv in Hspec; [|exact Hcopy]. cbn [this mem heap] in Hspec.
  destruct Hspec as [_ Hcop].
  destruct (copied_pair _ _ _ _ _ _ Hown1 Hcop)
    as (Hs2 & _ & _ & [(? & _)|(_ & Hsep & Ht2 & _)]); [congruence|].
  assert (holds (Config t (World h2 f2)) (entries ms)) as Hholds2.
  { exists (replay (n :: rest)).1, (replay (n :: rest)).2.
    split; [done|]. split; [apply replay_inv|].
    by rewrite replay_entries. }
  pose proof Hs2 as Hs2'. unfold owns in Hs2'. rewrite Hl in Hs2'.
  destruct (stacks_map s1) as [l2|] eqn:E2; [|done].
  destruct Hs2' as (Hne & r & Hh1 & Hh2).
  eapply wp_assign; [exact Hh1|by cbn; rewrite Nat.eqb_refl|].
  cbn [this mem heap].
  assert (owns (<[l:=Cell (S r) (OList (list_assign (nid n) v (n :: rest)))]> h2)
            t (replay (n :: rest)).1 (replay (n :: rest)).2) as Ht3.
  { apply owns_insert_other; [done|]. intros Hlt. apply (Hsep l); [by left|done]. }
  assert (holds (Config t (World
            (<[l:=Cell (S r) (OList (list_assign (nid n) v (n :: rest)))]> h2) f2))
            (entries ms)) as Hholds3.
  { exists (replay (n :: rest)).1, (replay (n :: rest)).2.
    split; [done|]. split; [apply replay_inv|].
    by rewrite replay_entries. }
  split; [done|]. split.
  - assert (owns (<[l:=Cell (S r) (OList (list_assign (nid n) v (n :: rest)))]> h2)
              s1 (list_assign (nid n) v (n :: rest)) sm1) as Hs3.
    { unfold owns. rewrite Hl, E2. split; [done|]. exists r.
      split; heap_lookup. }
    rewrite (observe_front_const _ _ _ _ _ Hs3).
    cbn [list_assign]. by rewrite Nat.eqb_refl.
  - split; [done|]. split; [done|]. split; [done|].
    by eapply holds_obs_eq.
Qed.

(** Strong exception guarantee, where it holds.  On a stack that has
    storage, a call that fails, by [std::invalid_argument] or by
    [std::bad_alloc] at any allocation, leaves the object and the whole
    heap as they were: same handles, same flag, same contents, same
    reference counts. *)
Theorem failure_changes_nothing (m : mutation K V) c es :
  holds c es → main_stack (this c) ≠ None →
  wp (run_mutation m) c (λ o c',
    ∀ e, o = Throw e →
      unchanged c c' ∧ (e = bad_alloc ∨ e = mutation_error m) ∧
      ∀ k, observe (front_key_const k) c' = observe (front_key_const k) c).
Proof.
  intros Hc Hst. eapply wp_mono; [by apply mutation_holds|].
  intros o c' [_ Hpost] e ->.
  assert (unchanged c c' ∧ (e = bad_alloc ∨ e = mutation_error m)) as [Hun He].
  { destruct Hpost as [(-> & _ & [?|(Hnull & _)])|(-> & _ & _ & ?)]; auto.
    done. }
  do 2 (split; [done|]). intros k.
  destruct c as [s [h f]], c' as [s' [h' f']]. destruct Hun as [Hs Hh].
  cbn [this mem heap] in Hs, Hh. by subst.
Qed.

End Sharing.

Section ReadOnly.
Context {K V : Type} `{KeyOrder K}.
Implicit Types (c : config K V) (es : list (K * V)).

(** The [const] member functions change neither the object nor the heap,
    whether they return or throw.  [size()] and the key iteration make no
    allocation: what is made to fail has no effect on them.  [front()
    const] allocates only for the exception it throws on an empty stack.
    [count(k)] and [front(k) const] allocate a key handle and can fail by
    [std::bad_alloc] on any stack. *)
Theorem const_members_read_only (k : K) c es :
  holds c es →
  wp size c (λ o c', c' = c ∧ o = Ret (length es)) ∧
  wp front_const c (λ o c',
    this c' = this c ∧ heap (mem c') = heap (mem c) ∧
    (o = observe front_const c ∨
     o = Throw bad_alloc ∧ true ∈ faults (mem c) ∧ es = [])) ∧
  wp keys c (λ o c', c' = c ∧ o = observe keys c) ∧
  wp (count k) c (λ o c',
    this c' = this c ∧ heap (mem c') = heap (mem c) ∧
    (o = observe (count k) c ∨ o = Throw bad_alloc ∧ true ∈ faults (mem c))) ∧
  wp (front_key_const k) c (λ o c',
    this c' = this c ∧ heap (mem c') = heap (mem c) ∧
    (o = observe (front_key_const k) c ∨
     o = Throw bad_alloc ∧ true ∈ faults (mem c))).
Proof.
  intros Hc. pose proof Hc as (ms & sm & Hown & Hinv & He).
  destruct c as [s [h f]]. cbn [this mem heap faults] in *.
  split; [|split; [|split; [|split]]].
  - eapply wp_mono; [by eapply size_spec|].
    intros o c' [-> ->]. by rewrite <- He, length_entries.
  - eapply wp_mono; [by eapply front_const_spec|].
    intros o c' (_ & -> & -> & Hpost). do 2 (split; [done|]).
    rewrite (observe_front_const _ _ _ _ _ Hown).
    destruct Hpost as [->|(-> & ? & ->)]; [by left|right].
    by rewrite <- He.
  - eapply wp_mono; [by eapply keys_spec|].
    intros o c' [-> ->]. by rewrite (observe_keys _ _ _ _ _ Hown Hinv).
  - eapply wp_mono; [by eapply (count_spec k)|].
    intros o c' (_ & -> & -> & Hpost). do 2 (split; [done|]).
    rewrite (observe_count k _ _ _ _ _ Hown Hinv). tauto.
  - eapply wp_mono; [by eapply (front_key_const_spec k)|].
    intros o c' (_ & -> & -> & Hpost). do 2 (split; [done|]).
    rewrite (holds_front_key k _ _ Hc), <- He.
    destruct o as [v|e| |]; [| |done..].
    + destruct Hpost as [vs ->]. by left.
    + destruct Hpost as [[-> ->]|[-> ?]]; [by left|by right].
Qed.

End ReadOnly.

Section PostIncrement.
Context {K V : Type} `{KeyOrder K}.
Implicit Types (c : config K V) (es : list (K * V)).

(** The key iteration written with [it != cend()] and [it++]. *)
Definition keys_post : M K V (list K) :=
  bind cbegin (λ first,
  bind cend (λ last,
  bind size (λ n, traverse_post (S n) first last))).

Lemma traverse_post_eq fuel (it last : const_iterator K) c :
  traverse_post fuel it last c = traverse fuel it last c.
Proof.
  revert it c. induction fuel as [|fuel IH]; intros it c; [done|].
  cbn [traverse_post traverse]. unfold iter_neqb.
  destruct (iter_eqb it last); cbn [negb]; [done|].
  unfold bind, iter_post_incr, bind, ret.
  destruct (iter_deref it c) as [[k| | |] c1]; try done.
  destruct (iter_incr it c1) as [[it'| | |] c2]; try done.
  cbn [snd]. by rewrite IH.
Qed.

(** The loop [for (auto it = s.cbegin(); it != s.cend(); it++)] runs
    without undefined behaviour on every well-formed stack, changes
    nothing, and visits the keys that have a [count] other than 0, each
    once, in strictly ascending order: the keys the loop with [++it]
    visits. *)
Theorem post_increment_iteration c es :
  holds c es →
  wp keys_post c (λ o c',
    c' = c ∧ o = observe keys c ∧
    ∃ ks, o = Ret ks ∧
      StronglySorted (λ a b, key_lt a b = true) ks ∧ NoDup ks ∧
      ∀ k, k ∈ ks ↔ ∃ n, observe (count k) c = Ret (S n)).
Proof.
  intros Hc.
  assert (∀ c0, keys_post c0 = keys c0) as Heq.
  { intros c0. unfold keys_post, keys, bind.
    destruct (cbegin c0) as [[first| | |] c1]; try done.
    destruct (cend c1) as [[last| | |] c2]; try done.
    destruct (size c2) as [[n| | |] c3]; try done.
    apply traverse_post_eq. }
  unfold wp. rewrite Heq.
  destruct (key_iteration_sorted c es Hc) as (ks & Hks & Hs & Hnd & Hin).
  pose proof Hc as (ms & sm & Hown & Hinv & He).
  destruct c as [s [h f]]. cbn [this mem heap] in Hown.
  pose proof (keys_spec s ms sm h f Hown Hinv) as Hspec. unfold wp in Hspec.
  destruct Hspec as [Ho Hc']. rewrite Hc'. split; [done|].
  rewrite Ho, Hks.
  rewrite (observe_keys _ _ _ _ _ Hown Hinv) in Hks. split; [done|].
  exists ks. do 3 (split; [done|]). intros k. rewrite Hin.
  rewrite (holds_count k _ _ Hc). unfold values_of.
  rewrite list_elem_of_fmap. split.
  - intros ([k' v] & -> & Hel). cbn [fst].
    assert ((k', v) ∈ List.filter (λ e : K * V, key_eqb e.1 k') es) as Hf.
    { apply list_elem_of_In, filter_In. split; [by apply list_elem_of_In|].
      apply key_eqb_refl. }
    destruct (List.filter _ es); [by apply elem_of_nil in Hf|].
    cbn. by eexists.
  - intros [n Hn].
    destruct (List.filter (λ e : K * V, key_eqb e.1 k) es) as [|[k' v] r] eqn:E;
      [done|].
    assert ((k', v) ∈ List.filter (λ e : K * V, key_eqb e.1 k) es) as Hf
      by (rewrite E; left).
    apply list_elem_of_In, filter_In in Hf as [Hel Hk]. cbn in Hk.
    apply key_eqb_eq in Hk as ->. exists (k, v). split; [done|].
    by apply list_elem_of_In.
Qed.

End PostIncrement.

Section Recovery.
Context {K V : Type} `{KeyOrder K}.
Implicit Types (s : stack) (h : gmap loc (cell K V)) (f : list bool).

(** The object a failed [push] leaves can still be cleared and destroyed.
    After a [push] on an object without storage has failed at its second
    allocation, [clear()] returns and leaves an empty stack without
    storage, the destructor returns, and either gives the heap back as it
    was before the [push]: the list the [push] allocated is not lost. *)
Theorem failed_push_recovery (k : K) (v : V) (sh : bool) h fs :
  wp (push k v) (Config (Stack None None sh) (World h (false :: true :: fs)))
    (λ o c',
      o = Throw bad_alloc ∧ heap (mem c') ≠ h ∧
      wp clear c' (λ o2 c2,
        o2 = Ret tt ∧ this c2 = Stack None None true ∧
        heap (mem c2) = h ∧ holds c2 []) ∧
      wp stack_destroy c' (λ o2 c2, o2 = Ret tt ∧ heap (mem c2) = h)).
Proof.
  eapply wp_mono; [apply failed_push_half_builds|].
  intros o [s' [h' f']]. unfold half_built_from, half_built.
  cbn [this mem heap faults shareable].
  intros (-> & _ & l1 & Hl1 & -> & ->). split; [done|]. split.
  { intros Heq. rewrite <- Heq in Hl1. by rewrite lookup_insert_eq in Hl1. }
  split.
  - unfold clear. wp_pure. do 2 (split; [done|]).
    assert (delete l1 (<[l1:=Cell 1 (OList [])]> h) = h) as Hh by heap_eq.
    split; [done|]. rewrite Hh. apply holds_null.
  - unfold stack_destroy, destroy_members. wp_pure. split; [done|]. heap_eq.
Qed.

End Recovery.

Section Instances.
Context {K V : Type} `{KeyOrder K}.
Implicit Types (c : config K V) (es : list (K * V)).

(** What an object holds does not depend on what is made to fail. *)
Lemma holds_faults s h f f' es :
  holds (Config s (World h f)) es → holds (Config s (World h f')) es.
Proof. done. Qed.

(** A copy and its source after the copy construction. *)
Lemma copy_holds (A s0 : stack) h f es c' :
  holds (Config A (World h f)) es →
  stack_copy A (Config s0 (World h f)) = (Ret tt, c') →
  holds c' es ∧ holds (Config A (mem c')) es ∧
  compat (heap (mem c')) A (this c').
Proof.
  intros (ms & sm & Hown & Hinv & <-) Hrun. cbn [this mem heap] in Hown.
  pose proof (stack_copy_spec A s0 ms sm h f Hown) as Hspec.
  eapply wp_inv in Hspec; [|exact Hrun]. destruct Hspec as [_ Hc].
  destruct c' as [B [h' f']]. cbn [this mem heap] in *.
  destruct (copied_pair _ _ _ _ _ _ Hown Hc)
    as (HA' & Hcompat & _ & [(_ & _ & HB)|(_ & _ & HB & _)]).
  - split; [by exists ms, sm|]. split; [by exists ms, sm|done].
  - split; [|split; [by exists ms, sm|done]].
    exists (replay ms).1, (replay ms).2.
    split; [done|]. split; [apply replay_inv|apply replay_entries].
Qed.

End Instances.

(** ** Keys of the scenarios: [std::string] under its lexicographic order *)

Lemma ascii_compare_lt_trans (a b c : Ascii.ascii) :
  Ascii.compare a b = Lt → Ascii.compare b c = Lt → Ascii.compare a c = Lt.
Proof.
  unfold Ascii.compare. rewrite !N.compare_lt_iff. lia.
Qed.

Lemma string_compare_refl (s : string) : String.compare s s = Eq.
Proof.
  induction s as [|a s IH]; simpl; [done|].
  unfold Ascii.compare. by rewrite N.compare_refl.
Qed.

Lemma string_compare_lt_trans (s1 s2 s3 : string) :
  String.compare s1 s2 = Lt → String.compare s2 s3 = Lt → String.compare s1 s3 = Lt.
Proof.
  revert s2 s3. induction s1 as [|a s1 IH]; intros [|b s2] [|c s3]; simpl; try done.
  destruct (Ascii.compare a b) eqn:Hab; try done;
    destruct (Ascii.compare b c) eqn:Hbc; try done; intros H12 H23.
  - apply Ascii.compare_eq_iff in Hab, Hbc. subst.
    assert (Ascii.compare c c = Eq) as ->
      by (unfold Ascii.compare; apply N.compare_refl).
    eauto.
  - apply Ascii.compare_eq_iff in Hab. subst. by rewrite Hbc.
  - apply Ascii.compare_eq_iff in Hbc. subst. by rewrite Hab.
  - by rewrite (ascii_compare_lt_trans a b c).
Qed.

Lemma string_ltb_irrefl (a : string) : String.ltb a a = false.
Proof. unfold String.ltb. by rewrite string_compare_refl. Qed.

Lemma string_ltb_trans (a b c : string) :
  String.ltb a b = true → String.ltb b c = true → String.ltb a c = true.
Proof.
  unfold String.ltb.
  destruct (String.compare a b) eqn:Hab; try done.
  destruct (String.compare b c) eqn:Hbc; try done.
  by rewrite (string_compare_lt_trans a b c).
Qed.

Lemma string_ltb_total (a b : string) :
  String.ltb a b = false → String.ltb b a = false → a = b.
Proof.
  unfold String.ltb. rewrite (String.compare_antisym b a).
  destruct (String.compare a b) eqn:Hab; try done.
  intros _ _. by apply String.compare_eq_iff.
Qed.

#[export] Instance string_key_order : KeyOrder string := {|
  key_lt := String.ltb;
  key_lt_irrefl := string_ltb_irrefl;
  key_lt_trans := string_ltb_trans;
  key_lt_total := string_ltb_total
|}.

(** ** The scenarios of the specification, on [stack<std::string, int>] *)

Section Returns.
Context {K V : Type} `{KeyOrder K}.
Implicit Types (c : config K V) (es : list (K * V)).

Lemma stack_default_holds c c' :
  stack_default c = (Ret tt, c') → holds c' [].
Proof.
  destruct c as [s0 [h f]]. intros Hrun.
  pose proof (stack_default_spec s0 h f f ltac:(done)) as Hspec.
  eapply wp_inv in Hspec; [|exact Hrun].
  destruct Hspec as (_ & l1 & l2 & Hn1 & Hn2 & Hne & Hs & Hh).
  destruct c' as [s' [h' f']]. cbn [this mem heap] in *. subst s' h'.
  exists [], []. split; [|split; [apply storage_inv_nil|done]].
  unfold owns. cbn. split; [done|]. exists 0. split; heap_lookup.
Qed.

Lemma run_calls_holds (l : list (call K V)) c c' es :
  holds c [] → run_calls l c = (Ret tt, c') → live l [] = Some es →
  holds c' es.
Proof.
  intros Hc Hrun Hlive. pose proof (run_calls_from l c [] Hc) as Hspec.
  eapply wp_inv in Hspec; [|exact Hrun].
  destruct Hspec as (_ & Hret & _).
  destruct (Hret eq_refl) as (es' & Hl & Hc' & _). congruence.
Qed.

Lemma mutation_returns (m : mutation K V) c c' es :
  holds c es → run_mutation m c = (Ret tt, c') →
  ∃ es', apply_mutation m es = Some es' ∧ holds c' es'.
Proof.
  intros Hc Hrun. pose proof (mutation_holds m c es Hc) as Hspec.
  eapply wp_inv in Hspec; [|exact Hrun]. destruct Hspec as [_ Hpost].
  exact Hpost.
Qed.
End Returns.

Definition after {A} (m : M string Z A) (c : config string Z) : config string Z :=
  (m c).2.
Definition returned {A} (m : M string Z A) (c : config string Z) : outcome A :=
  (m c).1.

(** [stack<std::string, int> s;] in an empty heap, nothing made to fail. *)
Definition empty_stack : config string Z :=
  after stack_default (Config (Stack None None true) (World ∅ [])).

(** [s.push("x", 1); s.push("y", 2); s.push("x", 3);] *)
Definition pushed_xyx : config string Z :=
  after (run_calls [Push "x" 1%Z; Push "y" 2%Z; Push "x" 3%Z]) empty_stack.

(** [s.pop("x");] *)
Definition popped_x : config string Z := after (pop_key "x") pushed_xyx.

(** [s.pop();] *)
Definition popped : config string Z := after pop popped_x.

Lemma empty_stack_holds : holds empty_stack [].
Proof.
  apply (stack_default_holds (Config (Stack None None true) (World ∅ []))).
  by vm_compute.
Qed.

Lemma pushed_xyx_holds :
  holds pushed_xyx [("x", 3%Z); ("y", 2%Z); ("x", 1%Z)].
Proof.
  apply (run_calls_holds [Push "x" 1%Z; Push "y" 2%Z; Push "x" 3%Z] empty_stack);
    [apply empty_stack_holds| |done].
  by vm_compute.
Qed.

(** C1, as the specification has it: the last two observations are not
    those of the code. *)
Lemma scenario_as_specified_fails :
  ¬ (observe size pushed_xyx = Ret 3 ∧
     observe front_const pushed_xyx = Ret ("x", 3%Z) ∧
     observe (count "x") pushed_xyx = Ret 2 ∧
     observe front_const popped_x = Ret ("y", 2%Z) ∧
     observe (count "x") popped_x = Ret 1 ∧
     observe size popped = Ret 1 ∧
     observe (count "x") popped = Ret 0 ∧
     observe keys popped = Ret ["y"]).
Proof.
  intros (_ & _ & _ & _ & _ & _ & Hcount & _).
  vm_compute in Hcount. discriminate.
Qed.

(** C1, as amended.  From an empty stack, [push("x",1); push("y",2);
    push("x",3)] gives [size()] 3, [front()] ("x",3), [count("x")] 2; then
    [pop("x")] gives [front()] ("y",2), [count("x")] 1; then [pop()] removes
    ("y",2): [size()] is 1, [count("x")] is 1 and the key iteration yields
    "x" only.  Every call returns. *)
Theorem scenario_observations :
  returned (run_calls [Push "x" 1%Z; Push "y" 2%Z; Push "x" 3%Z]) empty_stack
    = Ret tt ∧
  observe size pushed_xyx = Ret 3 ∧
  observe front_const pushed_xyx = Ret ("x", 3%Z) ∧
  observe (count "x") pushed_xyx = Ret 2 ∧
  returned (pop_key "x") pushed_xyx = Ret tt ∧
  observe front_const popped_x = Ret ("y", 2%Z) ∧
  observe (count "x") popped_x = Ret 1 ∧
  returned pop popped_x = Ret tt ∧
  observe size popped = Ret 1 ∧
  observe (count "x") popped = Ret 1 ∧
  observe (count "y") popped = Ret 0 ∧
  observe keys popped = Ret ["x"].
Proof. vm_compute. repeat split. Qed.

(** [s.push("b", 1); s.push("a", 2); s.push("b", 3);] *)
Definition pushed_bab : config string Z :=
  after (run_calls [Push "b" 1%Z; Push "a" 2%Z; Push "b" 3%Z]) empty_stack.

(** C8.  On every well-formed stack the key iteration from [cbegin()] to
    [cend()] returns the keys that some entry carries, each once, in strictly
    ascending order under [operator<]: the sequence is fixed by the set of
    keys present, not by the order of the pushes.  After pushing "b", "a",
    "b" it yields "a" then "b". *)
Theorem key_iteration_ascending :
  (∀ (K V : Type) (KO : KeyOrder K) (c : config K V) (es : list (K * V)),
     holds c es →
     ∃ ks, observe keys c = Ret ks ∧
           StronglySorted (λ a b, key_lt a b = true) ks ∧ NoDup ks ∧
           ∀ k, k ∈ ks ↔ k ∈ map fst es) ∧
  observe keys pushed_bab = Ret ["a"; "b"].
Proof.
  split; [|by vm_compute].
  intros K V KO c es Hc. by apply key_iteration_sorted.
Qed.

Lemma key_iteration_ascending_witness :
  holds pushed_xyx [("x", 3%Z); ("y", 2%Z); ("x", 1%Z)] ∧
  ∃ ks, observe keys pushed_xyx = Ret ks ∧
        StronglySorted (λ a b, key_lt a b = true) ks ∧ NoDup ks ∧
        ∀ k, k ∈ ks ↔ k ∈ map fst [("x", 3%Z); ("y", 2%Z); ("x", 1%Z)].
Proof.
  split; [apply pushed_xyx_holds|].
  apply (proj1 key_iteration_ascending string Z string_key_order pushed_xyx).
  apply pushed_xyx_holds.
Defined.

(** *** A reference kept across a later [pop]

    [s.push("x", 1); s.push("y", 2); int& r = s.front().second;
     s.pop("x"); stack t(s); r = 7;] *)
Definition kept_before_front : config string Z :=
  after (run_calls [Push "x" 1%Z; Push "y" 2%Z]) empty_stack.
Definition kept_front : outcome (string * vref) * config string Z :=
  front kept_before_front.
Definition kept_ref : vref :=
  match kept_front.1 with Ret (_, r) => r | _ => (1%positive, 0) end.
Definition kept_source : config string Z := after (pop_key "x") kept_front.2.
Definition kept_copy : outcome unit * config string Z :=
  stack_copy (this kept_source) (Config (Stack None None true) (mem kept_source)).
(** The copy [t], and the heap before and after the write [r = 7]. *)
Definition kept_t : stack := this kept_copy.2.
Definition kept_world : world string Z := mem kept_copy.2.
Definition kept_written : outcome unit * config string Z :=
  assign kept_ref 7%Z (Config (this kept_source) kept_world).


(** *** The theorems at the stack of the scenario *)

Lemma push_pop_sequences_witness :
  holds empty_stack [] ∧
  wp (run_calls [Push "x" 1%Z; Push "y" 2%Z; Pop; Push "x" 3%Z]) empty_stack
    (λ o c',
      (o = Ret tt →
         ∃ es, live [Push "x" 1%Z; Push "y" 2%Z; Pop; Push "x" 3%Z] []
                 = Some es ∧ holds c' es ∧
               observe size c' =
                 Ret (pushes [Push "x" 1%Z; Push "y" 2%Z; Pop; Push "x" 3%Z]
                      - pops [Push "x" 1%Z; Push "y" 2%Z; Pop; Push "x" 3%Z])) ∧
      (faults (mem empty_stack) = [] →
       is_Some (live [Push "x" 1%Z; Push "y" 2%Z; Pop; Push "x" 3%Z] []) →
       o = Ret tt)).
Proof.
  split; [apply empty_stack_holds|].
  apply push_pop_sequences, empty_stack_holds.
Defined.

Lemma push_pop_round_trip_witness :
  holds pushed_xyx [("x", 3%Z); ("y", 2%Z); ("x", 1%Z)] ∧
  wp (bind (push "z" 9%Z) (λ _, pop)) pushed_xyx (λ o c',
    (o = Ret tt → obs_eq pushed_xyx c') ∧
    (faults (mem pushed_xyx) = [] → o = Ret tt)).
Proof.
  split; [apply pushed_xyx_holds|].
  apply (push_pop_round_trip "z" 9%Z pushed_xyx _ pushed_xyx_holds).
Defined.

Lemma per_key_lifo_witness :
  holds pushed_xyx [("x", 3%Z); ("y", 2%Z); ("x", 1%Z)] ∧
  wp (drain "x" (length (values_of "x" [("x", 3%Z); ("y", 2%Z); ("x", 1%Z)])))
    pushed_xyx (λ o c',
      (∀ vs, o = Ret vs →
         vs = values_of "x" [("x", 3%Z); ("y", 2%Z); ("x", 1%Z)] ∧
         holds c' (others_of "x" [("x", 3%Z); ("y", 2%Z); ("x", 1%Z)])) ∧
      (faults (mem pushed_xyx) = [] → ∃ vs, o = Ret vs)).
Proof.
  split; [apply pushed_xyx_holds|].
  apply (per_key_lifo "x" pushed_xyx _ pushed_xyx_holds).
Defined.

Lemma error_conditions_witness :
  holds pushed_xyx [("x", 3%Z); ("y", 2%Z); ("x", 1%Z)] ∧
  fails_exactly_when pop pushed_xyx empty_stack_error
    (observe size pushed_xyx = Ret 0) ∧
  fails_exactly_when (pop_key "z") pushed_xyx pop_key_error
    (observe (count "z") pushed_xyx = Ret 0).
Proof.
  split; [apply pushed_xyx_holds|].
  pose proof (error_conditions "z" 0%Z pushed_xyx _ pushed_xyx_holds)
    as (Hpop & _ & _ & Hpop_key & _).
  by split.
Defined.

Lemma invariant_preserved_witness :
  wf (heap (mem pushed_xyx)) (this pushed_xyx) ∧
  invariant_holds pushed_xyx ∧
  wp (run_operation (OMutate (MPopKey "x"))) pushed_xyx (λ o c',
    match o with
    | Ret _ => wf (heap (mem c')) (this c') ∧ invariant_holds c'
    | Throw e =>
        (wf (heap (mem c')) (this c') ∧ invariant_holds c') ∨
        (e = bad_alloc ∧ half_built_from pushed_xyx c')
    | _ => False
    end).
Proof.
  split; [exact (holds_wf pushed_xyx _ pushed_xyx_holds)|].
  exact (invariant_preserved (OMutate (MPopKey "x")) pushed_xyx
           (holds_wf pushed_xyx _ pushed_xyx_holds)).
Defined.

(** [s.front();] on the stack of the scenario: [s] is not shareable then. *)
Definition unshared_xyx : config string Z :=
  after (run_mutation MFront) pushed_xyx.

Lemma unshared_xyx_holds :
  holds unshared_xyx [("x", 3%Z); ("y", 2%Z); ("x", 1%Z)].
Proof.
  destruct (mutation_returns MFront pushed_xyx unshared_xyx _ pushed_xyx_holds)
    as (es' & Happ & Hh); [by vm_compute|].
  cbn in Happ. by injection Happ as <-.
Qed.

Lemma copy_of_unshareable_witness :
  holds (Config (this unshared_xyx)
           (World (heap (mem unshared_xyx)) (faults (mem unshared_xyx))))
        [("x", 3%Z); ("y", 2%Z); ("x", 1%Z)] ∧
  shareable (this unshared_xyx) = false ∧
  wp (stack_copy (this unshared_xyx))
     (Config (Stack None None true)
        (World (heap (mem unshared_xyx)) (faults (mem unshared_xyx))))
     (λ o c',
       (faults (mem unshared_xyx) = [] → o = Ret tt) ∧
       match o with
       | Ret _ => shareable (this c') = true ∧ separate (this unshared_xyx) (this c')
       | Throw e => e = bad_alloc
       | _ => False
       end).
Proof.
  split; [exact unshared_xyx_holds|]. split; [by vm_compute|].
  eapply wp_mono.
  { apply (copy_of_unshareable (this unshared_xyx) (Stack None None true)
             (heap (mem unshared_xyx)) (faults (mem unshared_xyx)) _
             unshared_xyx_holds).
    by vm_compute. }
  intros o c' [Htot Hpost]. split; [exact Htot|].
  destruct o as [a|e| |]; [| |done..].
  - destruct Hpost as (l1 & l2 & ms' & sm' & -> & _ & _ & _ & _ & Hsep & _).
    by split.
  - by destruct Hpost as [-> _].
Defined.

(** [stack t(s);] for the stack [s] of the scenario. *)
Definition copied_xyx : outcome unit * config string Z :=
  stack_copy (this pushed_xyx) (Config (Stack None None true) (mem pushed_xyx)).

(** [int& r = s.front().second; stack t(s);] for the stack [s] of the
    scenario: [s] after [front()], the reference kept, and the copy made
    while it is out. *)
Definition kept_xyx : list vref :=
  kept_after [] (run_action KeepFront [] pushed_xyx).1.
Definition guarded_copy : outcome unit * config string Z :=
  stack_copy (this unshared_xyx)
    (Config (Stack None None true) (mem unshared_xyx)).

Lemma guarded_copy_related :
  related (heap (mem guarded_copy.2)) (this unshared_xyx) kept_xyx
          (this guarded_copy.2) [].
Proof.
  refine (related_copy (heap (mem unshared_xyx)) (this unshared_xyx) kept_xyx
            (Stack None None true) (faults (mem unshared_xyx))
            (this guarded_copy.2) (heap (mem guarded_copy.2))
            (faults (mem guarded_copy.2)) _ _ _).
  - refine (tracked_action (heap (mem pushed_xyx)) (this pushed_xyx) []
              KeepFront (faults (mem pushed_xyx))
              (run_action KeepFront [] pushed_xyx).1
              (this unshared_xyx) (heap (mem unshared_xyx))
              (faults (mem unshared_xyx)) _ _ _).
    + apply tracked_wf. exact (holds_wf pushed_xyx _ pushed_xyx_holds).
    + vm_compute. reflexivity.
    + vm_compute. exact I.
  - exact (holds_wf unshared_xyx _ unshared_xyx_holds).
  - vm_compute. reflexivity.
Qed.


(** ** The theorems above at the stacks of the scenarios *)


Definition xyx : list (string * Z) := [("x", 3%Z); ("y", 2%Z); ("x", 1%Z)].

(** [s] and its copy [t] in one heap. *)
Definition s_xyx : stack := this pushed_xyx.
Definition t_xyx : stack := this copied_xyx.2.
Definition shared_heap : gmap loc (cell string Z) := heap (mem copied_xyx.2).

Lemma s_xyx_holds f : holds (Config s_xyx (World shared_heap f)) xyx.
Proof.
  apply (holds_faults _ _ (faults (mem copied_xyx.2))).
  refine (proj1 (proj2 (copy_holds (this pushed_xyx) (Stack None None true)
    (heap (mem pushed_xyx)) (faults (mem pushed_xyx)) xyx copied_xyx.2 _ _))).
  - exact pushed_xyx_holds.
  - by vm_compute.
Qed.

Lemma t_xyx_holds f : holds (Config t_xyx (World shared_heap f)) xyx.
Proof.
  apply (holds_faults _ _ (faults (mem copied_xyx.2))).
  refine (proj1 (copy_holds (this pushed_xyx) (Stack None None true)
    (heap (mem pushed_xyx)) (faults (mem pushed_xyx)) xyx copied_xyx.2 _ _)).
  - exact pushed_xyx_holds.
  - by vm_compute.
Qed.

Lemma s_t_compat : compat shared_heap s_xyx t_xyx.
Proof.
  refine (proj2 (proj2 (copy_holds (this pushed_xyx) (Stack None None true)
    (heap (mem pushed_xyx)) (faults (mem pushed_xyx)) xyx copied_xyx.2 _ _))).
  - exact pushed_xyx_holds.
  - by vm_compute.
Qed.

Lemma pushed_xyx_holds_with f :
  holds (Config s_xyx (World (heap (mem pushed_xyx)) f)) xyx.
Proof.
  apply (holds_faults _ _ (faults (mem pushed_xyx))). exact pushed_xyx_holds.
Qed.

Lemma clear_releases_witness :
  holds pushed_xyx xyx ∧
  wp clear pushed_xyx (λ o c', o = Ret tt ∧ observe size c' = Ret 0).
Proof.
  split; [exact pushed_xyx_holds|].
  eapply wp_mono; [apply (clear_releases pushed_xyx xyx pushed_xyx_holds)|].
  intros o c' Hpost. split; apply Hpost.
Defined.

Lemma copy_of_shareable_witness :
  holds (Config s_xyx (World (heap (mem pushed_xyx)) [true])) xyx ∧
  shareable s_xyx = true ∧
  wp (stack_copy s_xyx)
     (Config (Stack None None true) (World (heap (mem pushed_xyx)) [true]))
     (λ o c', o = Ret tt ∧ aliased s_xyx (this c')).
Proof.
  split; [apply pushed_xyx_holds_with|]. split; [by vm_compute|].
  eapply wp_mono.
  { apply (copy_of_shareable s_xyx (Stack None None true)
             (heap (mem pushed_xyx)) [true] xyx (pushed_xyx_holds_with _)).
    by vm_compute. }
  intros o c' Hpost. split; apply Hpost.
Defined.

Lemma unshared_xyx_holds_with f :
  holds (Config (this unshared_xyx) (World (heap (mem unshared_xyx)) f)) xyx.
Proof.
  apply (holds_faults _ _ (faults (mem unshared_xyx))). exact unshared_xyx_holds.
Qed.

Lemma copy_failure_releases_witness :
  holds (Config (this unshared_xyx)
           (World (heap (mem unshared_xyx)) [false; false; false; true])) xyx ∧
  wp (stack_copy (this unshared_xyx))
     (Config (Stack None None true)
        (World (heap (mem unshared_xyx)) [false; false; false; true]))
     (λ o c', ∀ e, o = Throw e →
        e = bad_alloc ∧ heap (mem c') = heap (mem unshared_xyx)).
Proof.
  split; [apply unshared_xyx_holds_with|].
  eapply wp_mono.
  { apply (copy_failure_releases (this unshared_xyx) (Stack None None true)
             (heap (mem unshared_xyx)) [false; false; false; true] xyx
             (unshared_xyx_holds_with _)). }
  intros o c' Hpost e He. destruct (Hpost e He) as (? & _ & _ & ? & _). by split.
Defined.

Lemma move_constructor_witness :
  holds (Config s_xyx (mem pushed_xyx)) xyx ∧
  wp (stack_move s_xyx) (Config (Stack None None true) (mem pushed_xyx))
     (λ o c', ∃ A', o = Ret A' ∧ holds c' xyx ∧
                    holds (Config A' (mem pushed_xyx)) []).
Proof.
  split; [exact pushed_xyx_holds|].
  eapply wp_mono.
  { apply (move_constructor s_xyx (Stack None None true) (mem pushed_xyx) xyx).
    exact pushed_xyx_holds. }
  intros o c' (A' & Ho & _ & _ & _ & _ & Hc' & _ & HA' & _).
  exists A'. by split.
Defined.

Lemma copy_assignment_witness :
  holds (Config t_xyx (World shared_heap [])) xyx ∧
  holds (Config s_xyx (World shared_heap [])) xyx ∧
  compat shared_heap t_xyx s_xyx ∧
  wp (assign_copy s_xyx) (Config t_xyx (World shared_heap []))
     (λ o c', o = Ret tt ∧ holds c' xyx).
Proof.
  split; [apply t_xyx_holds|]. split; [apply s_xyx_holds|].
  split; [apply compat_sym, s_t_compat|].
  eapply wp_mono.
  { apply (copy_assignment t_xyx s_xyx shared_heap [] xyx xyx
             (t_xyx_holds _) (s_xyx_holds _) (compat_sym _ _ _ s_t_compat)). }
  intros o c' [Hret Hpost]. rewrite (Hret (or_introl eq_refl)) in *.
  split; [done|]. apply Hpost.
Defined.

Lemma self_assignment_witness :
  holds unshared_xyx xyx ∧
  wp (assign_copy (this unshared_xyx)) unshared_xyx
     (λ o c', o = Ret tt ∧ holds c' xyx ∧ shareable (this c') = true).
Proof.
  split; [exact unshared_xyx_holds|].
  eapply wp_mono; [apply (self_assignment unshared_xyx xyx unshared_xyx_holds)|].
  intros o c' [Hret Hpost].
  assert (o = Ret tt) as -> by (apply Hret; left; by vm_compute).
  split; [done|]. exact Hpost.
Defined.

Lemma move_assignment_witness :
  holds (Config t_xyx (World shared_heap [])) xyx ∧
  holds (Config s_xyx (World shared_heap [])) xyx ∧
  compat shared_heap t_xyx s_xyx ∧
  wp (assign_move s_xyx) (Config t_xyx (World shared_heap []))
     (λ o c', ∃ b', o = Ret b' ∧ holds c' xyx ∧ holds (Config b' (mem c')) []).
Proof.
  split; [apply t_xyx_holds|]. split; [apply s_xyx_holds|].
  split; [apply compat_sym, s_t_compat|].
  eapply wp_mono.
  { apply (move_assignment t_xyx s_xyx shared_heap [] xyx xyx
             (t_xyx_holds _) (s_xyx_holds _) (compat_sym _ _ _ s_t_compat)). }
  intros o c' (b' & Ho & _ & _ & _ & _ & _ & Hc' & Hb').
  exists b'. by split.
Defined.

Lemma push_observed_witness :
  holds pushed_xyx xyx ∧
  wp (push "y" 5%Z) pushed_xyx (λ o c',
    o = Ret tt ∧ observe front_const c' = Ret ("y", 5%Z) ∧
    observe (front_key_const "y") c' = Ret 5%Z).
Proof.
  split; [exact pushed_xyx_holds|].
  eapply wp_mono; [apply (push_observed "y" 5%Z pushed_xyx xyx pushed_xyx_holds)|].
  intros o c' [Hret Hpost].
  assert (o = Ret tt) as Ho by (apply Hret; by vm_compute).
  split; [done|]. destruct (Hpost Ho) as (? & ? & _). by split.
Defined.

Lemma front_agrees_witness :
  holds pushed_xyx xyx ∧
  observe front_const pushed_xyx = Ret ("x", 3%Z) ∧
  observe (front_key_const "x") pushed_xyx = Ret 3%Z.
Proof.
  split; [exact pushed_xyx_holds|]. split; [by vm_compute|].
  apply (front_agrees "x" 3%Z pushed_xyx xyx pushed_xyx_holds). by vm_compute.
Defined.

Lemma write_through_front_witness :
  holds pushed_xyx xyx ∧
  wp (set_front 9%Z) pushed_xyx (λ o c',
    o = Ret tt ∧ observe front_const c' = Ret ("x", 9%Z)).
Proof.
  split; [exact pushed_xyx_holds|].
  eapply wp_mono; [apply (write_through_front 9%Z pushed_xyx xyx pushed_xyx_holds)|].
  intros o c' [Hret Hpost].
  assert (o = Ret tt) as -> by (apply Hret; [by vm_compute|done]).
  split; [done|]. destruct Hpost as (k & v0 & Hbefore & Hafter & _).
  rewrite Hafter. vm_compute in Hbefore. by injection Hbefore as <- _.
Defined.

Lemma write_through_front_key_witness :
  holds pushed_xyx xyx ∧
  wp (set_front_key "y" 9%Z) pushed_xyx (λ o c',
    o = Ret tt ∧ observe (front_key_const "y") c' = Ret 9%Z ∧
    observe front_const c' = Ret ("x", 3%Z)).
Proof.
  split; [exact pushed_xyx_holds|].
  eapply wp_mono.
  { apply (write_through_front_key "y" 9%Z pushed_xyx xyx pushed_xyx_holds). }
  intros o c' [Hret Hpost].
  assert (o = Ret tt) as -> by (apply Hret; [by vm_compute|by vm_compute]).
  split; [done|]. destruct Hpost as (_ & Hk & _ & _ & _ & _ & Hfront).
  split; [done|]. apply (Hfront "x" 3%Z). by vm_compute.
Defined.

Lemma pop_key_of_front_witness :
  holds pushed_xyx xyx ∧
  observe front_const pushed_xyx = Ret ("x", 3%Z) ∧
  wp (pop_key "x") pushed_xyx (λ o1 c1,
    wp pop pushed_xyx (λ o2 c2, o1 = Ret tt ∧ o2 = Ret tt ∧ obs_eq c1 c2)).
Proof.
  split; [exact pushed_xyx_holds|]. split; [by vm_compute|].
  eapply wp_mono.
  { apply (pop_key_of_front "x" 3%Z pushed_xyx xyx pushed_xyx_holds).
    by vm_compute. }
  intros o1 c1 Hpost. eapply wp_mono; [exact Hpost|].
  intros o2 c2 [Hret Heq].
  destruct Hret as [-> ->]; [by vm_compute|].
  do 2 (split; [done|]). by apply Heq.
Defined.

Lemma pop_push_round_trip_witness :
  holds pushed_xyx xyx ∧
  observe front_const pushed_xyx = Ret ("x", 3%Z) ∧
  wp (bind pop (λ _, push "x" 3%Z)) pushed_xyx (λ o c',
    o = Ret tt ∧ obs_eq pushed_xyx c').
Proof.
  split; [exact pushed_xyx_holds|]. split; [by vm_compute|].
  eapply wp_mono.
  { apply (pop_push_round_trip "x" 3%Z pushed_xyx xyx pushed_xyx_holds).
    by vm_compute. }
  intros o c' [Hret Hpost].
  assert (o = Ret tt) as Ho by (apply Hret; by vm_compute).
  split; [done|]. by apply Hpost.
Defined.

Lemma counts_add_up_witness :
  holds pushed_xyx xyx ∧
  ∃ ks ns,
    observe keys pushed_xyx = Ret ks ∧
    Forall2 (λ k n, observe (count k) pushed_xyx = Ret n ∧ 0 < n) ks ns ∧
    observe size pushed_xyx = Ret (list_sum ns) ∧
    ∀ k, k ∉ ks → observe (count k) pushed_xyx = Ret 0.
Proof.
  split; [exact pushed_xyx_holds|].
  exact (counts_add_up pushed_xyx xyx pushed_xyx_holds).
Defined.

Lemma empty_range_iff_empty_witness :
  holds pushed_xyx xyx ∧
  ∃ n, observe size pushed_xyx = Ret n ∧
       observe empty_range pushed_xyx = Ret (Nat.eqb n 0).
Proof.
  split; [exact pushed_xyx_holds|].
  exact (empty_range_iff_empty pushed_xyx xyx pushed_xyx_holds).
Defined.

(** The two objects that [s] and [t] share. *)
Definition shared_list : cell string Z :=
  default (Cell 0 (OList [])) (shared_heap !! 1%positive).
Definition shared_map : cell string Z :=
  default (Cell 0 (OMap [])) (shared_heap !! 2%positive).

Lemma copy_on_write_witness :
  holds (Config s_xyx (World shared_heap [])) xyx ∧
  MPush "z" 0%Z ≠ MClear ∧
  main_stack s_xyx = Some 1%positive ∧ stacks_map s_xyx = Some 2%positive ∧
  shared_heap !! 1%positive = Some shared_list ∧
  shared_heap !! 2%positive = Some shared_map ∧
  refs shared_list = 2 ∧
  wp (push "z" 0%Z) (Config s_xyx (World shared_heap [])) (λ o c',
    o = Ret tt →
    ∃ l1' l2', main_stack (this c') = Some l1' ∧
      stacks_map (this c') = Some l2' ∧
      shared_heap !! l1' = None ∧ shared_heap !! l2' = None ∧
      heap (mem c') !! 1%positive = Some (Cell 1 (payload shared_list))).
Proof.
  split; [apply s_xyx_holds|]. split; [done|].
  do 5 (split; [by vm_compute|]).
  eapply wp_mono.
  { apply (copy_on_write (MPush "z" 0%Z) (Config s_xyx (World shared_heap []))
             xyx 1%positive 2%positive shared_list shared_map
             (s_xyx_holds _)); [done|by vm_compute..]. }
  intros o c' Hpost Ho. destruct (Hpost Ho) as [_ Hcase].
  change (Nat.eqb (refs shared_list) 1) with false in Hcase.
  destruct Hcase as (l1' & l2' & ? & ? & ? & ? & _ & Hl1 & _).
  exists l1', l2'. do 4 (split; [done|]). exact Hl1.
Defined.

(** [V& r = s.front().second;] on the stack of the scenario: the stack
    after the call and the reference returned. *)
Definition fronted_xyx : config string Z := (front pushed_xyx).2.
Definition ref_xyx : vref :=
  match (front pushed_xyx).1 with Ret (_, r) => r | _ => (1%positive, 0) end.
(** [stack t(s);] while the reference is out. *)
Definition copy_while_out : config string Z :=
  (stack_copy (this fronted_xyx)
     (Config (Stack None None true) (mem fronted_xyx))).2.

Lemma reference_does_not_reach_copy_witness :
  holds pushed_xyx xyx ∧
  front pushed_xyx = (Ret ("x", ref_xyx), fronted_xyx) ∧
  stack_copy (this fronted_xyx) (Config (Stack None None true) (mem fronted_xyx))
    = (Ret tt, copy_while_out) ∧
  wp (assign ref_xyx 7%Z) (Config (this fronted_xyx) (mem copy_while_out))
     (λ o c3,
        o = Ret tt ∧
        observe front_const (Config (this fronted_xyx) (mem c3))
          = Ret ("x", 7%Z) ∧
        separate (this fronted_xyx) (this copy_while_out) ∧
        holds (Config (this copy_while_out) (mem copy_while_out)) xyx ∧
        holds (Config (this copy_while_out) (mem c3)) xyx ∧
        obs_eq (Config (this copy_while_out) (mem copy_while_out))
               (Config (this copy_while_out) (mem c3))).
Proof.
  assert (front pushed_xyx = (Ret ("x", ref_xyx), fronted_xyx)) as Hfront
    by (vm_compute; reflexivity).
  assert (stack_copy (this fronted_xyx)
            (Config (Stack None None true) (mem fronted_xyx))
          = (Ret tt, copy_while_out)) as Hcopy by (vm_compute; reflexivity).
  split; [exact pushed_xyx_holds|].
  split; [exact Hfront|]. split; [exact Hcopy|].
  exact (reference_does_not_reach_copy 7%Z (Stack None None true) pushed_xyx
           xyx "x" ref_xyx fronted_xyx copy_while_out pushed_xyx_holds
           Hfront Hcopy).
Defined.

Lemma failure_changes_nothing_witness :
  holds (Config s_xyx (World (heap (mem pushed_xyx)) [false; true])) xyx ∧
  main_stack (this (Config s_xyx (World (heap (mem pushed_xyx)) [false; true])))
    ≠ None ∧
  wp (run_mutation (MPush "z" 0%Z))
     (Config s_xyx (World (heap (mem pushed_xyx)) [false; true]))
     (λ o c', ∀ e, o = Throw e →
        unchanged (Config s_xyx (World (heap (mem pushed_xyx)) [false; true])) c' ∧
        (e = bad_alloc ∨ e = mutation_error (MPush "z" 0%Z)) ∧
        ∀ k, observe (front_key_const k) c' =
             observe (front_key_const k)
               (Config s_xyx (World (heap (mem pushed_xyx)) [false; true]))).
Proof.
  assert (main_stack
            (this (Config s_xyx (World (heap (mem pushed_xyx)) [false; true])))
          ≠ None) as Hst by (vm_compute; discriminate).
  split; [exact (pushed_xyx_holds_with [false; true])|].
  split; [exact Hst|].
  exact (failure_changes_nothing (MPush "z" 0%Z)
           (Config s_xyx (World (heap (mem pushed_xyx)) [false; true])) xyx
           (pushed_xyx_holds_with [false; true]) Hst).
Defined.

Lemma const_members_read_only_witness :
  holds pushed_xyx xyx ∧
  wp size pushed_xyx (λ o c', c' = pushed_xyx ∧ o = Ret 3) ∧
  wp (count "x") pushed_xyx (λ o c', this c' = this pushed_xyx ∧
                                      heap (mem c') = heap (mem pushed_xyx)).
Proof.
  split; [exact pushed_xyx_holds|].
  destruct (const_members_read_only "x" pushed_xyx xyx pushed_xyx_holds)
    as (Hsize & _ & _ & Hcount & _).
  split; [exact Hsize|].
  eapply wp_mono; [exact Hcount|]. intros o c' (? & ? & _). by split.
Defined.

Lemma post_increment_iteration_witness :
  holds pushed_xyx xyx ∧
  wp keys_post pushed_xyx (λ o c', c' = pushed_xyx ∧ o = Ret ["x"; "y"]).
Proof.
  split; [exact pushed_xyx_holds|].
  eapply wp_mono.
  { apply (post_increment_iteration pushed_xyx xyx pushed_xyx_holds). }
  intros o c' (Hc' & Ho & _). by split.
Defined.
